(** * Bonusly Poker: the game ledger and the settlement sweep

    A shallow embedding of [bonusly_poker.py]: the [Player] ledger, the
    [Game] with its round recording and winner computation, the chip
    mapping of [_setup_game] and the greedy sweep of
    [_calculate_settlements].

    Python integers are unbounded, so they are [Z].  Lists that the code
    indexes or updates in place use stdpp's lookup and insert.  A [dict]
    keeps its keys in insertion order and the settlement sweep depends on
    that order, so a dict is an association list with [dict_set] for
    [d[k] = v].  Printing changes no state, but the f-string it is given
    is evaluated first and raises [ValueError] on an integer of more than
    4300 digits: that evaluation is kept wherever the code prints an
    integer it has computed. *)

From Stdlib Require Import ZArith Lia String Ascii.
From stdpp Require Import base numbers strings list.

Local Open Scope string_scope.
Local Open Scope list_scope.
Local Open Scope Z_scope.

(** ** Built-ins *)

(** [sum(xs)] over Python integers. *)
Fixpoint sum (xs : list Z) : Z :=
  match xs with
  | [] => 0
  | x :: rest => x + sum rest
  end.

(** ** class Player *)

Record Player := mkPlayer {
  name : string;
  starting_stack : Z;
  stack : Z;
  bets : list (Z * Z);
  actions : list (Z * string);
  went_negative_override : bool
}.

(** [Player.__init__] *)
Definition Player_init (name0 : string) (starting_stack0 : Z) : Player :=
  {| name := name0;
     starting_stack := starting_stack0;
     stack := starting_stack0;
     bets := [];
     actions := [];
     went_negative_override := false |}.

(** [Player.record_action]: two appends and one subtraction, no test on
    [amount] and no [raise]. *)
Definition record_action (self : Player) (round_number : Z) (action : string)
    (amount : Z) : Player :=
  {| name := name self;
     starting_stack := starting_stack self;
     stack := stack self - amount;
     bets := bets self ++ [(round_number, amount)];
     actions := actions self ++ [(round_number, action)];
     went_negative_override := went_negative_override self |}.

(** The property [Player.total_bet]. *)
Definition total_bet (self : Player) : Z :=
  sum (map snd (bets self)).

(** A call of [record_action] with its three arguments, and a sequence of
    calls on one player. *)
Definition action_call : Type := Z * string * Z.

Definition record_actions (self : Player) (calls : list action_call) : Player :=
  foldl (fun p '(round_number, action, amount) =>
           record_action p round_number action amount) self calls.

(** ** dict

    A [dict] with string keys: the items in insertion order, one per key.
    [d[k] = v] overwrites in place when the key is present and appends
    otherwise; [d.get(k)] reads the single item of the key. *)
Fixpoint dict_set {V : Type} (d : list (string * V)) (k : string) (v : V)
    : list (string * V) :=
  match d with
  | [] => [(k, v)]
  | (k', v') :: rest =>
      if decide (k' = k) then (k, v) :: rest else (k', v') :: dict_set rest k v
  end.

Fixpoint dict_get {V : Type} (d : list (string * V)) (k : string) : option V :=
  match d with
  | [] => None
  | (k', v') :: rest => if decide (k' = k) then Some v' else dict_get rest k
  end.

(** ** BonuslyPokerApp._calculate_settlements *)

(** One settlement, the dict [{"from": .., "to": .., "amount": ..}]. *)
Record Transfer := mkTransfer {
  tr_from : string;
  tr_to : string;
  tr_amount : Z
}.

(** The two comprehensions over [net_totals.items()]. *)
Definition debtors_of (net_totals : list (string * Z)) : list (string * Z) :=
  (λ x : string * Z, (x.1, - x.2)) <$> filter (λ x : string * Z, x.2 < 0) net_totals.

Definition creditors_of (net_totals : list (string * Z)) : list (string * Z) :=
  filter (λ x : string * Z, 0 < x.2) net_totals.

(** The local variables of the function while the loop runs. *)
Record Sweep := mkSweep {
  debtors : list (string * Z);
  creditors : list (string * Z);
  settlements : list Transfer;
  idx_i : nat;
  idx_j : nat
}.

Definition sweep_init (net_totals : list (string * Z)) : Sweep :=
  {| debtors := debtors_of net_totals;
     creditors := creditors_of net_totals;
     settlements := [];
     idx_i := 0;
     idx_j := 0 |}.

(** [i < len(debtors) and j < len(creditors)] *)
Definition loop_cond (st : Sweep) : bool :=
  (idx_i st <? length (debtors st))%nat && (idx_j st <? length (creditors st))%nat.

(** The body of the [while].  The two subscripts are in range whenever the
    condition holds; out of range Python raises [IndexError], which the
    guard excludes, and the state is returned as it is. *)
Definition loop_body (st : Sweep) : Sweep :=
  match debtors st !! idx_i st, creditors st !! idx_j st with
  | Some (debtor_name, debt_amt), Some (creditor_name, cred_amt) =>
      let amount := Z.min debt_amt cred_amt in
      let settlements' :=
        settlements st ++ [mkTransfer debtor_name creditor_name amount] in
      let debt_amt' := debt_amt - amount in
      let cred_amt' := cred_amt - amount in
      let '(i', debtors') :=
        if debt_amt' =? 0 then (S (idx_i st), debtors st)
        else (idx_i st, <[idx_i st := (debtor_name, debt_amt')]> (debtors st)) in
      let '(j', creditors') :=
        if cred_amt' =? 0 then (S (idx_j st), creditors st)
        else (idx_j st, <[idx_j st := (creditor_name, cred_amt')]> (creditors st)) in
      {| debtors := debtors'; creditors := creditors';
         settlements := settlements'; idx_i := i'; idx_j := j' |}
  | _, _ => st
  end.

(** Exactly [n] iterations of the loop from [st]: [None] when the
    condition fails before the [n]-th iteration starts. *)
Fixpoint iterations (n : nat) (st : Sweep) : option Sweep :=
  match n with
  | O => Some st
  | S k => if loop_cond st then iterations k (loop_body st) else None
  end.

(** The [while] loop, with a bound on the number of iterations.  The bound
    used below is never reached with the condition still true
    ([while_loop_exits]). *)
Fixpoint while_loop (fuel : nat) (st : Sweep) : Sweep :=
  match fuel with
  | O => st
  | S k => if loop_cond st then while_loop k (loop_body st) else st
  end.

Definition calculate_settlements (net_totals : list (string * Z))
    : list Transfer :=
  let st := sweep_init net_totals in
  settlements
    (while_loop (length (debtors st) + length (creditors st)) st).

(** *** The sweep on the two pending suffixes

    What the loop still has to look at is [debtors[i:]] and
    [creditors[j:]].  On these two lists one iteration takes the heads,
    emits the transfer and either drops a head (cursor advanced) or
    replaces it by the reduced entry (assignment at the cursor). *)
Definition pending_debtors (st : Sweep) : list (string * Z) :=
  drop (idx_i st) (debtors st).

Definition pending_creditors (st : Sweep) : list (string * Z) :=
  drop (idx_j st) (creditors st).

Definition reduce_head (entry_name : string) (left_amt : Z)
    (rest : list (string * Z)) : list (string * Z) :=
  if left_amt =? 0 then rest else (entry_name, left_amt) :: rest.

Fixpoint sweep (fuel : nat) (ds cs : list (string * Z)) : list Transfer :=
  match fuel, ds, cs with
  | S k, (debtor_name, debt_amt) :: ds', (creditor_name, cred_amt) :: cs' =>
      let amount := Z.min debt_amt cred_amt in
      mkTransfer debtor_name creditor_name amount
      :: sweep k (reduce_head debtor_name (debt_amt - amount) ds')
                 (reduce_head creditor_name (cred_amt - amount) cs')
  | _, _, _ => []
  end.

(** *** Applying transfers to running balances

    A running balance per player name; it starts at the player's net
    total ([0] for a name that is not a key). *)
Definition net_of (net_totals : list (string * Z)) (player : string) : Z :=
  default 0 (dict_get net_totals player).

(** The transfer as the settlement sentence words it: the amount is
    subtracted from the debtor's balance and added to the creditor's. *)
Definition apply_as_worded (bal : string → Z) (t : Transfer) : string → Z :=
  λ player,
    bal player
    - (if decide (player = tr_from t) then tr_amount t else 0)
    + (if decide (player = tr_to t) then tr_amount t else 0).

(** The transfer as a payment that settles: the debtor's negative balance
    rises by the amount paid, the creditor's positive balance falls by the
    amount received. *)
Definition apply_payment (bal : string → Z) (t : Transfer) : string → Z :=
  λ player,
    bal player
    + (if decide (player = tr_from t) then tr_amount t else 0)
    - (if decide (player = tr_to t) then tr_amount t else 0).

(** Total debtor magnitude: the sum of [-net] over the negative entries. *)
Definition debtor_magnitude (net_totals : list (string * Z)) : Z :=
  sum (map snd (debtors_of net_totals)).

Definition total_transferred (ts : list Transfer) : Z :=
  sum (map tr_amount ts).

(** What is left to sweep: the entries at and after the two cursors. *)
Definition sweep_measure (st : Sweep) : nat :=
  (length (debtors st) - idx_i st) + (length (creditors st) - idx_j st).

#[global] Instance Transfer_eq_dec : EqDecision Transfer.
Proof. solve_decision. Defined.

(** Remaining magnitudes are strictly positive. *)
Definition positive_entries (l : list (string * Z)) : Prop :=
  Forall (λ x : string * Z, 0 < x.2) l.

(** What the entries of a pending list hold for one player name. *)
Fixpoint amount_of (l : list (string * Z)) (player : string) : Z :=
  match l with
  | [] => 0
  | (k, a) :: rest => (if decide (k = player) then a else 0) + amount_of rest player
  end.

(** ** Exceptions and results

    The exceptions the modelled code can raise: [EOFError] from the input
    function when no line is left, [ValueError] from [Game.set_winner] and
    from the conversion of a huge integer to its decimal numeral,
    [OverflowError] from the conversion of a huge integer to a float. *)
Inductive exn :=
  | EOFError
  | ValueError (message : string)
  | OverflowError.

Inductive result (A : Type) :=
  | Ok (a : A)
  | Raise (e : exn).
Arguments Ok {A} a.
Arguments Raise {A} e.

(** What one pass through the body of a [while True] does next. *)
Inductive loop_step (A : Type) :=
  | Break (a : A)
  | Continue
  | Raised (e : exn).
Arguments Break {A} a.
Arguments Continue {A}.
Arguments Raised {A} e.

(** ** Integers in f-strings

    An f-string field [{n}] or [{n:+d}] holding an integer, and the [repr]
    of a list of integers, convert each integer to its decimal numeral.
    CPython (3.11 and later, with the default
    [sys.get_int_max_str_digits()] of 4300) refuses a numeral of more than
    4300 digits, the sign not counted, with a [ValueError]: the conversion
    raises exactly when [10 ^ 4300 <= abs(n)].  The f-string is evaluated
    before [print_func] or [input_func] is called with it, so the
    exception leaves the statement before anything is printed or read. *)
Definition max_str_digits : Z := 4300.

Definition int_str_limit : Z := Eval vm_compute in 10 ^ max_str_digits.

Definition int_str_error : exn :=
  ValueError ("Exceeds the limit (4300 digits) for integer string conversion; "
              +:+ "use sys.set_int_max_str_digits() to increase the limit").

Definition int_str_raises (n : Z) : bool := int_str_limit <=? Z.abs n.
Arguments int_str_raises : simpl never.

(** Evaluating an f-string whose integer fields are [ns]. *)
Definition format_ints (ns : list Z) : result unit :=
  if existsb int_str_raises ns then Raise int_str_error else Ok ().

(** ** class Game *)

(** One entry of [Game.history], the dict with the keys [round], [player],
    [action], [amount] and [pot_after]. *)
Record HistoryEntry := mkEntry {
  entry_round : Z;
  entry_player : string;
  entry_action : string;
  entry_amount : Z;
  entry_pot_after : Z
}.

(** The players of a game are distinct objects, as [_setup_game] creates
    them, so the list holds them by value and a mutation of the player at
    position [k] is an update of the list at [k]. *)
Record Game := mkGame {
  players : list Player;
  dealer : string;
  big_blind : string;
  small_blind : string;
  base_unit : Z;
  chip_denoms : list Z;
  pot : Z;
  round : Z;
  history : list HistoryEntry;
  winner : option string;
  net_results : list (string * Z)
}.

(** [Game.__init__] *)
Definition Game_init (players0 : list Player) (dealer0 big_blind0 small_blind0 : string)
    (base_unit0 : Z) (chip_denoms0 : list Z) : Game :=
  {| players := players0;
     dealer := dealer0;
     big_blind := big_blind0;
     small_blind := small_blind0;
     base_unit := base_unit0;
     chip_denoms := chip_denoms0;
     pot := 0;
     round := 1;
     history := [];
     winner := None;
     net_results := [] |}.

(** The players as [_setup_game] builds them from the configuration. *)
Definition fresh_players (player_configs : list (string * Z)) : list Player :=
  map (λ c : string * Z, Player_init c.1 c.2) player_configs.

(** [player.went_negative_override = True] for the player at position [k]. *)
Definition set_override (k : nat) (g : Game) : Game :=
  match players g !! k with
  | None => g
  | Some player =>
      let player' :=
        {| name := name player;
           starting_stack := starting_stack player;
           stack := stack player;
           bets := bets player;
           actions := actions player;
           went_negative_override := true |} in
      {| players := <[k := player']> (players g);
         dealer := dealer g; big_blind := big_blind g;
         small_blind := small_blind g; base_unit := base_unit g;
         chip_denoms := chip_denoms g; pot := pot g; round := round g;
         history := history g; winner := winner g;
         net_results := net_results g |}
  end.

(** The three statements that commit an action of the player at position
    [k]: [player.record_action(..)], [self.pot += amount] and
    [self.history.append({..})]. *)
Definition commit (round_no : Z) (k : nat) (action : string) (amount_bonusly : Z)
    (g : Game) : Game :=
  match players g !! k with
  | None => g
  | Some player =>
      let player' := record_action player round_no action amount_bonusly in
      let pot' := pot g + amount_bonusly in
      {| players := <[k := player']> (players g);
         dealer := dealer g; big_blind := big_blind g;
         small_blind := small_blind g; base_unit := base_unit g;
         chip_denoms := chip_denoms g;
         pot := pot';
         round := round g;
         history := history g ++
           [{| entry_round := round_no;
               entry_player := name player;
               entry_action := action;
               entry_amount := amount_bonusly;
               entry_pot_after := pot' |}];
         winner := winner g;
         net_results := net_results g |}
  end.

(** [action in ("bet", "raise", "all-in", "call")] *)
Definition is_betting (action : string) : bool :=
  bool_decide (action ∈ ["bet"; "raise"; "all-in"; "call"]).

(** [self.round += 1] *)
Definition next_round (g : Game) : Game :=
  {| players := players g; dealer := dealer g; big_blind := big_blind g;
     small_blind := small_blind g; base_unit := base_unit g;
     chip_denoms := chip_denoms g; pot := pot g;
     round := round g + 1;
     history := history g; winner := winner g;
     net_results := net_results g |}.

(** The loop of [set_winner] over the players, on [self.net_results]. *)
Definition winner_nets (winner_name : string) (pot0 : Z) (players0 : list Player)
    : list (string * Z) :=
  foldl (λ (nets : list (string * Z)) (player : Player),
           let net := - total_bet player in
           let net :=
             if decide (name player = winner_name) then net + pot0 else net in
           dict_set nets (name player) net)
        [] players0.

Section Interaction.

(** The string built-ins the code calls: [str.strip], [str.lower],
    [int(s)] ([None] when it raises [ValueError]) and [repr].  The
    development holds for any behaviour of them. *)
Variables (str_strip str_lower : string → string)
          (int_of_str : string → option Z)
          (str_repr : string → string).

(** The input function is a supply of lines: a call takes the next line
    and raises [EOFError] when none is left.  [print_func] has no effect
    on the state; what is kept of a call of it is the evaluation of its
    f-string, which raises on an integer field that is too long
    ([format_ints]). *)

(** The inner [while True] that reads one chip count: it repeats on a
    negative count and on a line that is no integer. *)
Fixpoint read_count (inp : list string) : result Z * list string :=
  match inp with
  | [] => (Raise EOFError, [])
  | line :: rest =>
      let count_str := str_strip line in
      let count_str := if decide (count_str = "") then "0" else count_str in
      match int_of_str count_str with
      | Some count =>
          if count <? 0 then read_count rest else (Ok count, rest)
      | None => read_count rest
      end
  end.

(** [for denom in self.chip_denoms], accumulating [total_units].  The
    prompt of the inner loop holds the field [{denom}]; it is evaluated
    at each pass of that loop with the same [denom], so it raises at the
    first pass, before a line is read, or at none. *)
Fixpoint read_denoms (denoms : list Z) (total_units : Z) (inp : list string)
    : result Z * list string :=
  match denoms with
  | [] => (Ok total_units, inp)
  | denom :: denoms' =>
      match format_ints [denom] with
      | Raise e => (Raise e, inp)
      | Ok _ =>
          match read_count inp with
          | (Ok count, inp') =>
              read_denoms denoms' (total_units + count * denom) inp'
          | (Raise e, inp') => (Raise e, inp')
          end
      end
  end.

(** One pass through the body of the outer [while True] for the player at
    position [k]: print the denominations ([{self.chip_denoms}]), read
    the chips, convert, compare the projected total bet with the starting
    stack and, when it is above, print the warning
    ([{projected_total_bet} > {player.starting_stack}]) and ask for
    confirmation. *)
Definition bet_attempt (k : nat) (g : Game) (inp : list string)
    : Game * loop_step Z * list string :=
  match format_ints (chip_denoms g) with
  | Raise e => (g, Raised e, inp)
  | Ok _ =>
      match read_denoms (chip_denoms g) 0 inp with
      | (Raise e, inp1) => (g, Raised e, inp1)
      | (Ok total_units, inp1) =>
          let amount_bonusly := total_units * base_unit g in
          match players g !! k with
          | None => (g, Break amount_bonusly, inp1)
          | Some player =>
              let projected_total_bet := total_bet player + amount_bonusly in
              if starting_stack player <? projected_total_bet then
                match format_ints [projected_total_bet; starting_stack player] with
                | Raise e => (g, Raised e, inp1)
                | Ok _ =>
                    match inp1 with
                    | [] => (g, Raised EOFError, [])
                    | line :: inp2 =>
                        let confirm := str_lower (str_strip line) in
                        if decide (confirm = "y")
                        then (set_override k g, Break amount_bonusly, inp2)
                        else (g, Continue, inp2)
                    end
                end
              else (g, Break amount_bonusly, inp1)
          end
      end
  end.

(** The outer [while True].  A pass that continues has consumed the
    confirmation line, so one more pass than there are lines is never
    needed ([bet_loop_unfold]); the first case is not reached from
    [record_turn]. *)
Fixpoint bet_loop (fuel : nat) (k : nat) (g : Game) (inp : list string)
    : Game * result Z * list string :=
  match fuel with
  | O => (g, Raise EOFError, inp)
  | S fuel' =>
      match bet_attempt k g inp with
      | (g1, Break amount_bonusly, inp1) => (g1, Ok amount_bonusly, inp1)
      | (g1, Continue, inp1) => bet_loop fuel' k g1 inp1
      | (g1, Raised e, inp1) => (g1, Raise e, inp1)
      end
  end.

(** The body of [for player in self.players] for the player at position
    [k].  The line printed after the commit holds the fields
    [{amount_bonusly}] and [{self.pot}]: when its evaluation raises, the
    action is committed already. *)
Definition record_turn (round_no : Z) (k : nat) (g : Game) (inp : list string)
    : Game * result unit * list string :=
  match inp with
  | [] => (g, Raise EOFError, [])
  | line :: inp1 =>
      let action := str_lower (str_strip line) in
      let '(g1, amount, inp2) :=
        if is_betting action then bet_loop (S (length inp1)) k g inp1
        else (g, Ok 0, inp1) in
      match amount with
      | Ok amount_bonusly =>
          let g2 := commit round_no k action amount_bonusly g1 in
          (g2, format_ints [amount_bonusly; pot g2], inp2)
      | Raise e => (g1, Raise e, inp2)
      end
  end.

Fixpoint record_turns (round_no : Z) (ks : list nat) (g : Game)
    (inp : list string) : Game * result unit * list string :=
  match ks with
  | [] => (g, Ok (), inp)
  | k :: ks' =>
      match record_turn round_no k g inp with
      | (g1, Ok _, inp1) => record_turns round_no ks' g1 inp1
      | (g1, Raise e, inp1) => (g1, Raise e, inp1)
      end
  end.

(** [Game.record_round]: the game as the call leaves it, whether it
    returns or an exception leaves it half way, and the lines not read.
    The heading printed first holds the field [{round_no}]. *)
Definition record_round (g : Game) (inp : list string)
    : Game * result unit * list string :=
  let round_no := round g in
  match format_ints [round_no] with
  | Raise e => (g, Raise e, inp)
  | Ok _ =>
      match record_turns round_no (seq 0 (length (players g))) g inp with
      | (g1, Ok _, inp1) => (next_round g1, Ok (), inp1)
      | (g1, Raise e, inp1) => (g1, Raise e, inp1)
      end
  end.

(** [Game.summarise] prints only; what is kept of it is the evaluation of
    its f-strings, in the order of the source: the pot, the three numbers
    of each player, the net results when there is a winner, and the three
    numbers of each history entry. *)
Definition summarise (g : Game) : result unit :=
  format_ints
    ([pot g]
     ++ concat (map (λ player, [total_bet player; stack player;
                                starting_stack player]) (players g))
     ++ (match winner g with
         | Some _ => map snd (net_results g)
         | None => []
         end)
     ++ concat (map (λ entry, [entry_round entry; entry_amount entry;
                               entry_pot_after entry]) (history g))).

(** [Game.set_winner] *)
Definition set_winner (winner_name : string) (g : Game) : Game * result unit :=
  if decide (winner_name ∈ map name (players g)) then
    ({| players := players g; dealer := dealer g; big_blind := big_blind g;
        small_blind := small_blind g; base_unit := base_unit g;
        chip_denoms := chip_denoms g; pot := pot g; round := round g;
        history := history g;
        winner := Some winner_name;
        net_results := winner_nets winner_name (pot g) (players g) |},
     Ok ())
  else
    (g, Raise (ValueError ("Unknown winner name: " +:+ str_repr winner_name))).

(** The operations a game receives during its lifetime. *)
Inductive operation :=
  | RecordRound (inp : list string)
  | SetWinner (winner_name : string).

Definition run_operation (g : Game) (op : operation) : Game :=
  match op with
  | RecordRound inp => (record_round g inp).1.1
  | SetWinner winner_name => (set_winner winner_name g).1
  end.

Definition run_operations (g : Game) (ops : list operation) : Game :=
  foldl run_operation g ops.

End Interaction.

(** ** The chip mapping of [_setup_game] *)

(** [float(n)] for a non-negative Python integer: the nearest double, ties
    to even.  A double has 53 significant bits, so an [n] of at most 53
    bits is exact and a longer one is rounded at its bit [shift].  The
    double is held by its value, which is an integer. *)
Definition round_to_double (n : Z) : Z :=
  let bits := Z.log2 n + 1 in
  if bits <=? 53 then n
  else
    let shift := bits - 53 in
    let q := Z.shiftr n shift in
    let r := n - Z.shiftl q shift in
    let half := Z.shiftl 1 (shift - 1) in
    let q' := if (half <? r) || ((r =? half) && Z.odd q) then q + 1 else q in
    Z.shiftl q' shift.

(** The conversion that [min_stack * 0.25] applies to its integer operand;
    a result beyond the largest double raises [OverflowError]. *)
Definition float_of_int (n : Z) : result Z :=
  let x := Z.sgn n * round_to_double (Z.abs n) in
  if 2 ^ 1024 <=? Z.abs x then Raise OverflowError else Ok x.

(** Lines 318 to 333: [int(min_stack * 0.25)], the floor division by 100 and
    the fallback.  Multiplying a double of integer value by 0.25 is exact
    and [int] truncates, so [int(x * 0.25)] is the quotient of [x] by 4
    rounded toward zero; [//] is floor division. *)
Definition chip_mapping (min_stack : Z) : result (Z * list Z) :=
  match float_of_int min_stack with
  | Raise e => Raise e
  | Ok x =>
      let chip_100_value := Z.quot x 4 in
      let unit0 := chip_100_value / 100 in
      let unit1 := if unit0 <? 1 then Z.max 1 (min_stack / 100) else unit0 in
      Ok (unit1, [1; 5; 25; 100])
  end.

(** The base unit as the chip-mapping sentence gives it, in exact integer
    arithmetic: [floor(floor(min_stack * 0.25) / 100)] when that is at
    least 1, and [max(1, floor(min_stack / 100))] otherwise. *)
Definition base_unit_formula (min_stack : Z) : Z :=
  let first := (min_stack / 4) / 100 in
  if 1 <=? first then first else Z.max 1 (min_stack / 100).

(** ** The string built-ins on ASCII strings

    Concrete functions to run the model on concrete lines.  On a string of
    ASCII characters they are [str.strip], [str.lower], [int] and [repr];
    a string with a character beyond ASCII is outside what they model, and
    no example below has one. *)

(** The ASCII characters that [str.strip] removes: tab to carriage
    return, the four separators 28 to 31, and the space. *)
Definition is_blank (c : ascii) : bool :=
  bool_decide (nat_of_ascii c ∈ [32; 9; 10; 11; 12; 13; 28; 29; 30; 31]%nat).

Fixpoint lstrip_with (blank : ascii → bool) (s : string) : string :=
  match s with
  | String c rest => if blank c then lstrip_with blank rest else s
  | EmptyString => EmptyString
  end.

Fixpoint rstrip_with (blank : ascii → bool) (s : string) : string :=
  match s with
  | String c rest =>
      match rstrip_with blank rest with
      | EmptyString => if blank c then EmptyString else String c EmptyString
      | rest' => String c rest'
      end
  | EmptyString => EmptyString
  end.

Definition ascii_strip (s : string) : string :=
  rstrip_with is_blank (lstrip_with is_blank s).

Definition lower_char (c : ascii) : ascii :=
  let n := nat_of_ascii c in
  if (65 <=? n)%nat && (n <=? 90)%nat then ascii_of_nat (n + 32) else c.

Fixpoint ascii_lower (s : string) : string :=
  match s with
  | String c rest => String (lower_char c) (ascii_lower rest)
  | EmptyString => EmptyString
  end.

(** The blanks that [int] skips around an ASCII numeral: tab to carriage
    return and the space, not the separators 28 to 31. *)
Definition is_int_blank (c : ascii) : bool :=
  bool_decide (nat_of_ascii c ∈ [32; 9; 10; 11; 12; 13]%nat).

Definition is_digit (c : ascii) : bool :=
  let n := nat_of_ascii c in (48 <=? n)%nat && (n <=? 57)%nat.

(** The digits of a numeral, with single underscores between digits: the
    value and the number of digits, or nothing when the text is no such
    numeral.  [after_digit] tells that the character before was a digit. *)
Fixpoint digits_value (s : string) (acc count : Z) (after_digit : bool)
    : option (Z * Z) :=
  match s with
  | String c rest =>
      if is_digit c then
        digits_value rest (10 * acc + (Z.of_nat (nat_of_ascii c) - 48))
          (count + 1) true
      else if bool_decide (c = "_"%char) && after_digit then
        digits_value rest acc count false
      else None
  | EmptyString => if after_digit then Some (acc, count) else None
  end.

(** [int(s)], [None] standing for its [ValueError]: blanks around, an
    optional sign, digits; a numeral of more than [max_str_digits] digits
    is refused like one that is malformed. *)
Definition decimal_int (s : string) : option Z :=
  let s := rstrip_with is_int_blank (lstrip_with is_int_blank s) in
  let '(sign, body) :=
    match s with
    | String "-" rest => (-1, rest)
    | String "+" rest => (1, rest)
    | _ => (1, s)
    end in
  match digits_value body 0 0 false with
  | Some (value, count) =>
      if max_str_digits <? count then None else Some (sign * value)
  | None => None
  end.

(** [repr(s)]: single quotes, or double quotes when the string has a
    single quote and no double quote; the quote in use and the backslash
    are escaped, and so are the control characters. *)
Definition hex_digit (n : nat) : ascii :=
  ascii_of_nat (if (n <? 10)%nat then 48 + n else 87 + n).

Fixpoint repr_body (quote : ascii) (s : string) : string :=
  match s with
  | EmptyString => EmptyString
  | String c rest =>
      let n := nat_of_ascii c in
      let tail := repr_body quote rest in
      if bool_decide (c = quote) || bool_decide (c = "092"%char) then
        String "092" (String c tail)
      else if (n =? 10)%nat then String "092" (String "n" tail)
      else if (n =? 13)%nat then String "092" (String "r" tail)
      else if (n =? 9)%nat then String "092" (String "t" tail)
      else if (n <? 32)%nat || (n =? 127)%nat then
        String "092" (String "x" (String (hex_digit (n / 16))
                                    (String (hex_digit (n mod 16)) tail)))
      else String c tail
  end.

Fixpoint has_char (c : ascii) (s : string) : bool :=
  match s with
  | EmptyString => false
  | String c' rest => bool_decide (c' = c) || has_char c rest
  end.

Definition quote_repr (s : string) : string :=
  let quote :=
    if has_char "'" s && negb (has_char "034" s) then "034"%char else "'"%char in
  String quote (repr_body quote s +:+ String quote EmptyString).

(** ** Invariants of the game ledger *)

(** A property of games that the three mutations of round recording keep. *)
Definition round_stable (P : Game → Prop) : Prop :=
  (∀ k g, P g → P (set_override k g))
  ∧ (∀ round_no k action amount g, P g → P (commit round_no k action amount g))
  ∧ (∀ g, P g → P (next_round g)).

(** The pot is the sum of the history amounts. *)
Definition pot_is_history_sum (g : Game) : Prop :=
  pot g = sum (map entry_amount (history g)).

(** The pot is the sum of the players' total bets. *)
Definition pot_is_bets_sum (g : Game) : Prop :=
  pot g = sum (map total_bet (players g)).

(** ** Concrete games used in the examples *)

(** Players A and B with 100 each, as [_setup_game] creates the game: the
    lowest stack is 100, so the base unit is 1. *)
Definition two_player_game : Game :=
  Game_init (fresh_players [("A", 100); ("B", 100)]) "A" "B" "A" 1 [1; 5; 25; 100].

(** The setup never compares the names it is given, so two players can be
    entered under one name.  Here both are called A, the first bets 10 and
    the second bets 20 in the first round. *)
Definition same_name_game : Game :=
  (record_round ascii_strip ascii_lower decimal_int
     (Game_init (fresh_players [("A", 100); ("A", 100)]) "A" "A" "A" 1 [1; 5; 25; 100])
     ["bet"; "10"; "0"; "0"; "0"; "bet"; "20"; "0"; "0"; "0"]).1.1.

(** ** Reading a list of transfers *)

(** Total credit: the sum of the positive net totals. *)
Definition creditor_magnitude (net_totals : list (string * Z)) : Z :=
  sum (map snd (creditors_of net_totals)).

(** What one player pays, and what one player receives, over a list of
    transfers. *)
Fixpoint paid_by (ts : list Transfer) (player : string) : Z :=
  match ts with
  | [] => 0
  | t :: rest =>
      (if decide (tr_from t = player) then tr_amount t else 0) + paid_by rest player
  end.

Fixpoint received_by (ts : list Transfer) (player : string) : Z :=
  match ts with
  | [] => 0
  | t :: rest =>
      (if decide (tr_to t = player) then tr_amount t else 0) + received_by rest player
  end.

(** ** The session summary of [run] *)

(** [net_totals[name] = net_totals.get(name, 0) + net] *)
Definition add_net (net_totals : list (string * Z)) (item : string * Z)
    : list (string * Z) :=
  dict_set net_totals item.1 (default 0 (dict_get net_totals item.1) + item.2).

(** The two nested loops over [self.games] and [game.net_results.items()]. *)
Definition aggregate_net_totals (games : list Game) : list (string * Z) :=
  foldl (λ (net_totals : list (string * Z)) (game : Game),
           foldl add_net net_totals (net_results game))
        [] games.

(** The end of [run]: nothing when no net result was recorded
    ([if not net_totals: return]), else the totals and the settlements
    computed from them. *)
Definition session_summary (games : list Game)
    : option (list (string * Z) * list Transfer) :=
  let net_totals := aggregate_net_totals games in
  match net_totals with
  | [] => None
  | _ => Some (net_totals, calculate_settlements net_totals)
  end.

(** A game as [run] leaves it before the next one starts: created by the
    setup from a configuration with pairwise distinct names, played through
    some operations, and closed by a [set_winner] that returned. *)
Definition finished_game (str_strip str_lower : string → string)
    (int_of_str : string → option Z) (str_repr : string → string)
    (g : Game) : Prop :=
  ∃ (player_configs : list (string * Z)) (dealer0 big_blind0 small_blind0 : string)
    (base_unit0 : Z) (chip_denoms0 : list Z) (ops : list operation)
    (winner_name : string),
    NoDup (map fst player_configs)
    ∧ set_winner str_repr winner_name
        (run_operations str_strip str_lower int_of_str str_repr
           (Game_init (fresh_players player_configs) dealer0 big_blind0
              small_blind0 base_unit0 chip_denoms0) ops)
      = (g, Ok ()).

(** A session of two games between A and B: A wins the first, in which
    both put in 20; B wins the second, in which both put in 10. *)
Definition first_game : Game :=
  (set_winner quote_repr "A"
     (run_operations ascii_strip ascii_lower decimal_int quote_repr two_player_game
        [RecordRound ["bet"; "20"; "0"; "0"; "0"; "call"; "20"; "0"; "0"; "0"]])).1.

Definition second_game : Game :=
  (set_winner quote_repr "B"
     (run_operations ascii_strip ascii_lower decimal_int quote_repr two_player_game
        [RecordRound ["bet"; "10"; "0"; "0"; "0"; "call"; "10"; "0"; "0"; "0"]])).1.

(** ** What one turn does *)

(** The chip total [Σ count × denom] of one count per denomination. *)
Fixpoint chip_units (counts denoms : list Z) : Z :=
  match counts, denoms with
  | count :: counts', denom :: denoms' => count * denom + chip_units counts' denoms'
  | _, _ => 0
  end.

(** The three ways a turn of the player at position [k] ends when it does
    not raise: an action that is no betting action is committed with amount
    0; a betting action is committed with the converted chips when the
    projected total bet stays within the starting stack; or it is committed
    after the override flag was set, when the projection is above. *)
Inductive turn_commits (round_no : Z) (k : nat) (g : Game) : Game → Prop :=
  | commits_plain (action : string) :
      is_betting action = false →
      turn_commits round_no k g (commit round_no k action 0 g)
  | commits_within (action : string) (counts : list Z) :
      is_betting action = true →
      length counts = length (chip_denoms g) →
      Forall (λ count, 0 ≤ count) counts →
      (∀ p, players g !! k = Some p →
            total_bet p + chip_units counts (chip_denoms g) * base_unit g
            ≤ starting_stack p) →
      turn_commits round_no k g
        (commit round_no k action
           (chip_units counts (chip_denoms g) * base_unit g) g)
  | commits_override (action : string) (counts : list Z) (p : Player) :
      is_betting action = true →
      length counts = length (chip_denoms g) →
      Forall (λ count, 0 ≤ count) counts →
      players g !! k = Some p →
      starting_stack p
      < total_bet p + chip_units counts (chip_denoms g) * base_unit g →
      turn_commits round_no k g
        (commit round_no k action
           (chip_units counts (chip_denoms g) * base_unit g)
           (set_override k g)).

(** The turns of the players at the positions [ks], one after the other. *)
Inductive turns_commit (round_no : Z) : list nat → Game → Game → Prop :=
  | turns_done (g : Game) : turns_commit round_no [] g g
  | turns_next (k : nat) (ks : list nat) (g g1 g2 : Game) :
      turn_commits round_no k g g1 →
      turns_commit round_no ks g1 g2 →
      turns_commit round_no (k :: ks) g g2.

(** The difference between the game before and after a committed turn of
    the player [p] at position [k]: the player's ledger [p'], one history
    entry, the pot; everything else is kept. *)
Definition committed_as (round_no : Z) (k : nat) (g g' : Game) (p p' : Player)
    (action : string) (amount : Z) : Prop :=
  players g' = <[k := p']> (players g)
  ∧ history g'
    = history g ++ [mkEntry round_no (name p) action amount (pot g + amount)]
  ∧ pot g' = pot g + amount
  ∧ round g' = round g
  ∧ base_unit g' = base_unit g
  ∧ chip_denoms g' = chip_denoms g
  ∧ dealer g' = dealer g ∧ big_blind g' = big_blind g
  ∧ small_blind g' = small_blind g
  ∧ winner g' = winner g
  ∧ net_results g' = net_results g
  ∧ name p' = name p
  ∧ starting_stack p' = starting_stack p
  ∧ bets p' = bets p ++ [(round_no, amount)]
  ∧ actions p' = actions p ++ [(round_no, action)]
  ∧ stack p' = stack p - amount.

(** What a committed turn of [p] records: the history entry [e] and the
    ledger [p'] of the player afterwards. *)
Definition turn_recorded (round_no : Z) (p p' : Player) (e : HistoryEntry) : Prop :=
  entry_round e = round_no
  ∧ entry_player e = name p
  ∧ name p' = name p
  ∧ starting_stack p' = starting_stack p
  ∧ bets p' = bets p ++ [(round_no, entry_amount e)]
  ∧ actions p' = actions p ++ [(round_no, entry_action e)]
  ∧ stack p' = stack p - entry_amount e.

(** How a game [g'] extends a game [g]: the history and every player's two
    logs have only grown at the end, by [new] for the history, and the pot
    and the stacks have moved by the amounts added; the set-up of the game
    and of the players is the same, and an override flag that was set is
    still set. *)
Definition extends_game (g g' : Game) (new : list HistoryEntry) : Prop :=
  history g' = history g ++ new
  ∧ pot g' = pot g + sum (map entry_amount new)
  ∧ base_unit g' = base_unit g
  ∧ chip_denoms g' = chip_denoms g
  ∧ dealer g' = dealer g ∧ big_blind g' = big_blind g
  ∧ small_blind g' = small_blind g
  ∧ length (players g') = length (players g)
  ∧ ∀ k p, players g !! k = Some p →
      ∃ (p' : Player) (new_bets : list (Z * Z)) (new_actions : list (Z * string)),
        players g' !! k = Some p'
        ∧ name p' = name p
        ∧ starting_stack p' = starting_stack p
        ∧ bets p' = bets p ++ new_bets
        ∧ actions p' = actions p ++ new_actions
        ∧ stack p' = stack p - sum (map snd new_bets)
        ∧ (went_negative_override p = true → went_negative_override p' = true)
        ∧ (0 ≤ base_unit g → Forall (λ denom, 0 ≤ denom) (chip_denoms g) →
             Forall (λ b : Z * Z, 0 ≤ b.2) new_bets).

(** The net of one player as [set_winner] computes it. *)
Definition player_net (winner_name : string) (pot0 : Z) (p : Player) : Z :=
  if decide (name p = winner_name) then - total_bet p + pot0 else - total_bet p.

(** The last player entered under a name. *)
Definition last_named (player_name : string) (ps : list Player) : option Player :=
  last (filter (λ p, name p = player_name) ps).

(** [self.winner] and [self.net_results] replaced, the rest kept. *)
Definition with_result (winner0 : option string) (nets : list (string * Z))
    (g : Game) : Game :=
  {| players := players g; dealer := dealer g; big_blind := big_blind g;
     small_blind := small_blind g; base_unit := base_unit g;
     chip_denoms := chip_denoms g; pot := pot g; round := round g;
     history := history g; winner := winner0; net_results := nets |}.

(** ** The session: [_setup_game] and [run] *)

(** The attributes of [BonuslyPokerApp] that the session changes. *)
Record App := mkApp {
  app_games : list Game;
  app_player_configs : option (list (string * Z))
}.

(** [BonuslyPokerApp.__init__] *)
Definition App_init : App :=
  {| app_games := []; app_player_configs := None |}.

Section Session.

Variables (str_strip str_lower : string → string)
          (int_of_str : string → option Z)
          (str_repr : string → string).

(** The message of the [ValueError] that [min] raises on an empty
    sequence; it depends on the interpreter version. *)
Variable empty_min_message : string.

(** The first loop of [_setup_game]: the number of players, asked again
    on a line that is no integer and on a number below 2. *)
Fixpoint read_num_players (inp : list string) : result Z * list string :=
  match inp with
  | [] => (Raise EOFError, [])
  | line :: rest =>
      match int_of_str line with
      | Some num_players =>
          if num_players <? 2 then read_num_players rest
          else (Ok num_players, rest)
      | None => read_num_players rest
      end
  end.

(** The loop that reads one starting stack, asked again on a line that is
    no integer and on a stack that is not positive. *)
Fixpoint read_stack (inp : list string) : result Z * list string :=
  match inp with
  | [] => (Raise EOFError, [])
  | line :: rest =>
      match int_of_str line with
      | Some stack0 =>
          if stack0 <=? 0 then read_stack rest else (Ok stack0, rest)
      | None => read_stack rest
      end
  end.

(** [for i in range(num_players)]: a name, taken as typed, then a stack. *)
Fixpoint read_player_configs (n : nat) (player_configs : list (string * Z))
    (inp : list string) : result (list (string * Z)) * list string :=
  match n with
  | O => (Ok player_configs, inp)
  | S n' =>
      match inp with
      | [] => (Raise EOFError, [])
      | name0 :: inp1 =>
          match read_stack inp1 with
          | (Ok stack0, inp2) =>
              read_player_configs n' (player_configs ++ [(name0, stack0)]) inp2
          | (Raise e, inp2) => (Raise e, inp2)
          end
      end
  end.

(** [min(stack for _, stack in player_configs)] *)
Definition min_stack_of (player_configs : list (string * Z)) : result Z :=
  match player_configs with
  | [] => Raise (ValueError empty_min_message)
  | (_, stack0) :: rest => Ok (foldl Z.min stack0 (map snd rest))
  end.

(** The local function [choose_role]: asked again until the line is one
    of the player names. *)
Fixpoint choose_role (player_names : list string) (inp : list string)
    : result string * list string :=
  match inp with
  | [] => (Raise EOFError, [])
  | name0 :: rest =>
      if decide (name0 ∈ player_names) then (Ok name0, rest)
      else choose_role player_names rest
  end.

(** [_setup_game], on the cached configuration [self.player_configs]: the
    cache as the call leaves it, the game or the exception, and the lines
    not read.  The integers its f-strings print are starting stacks, which
    [int] returned, the base unit, at most the smallest of them, and the
    chip values, at most a quarter of it or at most 300; [int] returns
    no integer of more than [max_str_digits] digits, so these f-strings do
    not raise and nothing is kept of them. *)
Definition setup_game (cache : option (list (string * Z))) (inp : list string)
    : option (list (string * Z)) * result Game * list string :=
  let '(configs, inp1) :=
    match cache with
    | None =>
        match read_num_players inp with
        | (Ok num_players, inp0) =>
            read_player_configs (Z.to_nat num_players) [] inp0
        | (Raise e, inp0) => (Raise e, inp0)
        end
    | Some player_configs => (Ok player_configs, inp)
    end in
  match configs with
  | Raise e => (cache, Raise e, inp1)
  | Ok player_configs =>
      let cache' := Some player_configs in
      match min_stack_of player_configs with
      | Raise e => (cache', Raise e, inp1)
      | Ok min_stack =>
          match chip_mapping min_stack with
          | Raise e => (cache', Raise e, inp1)
          | Ok (unit0, denoms0) =>
              let player_names := map fst player_configs in
              let players0 := fresh_players player_configs in
              match choose_role player_names inp1 with
              | (Raise e, inp2) => (cache', Raise e, inp2)
              | (Ok dealer0, inp2) =>
                  match choose_role player_names inp2 with
                  | (Raise e, inp3) => (cache', Raise e, inp3)
                  | (Ok big_blind0, inp3) =>
                      match choose_role player_names inp3 with
                      | (Raise e, inp4) => (cache', Raise e, inp4)
                      | (Ok small_blind0, inp4) =>
                          (cache',
                           Ok (Game_init players0 dealer0 big_blind0
                                 small_blind0 unit0 denoms0),
                           inp4)
                      end
                  end
              end
          end
      end
  end.

(** The inner loop of [run] over the rounds of one game: a round, then the
    question whether to record another.  A pass reads at least the answer,
    so one more pass than there are lines is never needed
    ([rounds_loop_unfold]). *)
Fixpoint rounds_loop (fuel : nat) (g : Game) (inp : list string)
    : Game * result unit * list string :=
  match fuel with
  | O => (g, Raise EOFError, inp)
  | S fuel' =>
      match record_round str_strip str_lower int_of_str g inp with
      | (g1, Raise e, inp1) => (g1, Raise e, inp1)
      | (g1, Ok _, inp1) =>
          match inp1 with
          | [] => (g1, Raise EOFError, [])
          | line :: inp2 =>
              let cont_round := str_lower (str_strip line) in
              if decide (cont_round = "y") then rounds_loop fuel' g1 inp2
              else (g1, Ok (), inp2)
          end
      end
  end.

(** The loop of [run] that asks for the winner until [set_winner] accepts
    the name; only its [ValueError] is caught. *)
Fixpoint winner_loop (g : Game) (inp : list string)
    : Game * result unit * list string :=
  match inp with
  | [] => (g, Raise EOFError, [])
  | line :: rest =>
      let winner_name := str_strip line in
      match set_winner str_repr winner_name g with
      | (g1, Ok _) => (g1, Ok (), rest)
      | (g1, Raise (ValueError _)) => winner_loop g1 rest
      | (g1, Raise e) => (g1, Raise e, rest)
      end
  end.

(** One pass through the outer loop of [run]: set up a game, append it to
    [self.games], record its rounds, ask for the winner, print the summary
    of the game, and ask whether to play another game ([true] for the
    answer [y]).  The game appended is the object the rest of the pass
    mutates, so the list holds it as the pass leaves it. *)
Definition play_game (app : App) (inp : list string)
    : App * result bool * list string :=
  match setup_game (app_player_configs app) inp with
  | (cache', Raise e, inp1) =>
      ({| app_games := app_games app; app_player_configs := cache' |},
       Raise e, inp1)
  | (cache', Ok game, inp1) =>
      let appended (g : Game) :=
        {| app_games := app_games app ++ [g]; app_player_configs := cache' |} in
      match rounds_loop (S (length inp1)) game inp1 with
      | (g1, Raise e, inp2) => (appended g1, Raise e, inp2)
      | (g1, Ok _, inp2) =>
          match winner_loop g1 inp2 with
          | (g2, Raise e, inp3) => (appended g2, Raise e, inp3)
          | (g2, Ok _, inp3) =>
              match summarise g2 with
              | Raise e => (appended g2, Raise e, inp3)
              | Ok _ =>
                  match inp3 with
                  | [] => (appended g2, Raise EOFError, [])
                  | line :: inp4 =>
                      let cont_game := str_lower (str_strip line) in
                      (appended g2, Ok (bool_decide (cont_game = "y")), inp4)
                  end
              end
          end
      end
  end.

(** The outer loop of [run].  A pass reads at least one line
    ([games_loop_unfold]). *)
Fixpoint games_loop (fuel : nat) (app : App) (inp : list string)
    : App * result unit * list string :=
  match fuel with
  | O => (app, Raise EOFError, inp)
  | S fuel' =>
      match play_game app inp with
      | (app1, Ok true, inp1) => games_loop fuel' app1 inp1
      | (app1, Ok false, inp1) => (app1, Ok (), inp1)
      | (app1, Raise e, inp1) => (app1, Raise e, inp1)
      end
  end.

(** The lines of [run] that print the session summary: one f-string per
    net total ([{net:+d}]), then one per settlement ([{s['amount']}]).
    The settlements are computed between the two, by a call that neither
    reads nor prints. *)
Definition print_summary (summary : list (string * Z) * list Transfer)
    : result unit :=
  match format_ints (map snd summary.1) with
  | Raise e => Raise e
  | Ok _ => format_ints (map tr_amount summary.2)
  end.

(** [run] from the first game to the session data, that is up to the call
    of [_save_session_json]: the totals and settlements it has computed and
    printed, or nothing when it returned early. *)
Definition run_session (inp : list string)
    : App * result (option (list (string * Z) * list Transfer)) * list string :=
  match games_loop (S (length inp)) App_init inp with
  | (app, Ok _, rest) =>
      match session_summary (app_games app) with
      | None => (app, Ok None, rest)
      | Some summary =>
          match print_summary summary with
          | Raise e => (app, Raise e, rest)
          | Ok _ => (app, Ok (Some summary), rest)
          end
      end
  | (app, Raise e, rest) => (app, Raise e, rest)
  end.

End Session.

(** A game of a session as the outer loop of [run] leaves it: set up from
    the session's configuration with a base unit of at least 1 and the four
    denominations, played for at least one round, and closed by a
    [set_winner] on one of the configured names. *)
Definition session_game (str_strip str_lower : string → string)
    (int_of_str : string → option Z) (str_repr : string → string)
    (player_configs : list (string * Z)) (g : Game) : Prop :=
  ∃ (dealer0 big_blind0 small_blind0 : string) (base_unit0 : Z)
    (rounds : list (list string)) (winner_name : string),
    1 ≤ base_unit0
    ∧ rounds ≠ []
    ∧ winner_name ∈ map fst player_configs
    ∧ set_winner str_repr winner_name
        (run_operations str_strip str_lower int_of_str str_repr
           (Game_init (fresh_players player_configs) dealer0 big_blind0
              small_blind0 base_unit0 [1; 5; 25; 100])
           (map RecordRound rounds))
      = (g, Ok ()).

(** The state of the application between two games: nothing yet, or a
    cached configuration of at least two players with positive stacks and
    the games played so far from it. *)
Definition session_state (str_strip str_lower : string → string)
    (int_of_str : string → option Z) (str_repr : string → string)
    (app : App) : Prop :=
  match app_player_configs app with
  | None => app_games app = []
  | Some player_configs =>
      (2 ≤ length player_configs)%nat
      ∧ Forall (λ c : string * Z, 0 < c.2) player_configs
      ∧ Forall (session_game str_strip str_lower int_of_str str_repr
                  player_configs) (app_games app)
  end.

(** A session of two games between A and B, as typed: two players with
    100 each, roles, one round in which both put in 20, A wins; a second
    game with one round in which both put in 10, B wins; no third game. *)
Definition two_game_session : list string :=
  ["2"; "A"; "100"; "B"; "100"; "A"; "B"; "A";
   "bet"; "20"; "0"; "0"; "0"; "call"; "20"; "0"; "0"; "0"; "n";
   "Carol"; "A"; "y";
   "A"; "B"; "A";
   "bet"; "10"; "0"; "0"; "0"; "call"; "10"; "0"; "0"; "0"; "n";
   "B"; "n"].

(** ** Serialization *)

(** The dict of [Player.to_dict], by key. *)
Record PlayerDict := mkPlayerDict {
  d_name : string;
  d_starting_stack : Z;
  d_ending_stack : Z;
  d_total_bet : Z;
  d_bets : list (Z * Z);
  d_actions : list (Z * string);
  d_went_negative_override : bool
}.

(** [Player.to_dict] *)
Definition Player_to_dict (self : Player) : PlayerDict :=
  {| d_name := name self;
     d_starting_stack := starting_stack self;
     d_ending_stack := stack self;
     d_total_bet := total_bet self;
     d_bets := bets self;
     d_actions := actions self;
     d_went_negative_override := went_negative_override self |}.

(** The dict of [Game.to_dict], by key. *)
Record GameDict := mkGameDict {
  d_dealer : string;
  d_big_blind : string;
  d_small_blind : string;
  d_pot : Z;
  d_rounds_played : Z;
  d_winner : option string;
  d_players : list PlayerDict;
  d_history : list HistoryEntry;
  d_net_results : list (string * Z);
  d_base_unit : Z;
  d_chip_denoms : list Z
}.

(** [Game.to_dict] *)
Definition Game_to_dict (self : Game) : GameDict :=
  {| d_dealer := dealer self;
     d_big_blind := big_blind self;
     d_small_blind := small_blind self;
     d_pot := pot self;
     d_rounds_played := round self - 1;
     d_winner := winner self;
     d_players := map Player_to_dict (players self);
     d_history := history self;
     d_net_results := net_results self;
     d_base_unit := base_unit self;
     d_chip_denoms := chip_denoms self |}.

(** The number of [record_round] calls of a sequence of operations that
    ran to the end. *)
Fixpoint completed_rounds (str_strip str_lower : string → string)
    (int_of_str : string → option Z) (str_repr : string → string)
    (g : Game) (ops : list operation) : Z :=
  match ops with
  | [] => 0
  | op :: ops' =>
      (match op with
       | RecordRound inp =>
           match (record_round str_strip str_lower int_of_str g inp).1.2 with
           | Ok _ => 1
           | Raise _ => 0
           end
       | SetWinner _ => 0
       end)
      + completed_rounds str_strip str_lower int_of_str str_repr
          (run_operation str_strip str_lower int_of_str str_repr g op) ops'
  end.

(** ** Lines with integers too long to print *)

(** The digit [c] written [n] times. *)
Fixpoint numeral (c : ascii) (n : nat) : string :=
  match n with
  | O => EmptyString
  | S n' => String c (numeral c n')
  end.

(** A bet of [10 ^ 4298] chips of value 100 by a player with a stack of
    100, and the answer to a question that is never asked: the amount,
    [10 ^ 4300], has 4301 digits. *)
Definition oversize_bet : list string :=
  ["bet"; "0"; "0"; "0"; "1" +:+ numeral "0" 4298; "y"].

(** A round in which A bets [10 ^ 4300 - 1] chips of value 1, the longest
    numeral that [int] accepts, and confirms, and B then bets one chip of
    value 1: every amount can be printed, the pot after B's bet is
    [10 ^ 4300] and cannot. *)
Definition oversize_round : list string :=
  ["bet"; numeral "9" 4300; "0"; "0"; "0"; "y";
   "bet"; "1"; "0"; "0"; "0"].

(** * Theorems *)

Lemma sum_app (xs ys : list Z) : sum (xs ++ ys) = sum xs + sum ys.
Proof. induction xs as [|x xs IH]; simpl; lia. Qed.

Lemma total_bet_record_action (p : Player) (r : Z) (a : string) (amt : Z) :
  total_bet (record_action p r a amt) = total_bet p + amt.
Proof. unfold total_bet; simpl. rewrite map_app, sum_app; simpl; lia. Qed.

Lemma record_actions_snoc (p : Player) (calls : list action_call) (r : Z)
    (a : string) (amt : Z) :
  record_actions p (calls ++ [(r, a, amt)])
  = record_action (record_actions p calls) r a amt.
Proof. unfold record_actions. by rewrite foldl_app. Qed.

(** C5: from [Player.__init__] on, after any sequence of [record_action]
    calls with arbitrary integer amounts, [stack] equals [starting_stack]
    minus [total_bet]; the starting stack is the one given at creation; one
    call appends exactly one entry to [bets] and one to [actions] (so after
    the sequence both logs have one entry per call); [record_action] is a
    total function, it has no failing result. *)
Theorem player_ledger_invariant (name0 : string) (starting_stack0 : Z)
    (calls : list action_call) :
  let p := record_actions (Player_init name0 starting_stack0) calls in
  stack p = starting_stack p - total_bet p
  ∧ starting_stack p = starting_stack0
  ∧ length (bets p) = length calls
  ∧ length (actions p) = length calls
  ∧ ∀ (r : Z) (a : string) (amt : Z),
      bets (record_action p r a amt) = bets p ++ [(r, amt)]
      ∧ actions (record_action p r a amt) = actions p ++ [(r, a)]
      ∧ stack (record_action p r a amt) = stack p - amt.
Proof.
  induction calls as [|[[r a] amt] calls IH] using rev_ind.
  - cbn. unfold total_bet; simpl. repeat split; lia.
  - cbn zeta in *. rewrite record_actions_snoc.
    destruct IH as (Hst & Hs0 & Hb & Ha & _).
    rewrite total_bet_record_action. simpl.
    rewrite !length_app; simpl.
    repeat split; try lia.
Qed.

(** ** The settlement sweep *)

Lemma loop_cond_true (st : Sweep) :
  loop_cond st = true →
  ∃ dn da cn ca,
    debtors st !! idx_i st = Some (dn, da)
    ∧ creditors st !! idx_j st = Some (cn, ca).
Proof.
  unfold loop_cond. rewrite andb_true_iff, !Nat.ltb_lt. intros [Hi Hj].
  destruct (lookup_lt_is_Some_2 _ _ Hi) as [[dn da] Hd].
  destruct (lookup_lt_is_Some_2 _ _ Hj) as [[cn ca] Hc].
  by exists dn, da, cn, ca.
Qed.

Lemma loop_cond_false (st : Sweep) :
  loop_cond st = false →
  pending_debtors st = [] ∨ pending_creditors st = [].
Proof.
  unfold loop_cond, pending_debtors, pending_creditors.
  rewrite andb_false_iff, !Nat.ltb_ge.
  intros [H|H]; [left|right]; by apply drop_ge.
Qed.

Lemma drop_reduce_head {A : Type} (l : list A) (n : nat) (x y : A) :
  l !! n = Some x → drop n (<[n := y]> l) = y :: drop (S n) l.
Proof.
  intros Hx. rewrite drop_insert_ge by lia.
  rewrite (drop_S _ _ _ Hx), Nat.sub_diag. reflexivity.
Qed.

(** One iteration, seen on the pending suffixes. *)
Lemma loop_body_pending (st : Sweep) (dn cn : string) (da ca : Z) :
  debtors st !! idx_i st = Some (dn, da) →
  creditors st !! idx_j st = Some (cn, ca) →
  let amount := Z.min da ca in
  settlements (loop_body st) = settlements st ++ [mkTransfer dn cn amount]
  ∧ pending_debtors (loop_body st)
    = reduce_head dn (da - amount) (drop (S (idx_i st)) (debtors st))
  ∧ pending_creditors (loop_body st)
    = reduce_head cn (ca - amount) (drop (S (idx_j st)) (creditors st)).
Proof.
  intros Hd Hc amount. unfold loop_body, pending_debtors, pending_creditors,
    reduce_head. rewrite Hd, Hc. fold amount.
  destruct (da - amount =? 0); destruct (ca - amount =? 0); simpl;
    rewrite ?(drop_reduce_head _ _ _ _ Hd), ?(drop_reduce_head _ _ _ _ Hc);
    done.
Qed.

Lemma sweep_nil_r (fuel : nat) (ds : list (string * Z)) : sweep fuel ds [] = [].
Proof. destruct fuel, ds as [|[? ?] ?]; reflexivity. Qed.

Lemma sweep_nil_l (fuel : nat) (cs : list (string * Z)) : sweep fuel [] cs = [].
Proof. destruct fuel; reflexivity. Qed.

(** The loop on the indexed lists computes the sweep on the suffixes. *)
Lemma while_loop_sweep (fuel : nat) (st : Sweep) :
  settlements (while_loop fuel st)
  = settlements st ++ sweep fuel (pending_debtors st) (pending_creditors st).
Proof.
  revert st. induction fuel as [|fuel IH]; intros st; simpl.
  - by rewrite app_nil_r.
  - destruct (loop_cond st) eqn:Hcond.
    + destruct (loop_cond_true st Hcond) as (dn & da & cn & ca & Hd & Hc).
      destruct (loop_body_pending st dn cn da ca Hd Hc) as (Hs & Hpd & Hpc).
      rewrite IH, Hs, Hpd, Hpc.
      unfold pending_debtors, pending_creditors.
      rewrite (drop_S _ _ _ Hd), (drop_S _ _ _ Hc). simpl.
      by rewrite <- app_assoc.
    + destruct (loop_cond_false st Hcond) as [->| ->].
      * by rewrite app_nil_r.
      * destruct (pending_debtors st) as [|[? ?] ?]; by rewrite app_nil_r.
Qed.

Lemma calculate_settlements_sweep (net_totals : list (string * Z)) :
  calculate_settlements net_totals
  = sweep (length (debtors_of net_totals) + length (creditors_of net_totals))
      (debtors_of net_totals) (creditors_of net_totals).
Proof.
  unfold calculate_settlements. cbv zeta. rewrite while_loop_sweep.
  reflexivity.
Qed.

(** *** Termination *)

Lemma loop_body_advances (st : Sweep) :
  loop_cond st = true →
  length (settlements (loop_body st)) = S (length (settlements st))
  ∧ length (debtors (loop_body st)) = length (debtors st)
  ∧ length (creditors (loop_body st)) = length (creditors st)
  ∧ (idx_i st ≤ idx_i (loop_body st) ≤ S (idx_i st))%nat
  ∧ (idx_j st ≤ idx_j (loop_body st) ≤ S (idx_j st))%nat
  ∧ (idx_i st + idx_j st < idx_i (loop_body st) + idx_j (loop_body st))%nat.
Proof.
  intros Hcond.
  destruct (loop_cond_true st Hcond) as (dn & da & cn & ca & Hd & Hc).
  unfold loop_body. rewrite Hd, Hc.
  destruct (Z.min_spec da ca) as [[_ Hm]|[_ Hm]]; rewrite Hm.
  - rewrite Z.sub_diag. simpl.
    destruct (ca - da =? 0); simpl; rewrite ?length_app, ?length_insert;
      simpl; repeat split; lia.
  - rewrite Z.sub_diag.
    destruct (da - ca =? 0); simpl; rewrite ?length_app, ?length_insert;
      simpl; repeat split; lia.
Qed.

Lemma while_loop_exits (fuel : nat) (st : Sweep) :
  (idx_i st ≤ length (debtors st))%nat →
  (idx_j st ≤ length (creditors st))%nat →
  (sweep_measure st ≤ fuel)%nat →
  ∃ (n : nat) (st' : Sweep),
    (n ≤ sweep_measure st)%nat
    ∧ iterations n st = Some st'
    ∧ loop_cond st' = false
    ∧ while_loop fuel st = st'
    ∧ length (settlements st') = (length (settlements st) + n)%nat
    ∧ (idx_i st' = length (debtors st') ∨ idx_j st' = length (creditors st')).
Proof.
  revert st. induction fuel as [|fuel IH]; intros st Hi Hj Hfuel.
  - exists 0%nat, st. unfold sweep_measure in Hfuel.
    assert (Hc : loop_cond st = false).
    { unfold loop_cond. apply andb_false_iff. rewrite !Nat.ltb_ge. lia. }
    simpl. repeat split; try done; lia.
  - destruct (loop_cond st) eqn:Hcond.
    + destruct (loop_body_advances st Hcond) as (Hs & Hd & Hc & Hi' & Hj' & Hadv).
      pose proof Hcond as Hlt. unfold loop_cond in Hlt.
      apply andb_true_iff in Hlt. rewrite !Nat.ltb_lt in Hlt.
      assert (Hm : (S (sweep_measure (loop_body st)) ≤ sweep_measure st)%nat).
      { unfold sweep_measure. rewrite Hd, Hc. lia. }
      destruct (IH (loop_body st)) as (n & st' & Hn & Hit & Hex & Hw & Hlen & Hend);
        [lia | lia | lia |].
      exists (S n), st'. simpl. rewrite Hcond.
      repeat split; try done; lia.
    + exists 0%nat, st. simpl. rewrite Hcond.
      repeat split; try done; try lia.
      unfold loop_cond in Hcond. apply andb_false_iff in Hcond.
      rewrite !Nat.ltb_ge in Hcond. lia.
Qed.

(** C10: for every input mapping the loop of [_calculate_settlements]
    halts.  Each iteration (a state in which the loop condition holds)
    appends exactly one transfer, moves no cursor back and advances at least
    one of them; from the initial state the condition becomes false after
    [n] iterations with [n] at most [len(debtors) + len(creditors)], at that
    point one of the two lists is exhausted, and the function returns the
    [n] transfers of that state. *)
Theorem calculate_settlements_terminates (net_totals : list (string * Z)) :
  (∀ st : Sweep,
     loop_cond st = true →
     length (settlements (loop_body st)) = S (length (settlements st))
     ∧ (idx_i st ≤ idx_i (loop_body st))%nat
     ∧ (idx_j st ≤ idx_j (loop_body st))%nat
     ∧ (idx_i st + idx_j st < idx_i (loop_body st) + idx_j (loop_body st))%nat)
  ∧ ∃ (n : nat) (st' : Sweep),
      (n ≤ length (debtors_of net_totals) + length (creditors_of net_totals))%nat
      ∧ iterations n (sweep_init net_totals) = Some st'
      ∧ loop_cond st' = false
      ∧ (idx_i st' = length (debtors st') ∨ idx_j st' = length (creditors st'))
      ∧ calculate_settlements net_totals = settlements st'
      ∧ length (calculate_settlements net_totals) = n.
Proof.
  split.
  - intros st Hcond.
    destruct (loop_body_advances st Hcond) as (? & _ & _ & ? & ? & ?).
    repeat split; lia.
  - set (st := sweep_init net_totals).
    destruct (while_loop_exits (length (debtors st) + length (creditors st)) st)
      as (n & st' & Hn & Hit & Hex & Hw & Hlen & Hend).
    { simpl; lia. } { simpl; lia. } { unfold sweep_measure; simpl; lia. }
    exists n, st'. unfold calculate_settlements. cbv zeta. fold st.
    rewrite Hw. unfold sweep_measure in Hn. simpl in Hn, Hlen.
    repeat split; try done. lia.
Qed.

Lemma calculate_settlements_terminates_witness :
  let st := sweep_init [("A", 10); ("B", -10)] in
  loop_cond st = true
  ∧ length (settlements (loop_body st)) = S (length (settlements st)).
Proof.
  split; [reflexivity|].
  apply (proj1 (calculate_settlements_terminates [("A", 10); ("B", -10)])).
  reflexivity.
Defined.

(** *** Transfers are positive and between a debtor and a creditor *)

Lemma debtors_of_positive (net_totals : list (string * Z)) :
  positive_entries (debtors_of net_totals).
Proof.
  unfold positive_entries, debtors_of. rewrite Forall_fmap.
  apply list.Forall_forall. intros [n v] Hin%list_elem_of_filter. simpl in *. lia.
Qed.

Lemma creditors_of_positive (net_totals : list (string * Z)) :
  positive_entries (creditors_of net_totals).
Proof.
  unfold positive_entries, creditors_of.
  apply list.Forall_forall. intros [n v] Hin%list_elem_of_filter. simpl in *. lia.
Qed.

Lemma debtors_of_elem (net_totals : list (string * Z)) (n : string) :
  n ∈ (debtors_of net_totals).*1 → ∃ net, (n, net) ∈ net_totals ∧ net < 0.
Proof.
  unfold debtors_of. rewrite <- list_fmap_compose.
  intros ([n' v] & -> & Hin%list_elem_of_filter)%list_elem_of_fmap.
  simpl in *. exists v. tauto.
Qed.

Lemma creditors_of_elem (net_totals : list (string * Z)) (n : string) :
  n ∈ (creditors_of net_totals).*1 → ∃ net, (n, net) ∈ net_totals ∧ 0 < net.
Proof.
  unfold creditors_of.
  intros ([n' v] & -> & Hin%list_elem_of_filter)%list_elem_of_fmap.
  simpl in *. exists v. tauto.
Qed.

Lemma reduce_head_positive (n : string) (a m : Z) (rest : list (string * Z)) :
  0 ≤ a - m → positive_entries rest → positive_entries (reduce_head n (a - m) rest).
Proof.
  intros Hle Hrest. unfold reduce_head.
  destruct (Z.eqb_spec (a - m) 0); [done|].
  constructor; [simpl; lia | done].
Qed.

Lemma reduce_head_names (n : string) (a : Z) (rest : list (string * Z)) :
  (reduce_head n a rest).*1 ⊆ n :: rest.*1.
Proof.
  unfold reduce_head. destruct (a =? 0); simpl; [|done].
  intros x Hx. by right.
Qed.

Lemma sweep_transfers (fuel : nat) (ds cs : list (string * Z)) :
  positive_entries ds → positive_entries cs →
  Forall (λ t, 0 < tr_amount t ∧ tr_from t ∈ ds.*1 ∧ tr_to t ∈ cs.*1)
    (sweep fuel ds cs).
Proof.
  revert ds cs. induction fuel as [|fuel IH]; intros ds cs Hds Hcs; [constructor|].
  destruct ds as [|[dn da] ds]; [constructor|].
  destruct cs as [|[cn ca] cs]; [constructor|].
  inversion Hds as [|? ? Hda Hds']; subst. inversion Hcs as [|? ? Hca Hcs']; subst.
  simpl in Hda, Hca. simpl. constructor.
  - simpl. repeat split; [lia | left | left].
  - eapply list.Forall_impl.
    + apply IH; apply reduce_head_positive; try done; lia.
    + intros t (Hpos & Hf & Ht). repeat split; [done | |].
      * by apply reduce_head_names in Hf.
      * by apply reduce_head_names in Ht.
Qed.

Lemma dict_items_functional (d : list (string * Z)) (k : string) (v w : Z) :
  NoDup d.*1 → (k, v) ∈ d → (k, w) ∈ d → v = w.
Proof.
  intros Hnd Hv Hw.
  apply list_elem_of_lookup in Hv as [i Hi]. apply list_elem_of_lookup in Hw as [j Hj].
  assert (i = j) as ->.
  { eapply (NoDup_lookup _ i j k Hnd); rewrite list_lookup_fmap.
    - by rewrite Hi. - by rewrite Hj. }
  congruence.
Qed.

(** C9: for every input mapping (a dict: one item per key), each transfer
    returned by [_calculate_settlements] has a strictly positive amount, its
    debtor is a key with a negative net total, its creditor a key with a
    positive one, and so no key whose net total is exactly zero is named by
    a transfer, neither as debtor nor as creditor. *)
Theorem transfers_positive_between_nonzero (net_totals : list (string * Z))
    (t : Transfer) :
  NoDup net_totals.*1 →
  t ∈ calculate_settlements net_totals →
  0 < tr_amount t
  ∧ (∃ net, (tr_from t, net) ∈ net_totals ∧ net < 0)
  ∧ (∃ net, (tr_to t, net) ∈ net_totals ∧ 0 < net)
  ∧ ∀ player, (player, 0) ∈ net_totals →
      player ≠ tr_from t ∧ player ≠ tr_to t.
Proof.
  intros Hnd Ht. rewrite calculate_settlements_sweep in Ht.
  pose proof (sweep_transfers
    (length (debtors_of net_totals) + length (creditors_of net_totals))
    _ _ (debtors_of_positive net_totals) (creditors_of_positive net_totals)) as Hall.
  rewrite list.Forall_forall in Hall. destruct (Hall t Ht) as (Hpos & Hf & Hc).
  apply debtors_of_elem in Hf as [nf [Hf Hnf]].
  apply creditors_of_elem in Hc as [nc [Hc Hnc]].
  repeat split; [done | by exists nf | by exists nc | |].
  - intros ->. pose proof (dict_items_functional _ _ _ _ Hnd H Hf). lia.
  - intros ->. pose proof (dict_items_functional _ _ _ _ Hnd H Hc). lia.
Qed.

Lemma transfers_positive_between_nonzero_witness :
  let net_totals := [("A", 10); ("B", -30); ("C", 0); ("D", 20)] in
  let t := mkTransfer "B" "D" 20 in
  0 < tr_amount t ∧ "C" ≠ tr_from t ∧ "C" ≠ tr_to t.
Proof.
  intros net_totals t.
  assert (Hnd : NoDup net_totals.*1) by (apply (bool_decide_unpack _); vm_compute; exact I).
  assert (Hin : t ∈ calculate_settlements net_totals).
  { apply (bool_decide_unpack _); vm_compute; exact I. }
  destruct (transfers_positive_between_nonzero net_totals t Hnd Hin)
    as (Hpos & _ & _ & Hz).
  split; [exact Hpos|]. apply Hz.
  apply (bool_decide_unpack _); vm_compute; exact I.
Defined.

(** *** The transfers settle every balance *)

Lemma amount_of_reduce_head (n : string) (a : Z) (rest : list (string * Z))
    (player : string) :
  amount_of (reduce_head n a rest) player
  = (if decide (n = player) then a else 0) + amount_of rest player.
Proof.
  unfold reduce_head. destruct (Z.eqb_spec a 0) as [->|]; simpl; [|done].
  by destruct (decide (n = player)).
Qed.

Lemma sum_reduce_head (n : string) (a : Z) (rest : list (string * Z)) :
  sum (map snd (reduce_head n a rest)) = a + sum (map snd rest).
Proof.
  unfold reduce_head. destruct (Z.eqb_spec a 0) as [->|]; simpl; lia.
Qed.

Lemma length_reduce_head (n : string) (a : Z) (rest : list (string * Z)) :
  (length (reduce_head n a rest) ≤ S (length rest))%nat
  ∧ (a = 0 → length (reduce_head n a rest) = length rest).
Proof.
  unfold reduce_head. destruct (Z.eqb_spec a 0); simpl; split; intros; lia.
Qed.

Lemma positive_entries_sum (l : list (string * Z)) :
  positive_entries l → 0 ≤ sum (map snd l) ∧ (sum (map snd l) = 0 → l = []).
Proof.
  induction 1 as [|[n a] l Ha _ IH]; simpl in *; [done|].
  split; [lia|]. intros; lia.
Qed.

Lemma amount_of_absent (l : list (string * Z)) (player : string) :
  player ∉ l.*1 → amount_of l player = 0.
Proof.
  induction l as [|[k a] l IH]; simpl; [done|].
  rewrite not_elem_of_cons. intros [Hne Hnot].
  destruct (decide (k = player)); [congruence|]. rewrite IH by done. lia.
Qed.

Lemma sweep_settles (fuel : nat) :
  ∀ (ds cs : list (string * Z)) (bal : string → Z),
    (length ds + length cs ≤ fuel)%nat →
    positive_entries ds → positive_entries cs →
    sum (map snd ds) = sum (map snd cs) →
    (∀ player, bal player = amount_of cs player - amount_of ds player) →
    (∀ player, foldl apply_payment bal (sweep fuel ds cs) player = 0)
    ∧ total_transferred (sweep fuel ds cs) = sum (map snd ds).
Proof.
  induction fuel as [|fuel IH]; intros ds cs bal Hfuel Hds Hcs Hsum Hbal.
  - destruct ds, cs; simpl in Hfuel; try lia.
    split; [|done]. intros player. simpl. rewrite Hbal. reflexivity.
  - destruct ds as [|[dn da] ds].
    { simpl in Hsum. symmetry in Hsum.
      apply (positive_entries_sum _ Hcs) in Hsum as ->.
      split; [|done]. intros player. simpl. rewrite Hbal. reflexivity. }
    destruct cs as [|[cn ca] cs].
    { apply (positive_entries_sum _ Hds) in Hsum. discriminate. }
    inversion Hds as [|? ? Hda Hds']; subst.
    inversion Hcs as [|? ? Hca Hcs']; subst.
    simpl in Hda, Hca, Hsum, Hfuel. simpl.
    set (m := Z.min da ca) in *.
    assert (Hm : 0 < m ∧ m ≤ da ∧ m ≤ ca ∧ (da - m = 0 ∨ ca - m = 0))
      by (unfold m; lia).
    destruct (length_reduce_head dn (da - m) ds) as [Hld Hld0].
    destruct (length_reduce_head cn (ca - m) cs) as [Hlc Hlc0].
    destruct (IH (reduce_head dn (da - m) ds) (reduce_head cn (ca - m) cs)
                (apply_payment bal (mkTransfer dn cn m))) as [Hzero Htot].
    + destruct Hm as (_ & _ & _ & [Hz|Hz]);
        [specialize (Hld0 Hz) | specialize (Hlc0 Hz)]; lia.
    + apply reduce_head_positive; [lia | done].
    + apply reduce_head_positive; [lia | done].
    + rewrite !sum_reduce_head. lia.
    + intros player. unfold apply_payment. simpl.
      rewrite !amount_of_reduce_head, Hbal. simpl.
      repeat case_decide; subst; try congruence; lia.
    + split; [exact Hzero|].
      unfold total_transferred in *. simpl. rewrite Htot, sum_reduce_head. lia.
Qed.

Lemma creditors_of_keys (net_totals : list (string * Z)) :
  (creditors_of net_totals).*1 ⊆ net_totals.*1.
Proof.
  intros n Hn. apply creditors_of_elem in Hn as (v & Hv & _).
  apply list_elem_of_fmap. by exists (n, v).
Qed.

Lemma debtors_of_keys (net_totals : list (string * Z)) :
  (debtors_of net_totals).*1 ⊆ net_totals.*1.
Proof.
  intros n Hn. apply debtors_of_elem in Hn as (v & Hv & _).
  apply list_elem_of_fmap. by exists (n, v).
Qed.

Lemma debtors_of_cons (k : string) (v : Z) (rest : list (string * Z)) :
  debtors_of ((k, v) :: rest)
  = if decide (v < 0) then (k, - v) :: debtors_of rest else debtors_of rest.
Proof.
  unfold debtors_of. rewrite filter_cons. simpl.
  by destruct (decide (v < 0)).
Qed.

Lemma creditors_of_cons (k : string) (v : Z) (rest : list (string * Z)) :
  creditors_of ((k, v) :: rest)
  = if decide (0 < v) then (k, v) :: creditors_of rest else creditors_of rest.
Proof.
  unfold creditors_of. rewrite filter_cons. simpl.
  by destruct (decide (0 < v)).
Qed.

(** A net total is what the creditor list holds for the player minus what
    the debtor list holds. *)
Lemma net_of_split (net_totals : list (string * Z)) (player : string) :
  NoDup net_totals.*1 →
  net_of net_totals player
  = amount_of (creditors_of net_totals) player
    - amount_of (debtors_of net_totals) player.
Proof.
  unfold net_of. induction net_totals as [|[k v] rest IH]; [done|].
  rewrite fmap_cons. intros [Hk Hnd]%list.NoDup_cons. simpl in Hk. simpl dict_get.
  rewrite debtors_of_cons, creditors_of_cons.
  destruct (decide (k = player)) as [->|Hne].
  - assert (Hc : amount_of (creditors_of rest) player = 0).
    { apply amount_of_absent. intros Hin. by apply creditors_of_keys in Hin. }
    assert (Hd : amount_of (debtors_of rest) player = 0).
    { apply amount_of_absent. intros Hin. by apply debtors_of_keys in Hin. }
    destruct (decide (v < 0)), (decide (0 < v)); simpl;
      rewrite ?decide_True by done; simpl; lia.
  - rewrite (IH Hnd).
    destruct (decide (v < 0)), (decide (0 < v)); simpl;
      rewrite ?decide_False by done; lia.
Qed.

Lemma sum_split (net_totals : list (string * Z)) :
  sum (map snd net_totals)
  = sum (map snd (creditors_of net_totals))
    - sum (map snd (debtors_of net_totals)).
Proof.
  induction net_totals as [|[k v] rest IH]; simpl; [done|].
  rewrite debtors_of_cons, creditors_of_cons.
  destruct (decide (v < 0)), (decide (0 < v)); simpl; lia.
Qed.

(** C2, as worded: with the running balances starting at the net totals,
    subtracting each amount from the debtor's balance and adding it to the
    creditor's does not bring the balances to zero.  For [{A: +10, B: -10}]
    the only transfer is [B -> A: 10], and that way B ends at [-20]. *)
Lemma settlement_as_worded_counterexample :
  let net_totals := [("A", 10); ("B", -10)] in
  NoDup net_totals.*1
  ∧ sum (map snd net_totals) = 0
  ∧ calculate_settlements net_totals = [mkTransfer "B" "A" 10]
  ∧ foldl apply_as_worded (net_of net_totals)
      (calculate_settlements net_totals) "B" = -20
  ∧ ¬ (∀ player, foldl apply_as_worded (net_of net_totals)
         (calculate_settlements net_totals) player = 0).
Proof.
  cbv zeta. split; [apply (bool_decide_unpack _); vm_compute; exact I|].
  split; [reflexivity|]. split; [reflexivity|]. split; [reflexivity|].
  intros H. specialize (H "B"). vm_compute in H. discriminate.
Qed.

(** C2, amended: for every input mapping (a dict: one item per key) whose
    values sum to zero, applying the transfers of [_calculate_settlements]
    in order as payments (the amount is added to the debtor's running
    balance and subtracted from the creditor's, the balances starting at the
    net totals) brings every player's balance to exactly zero, and the sum
    of the transfer amounts is the total debtor magnitude. *)
Theorem settlements_settle (net_totals : list (string * Z)) :
  NoDup net_totals.*1 →
  sum (map snd net_totals) = 0 →
  (∀ player, foldl apply_payment (net_of net_totals)
               (calculate_settlements net_totals) player = 0)
  ∧ total_transferred (calculate_settlements net_totals)
    = debtor_magnitude net_totals.
Proof.
  intros Hnd Hsum. rewrite calculate_settlements_sweep.
  apply sweep_settles.
  - lia.
  - apply debtors_of_positive.
  - apply creditors_of_positive.
  - rewrite sum_split in Hsum. lia.
  - intros player. by apply net_of_split.
Qed.

Lemma settlements_settle_witness :
  let net_totals := [("A", 10); ("B", -30); ("C", 0); ("D", 20)] in
  foldl apply_payment (net_of net_totals)
    (calculate_settlements net_totals) "B" = 0
  ∧ total_transferred (calculate_settlements net_totals) = 30.
Proof.
  intros net_totals.
  assert (Hnd : NoDup net_totals.*1) by (apply (bool_decide_unpack _); vm_compute; exact I).
  assert (Hsum : sum (map snd net_totals) = 0) by reflexivity.
  destruct (settlements_settle net_totals Hnd Hsum) as [Hz Ht].
  split; [apply Hz | rewrite Ht; reflexivity].
Defined.

(** Read on what each player still owes (the negated net totals), the
    wording and the payment are the same operation. *)
Lemma as_worded_on_owed (ts : list Transfer) (owed bal : string → Z) :
  (∀ player, owed player = - bal player) →
  ∀ player,
    foldl apply_as_worded owed ts player = - foldl apply_payment bal ts player.
Proof.
  revert owed bal. induction ts as [|t ts IH]; intros owed bal Hneg; simpl.
  - exact Hneg.
  - apply IH. intros player. unfold apply_as_worded, apply_payment.
    rewrite Hneg. lia.
Qed.

(** ** The game ledger *)

Lemma sum_map_insert {A : Type} (f : A → Z) (l : list A) (k : nat) (x y : A) :
  l !! k = Some x →
  sum (map f (<[k := y]> l)) = sum (map f l) - f x + f y.
Proof.
  revert k. induction l as [|z l IH]; intros [|k] Hk; simpl in *; try done.
  - injection Hk as ->. lia.
  - rewrite (IH k Hk). lia.
Qed.

Lemma map_insert_same {A B : Type} (f : A → B) (l : list A) (k : nat) (x y : A) :
  l !! k = Some x → f y = f x → map f (<[k := y]> l) = map f l.
Proof.
  revert k. induction l as [|z l IH]; intros [|k] Hk Hf; simpl in *; try done.
  - injection Hk as ->. by rewrite Hf.
  - by rewrite (IH k Hk Hf).
Qed.

Lemma commit_pot_history (round_no : Z) (k : nat) (action : string) (amount : Z)
    (g : Game) (player : Player) :
  players g !! k = Some player →
  pot (commit round_no k action amount g) = pot g + amount
  ∧ history (commit round_no k action amount g)
    = history g ++ [mkEntry round_no (name player) action amount (pot g + amount)]
  ∧ players (commit round_no k action amount g)
    = <[k := record_action player round_no action amount]> (players g).
Proof. intros Hk. unfold commit. rewrite Hk. done. Qed.

Lemma pot_is_history_sum_stable : round_stable pot_is_history_sum.
Proof.
  unfold pot_is_history_sum. repeat split.
  - intros k g H. unfold set_override. by destruct (players g !! k).
  - intros round_no k action amount g H. unfold commit.
    destruct (players g !! k); [|done]. simpl.
    rewrite map_app, sum_app. simpl. lia.
  - intros g H. done.
Qed.

Lemma pot_is_bets_sum_stable : round_stable pot_is_bets_sum.
Proof.
  unfold pot_is_bets_sum. repeat split.
  - intros k g H. unfold set_override.
    destruct (players g !! k) as [p|] eqn:Hk; [|done]. simpl.
    rewrite (sum_map_insert _ _ _ p) by done.
    change (total_bet (mkPlayer (name p) (starting_stack p) (stack p) (bets p)
              (actions p) true)) with (total_bet p). lia.
  - intros round_no k action amount g H. unfold commit.
    destruct (players g !! k) as [p|] eqn:Hk; [|done]. simpl.
    rewrite (sum_map_insert _ _ _ p) by done.
    rewrite total_bet_record_action. lia.
  - intros g H. done.
Qed.

Lemma names_stable (names : list string) :
  round_stable (λ g, map name (players g) = names).
Proof.
  repeat split.
  - intros k g H. unfold set_override.
    destruct (players g !! k) as [p|] eqn:Hk; [|done]. simpl.
    by rewrite (map_insert_same _ _ _ p).
  - intros round_no k action amount g H. unfold commit.
    destruct (players g !! k) as [p|] eqn:Hk; [|done]. simpl.
    by rewrite (map_insert_same _ _ _ p).
  - intros g H. done.
Qed.

Lemma round_stable_and (P Q : Game → Prop) :
  round_stable P → round_stable Q → round_stable (λ g, P g ∧ Q g).
Proof.
  intros (P1 & P2 & P3) (Q1 & Q2 & Q3).
  repeat split; intros; destruct_and?; auto.
Qed.

(** The evaluation of an f-string returns or raises the one error. *)
Lemma format_ints_cases (ns : list Z) :
  format_ints ns = Ok () ∨ format_ints ns = Raise int_str_error.
Proof. unfold format_ints. destruct (existsb _ _); auto. Qed.

Lemma format_ints_raises (ns : list Z) (e : exn) :
  format_ints ns = Raise e → e = int_str_error.
Proof. unfold format_ints. destruct (existsb _ _); [by intros [= <-]|done]. Qed.

Lemma format_ints_ok (ns : list Z) :
  format_ints ns = Ok () ↔ Forall (λ n, int_str_raises n = false) ns.
Proof.
  unfold format_ints. induction ns as [|n ns IH]; simpl;
    [split; [constructor|done]|].
  destruct (int_str_raises n) eqn:Hn; simpl.
  - split; [done|]. intros H. apply Forall_cons in H as [H _]. congruence.
  - rewrite IH. split.
    + intros H. by constructor.
    + intros H. by apply Forall_cons in H as [_ H].
Qed.

Lemma format_ints_cons (n : Z) (ns : list Z) :
  format_ints (n :: ns)
  = match format_ints [n] with
    | Ok _ => format_ints ns
    | Raise e => Raise e
    end.
Proof.
  unfold format_ints. simpl. by destruct (int_str_raises n).
Qed.

Section InteractionProofs.

Variables (str_strip str_lower : string → string)
          (int_of_str : string → option Z)
          (str_repr : string → string).

Local Abbreviation read_count' := (read_count str_strip int_of_str).
Local Abbreviation read_denoms' := (read_denoms str_strip int_of_str).
Local Abbreviation bet_attempt' := (bet_attempt str_strip str_lower int_of_str).
Local Abbreviation bet_loop' := (bet_loop str_strip str_lower int_of_str).
Local Abbreviation record_turn' := (record_turn str_strip str_lower int_of_str).
Local Abbreviation record_turns' := (record_turns str_strip str_lower int_of_str).
Local Abbreviation record_round' := (record_round str_strip str_lower int_of_str).
Local Abbreviation set_winner' := (set_winner str_repr).
Local Abbreviation run_operations' :=
  (run_operations str_strip str_lower int_of_str str_repr).

Lemma read_count_length (inp rest : list string) (r : result Z) :
  read_count' inp = (r, rest) → (length rest ≤ length inp)%nat.
Proof.
  revert rest r. induction inp as [|line inp IH]; intros rest r; simpl.
  - intros [= <- <-]. done.
  - destruct (int_of_str _) as [count|].
    + destruct (count <? 0).
      * intros H%IH. lia.
      * intros [= <- <-]. lia.
    + intros H%IH. lia.
Qed.

Lemma read_denoms_length (denoms : list Z) (total : Z) (inp rest : list string)
    (r : result Z) :
  read_denoms' denoms total inp = (r, rest) → (length rest ≤ length inp)%nat.
Proof.
  revert total inp. induction denoms as [|d denoms IH]; intros total inp; simpl.
  - intros [= <- <-]. done.
  - destruct (format_ints [d]) as [u|e]; [|by intros [= <- <-]].
    destruct (read_count' inp) as [[count|e] inp'] eqn:Hc.
    + intros H%IH. apply read_count_length in Hc. lia.
    + intros [= <- <-]. by apply read_count_length in Hc.
Qed.

(** The chips are read to the end only when every prompt could be
    written, so the denominations are all short enough to print. *)
Lemma read_denoms_formats (denoms : list Z) (total total' : Z)
    (inp rest : list string) :
  read_denoms' denoms total inp = (Ok total', rest) →
  format_ints denoms = Ok ().
Proof.
  revert total inp. induction denoms as [|d denoms IH]; intros total inp; simpl;
    [done|].
  rewrite (format_ints_cons d denoms).
  destruct (format_ints [d]) as [u|e]; [|done].
  destruct (read_count' inp) as [[count|e] inp']; [|done].
  apply IH.
Qed.

(** One pass of the betting loop leaves the game as it is or sets the
    override flag; a pass that continues leaves it as it is and has read
    at least one line. *)
Lemma bet_attempt_cases (k : nat) (g g1 : Game) (inp rest : list string)
    (s : loop_step Z) :
  bet_attempt' k g inp = (g1, s, rest) →
  (g1 = g ∨ g1 = set_override k g)
  ∧ (length rest ≤ length inp)%nat
  ∧ (s = Continue → g1 = g ∧ (length rest < length inp)%nat).
Proof.
  unfold bet_attempt.
  destruct (format_ints (chip_denoms g)) as [u0|e0];
    [|intros [= <- <- <-]; repeat split; auto; done].
  destruct (read_denoms' (chip_denoms g) 0 inp) as [[u|e] inp1] eqn:Hr;
    apply read_denoms_length in Hr.
  - destruct (players g !! k) as [p|].
    + destruct (starting_stack p <? total_bet p + u * base_unit g).
      * destruct (format_ints _) as [u1|e1];
          [|intros [= <- <- <-]; repeat split; auto; done].
        destruct inp1 as [|line inp2].
        -- intros [= <- <- <-]. simpl. repeat split; auto; try lia. done.
        -- destruct (decide _); intros [= <- <- <-]; simpl in *;
             repeat split; auto; try lia; done.
      * intros [= <- <- <-]. repeat split; auto. done.
    + intros [= <- <- <-]. repeat split; auto. done.
  - intros [= <- <- <-]. repeat split; auto. done.
Qed.

Lemma bet_loop_cases (fuel k : nat) (g g1 : Game) (inp rest : list string)
    (r : result Z) :
  bet_loop' fuel k g inp = (g1, r, rest) →
  g1 = g ∨ g1 = set_override k g.
Proof.
  revert g inp. induction fuel as [|fuel IH]; intros g inp; simpl.
  - intros [= <- <- <-]. by left.
  - destruct (bet_attempt' k g inp) as [[g2 s] inp1] eqn:Ha.
    destruct (bet_attempt_cases _ _ _ _ _ _ Ha) as (Hg & _ & Hcont).
    destruct s as [amount| |e].
    + intros [= <- <- <-]. done.
    + destruct (Hcont eq_refl) as [-> _]. apply IH.
    + intros [= <- <- <-]. done.
Qed.

(** With more passes allowed than there are lines, the number allowed
    does not matter. *)
Lemma bet_loop_fuel (fuel1 fuel2 k : nat) (g : Game) (inp : list string) :
  (length inp < fuel1)%nat → (length inp < fuel2)%nat →
  bet_loop' fuel1 k g inp = bet_loop' fuel2 k g inp.
Proof.
  revert fuel2 g inp. induction fuel1 as [|fuel1 IH]; intros fuel2 g inp H1 H2;
    [lia|].
  destruct fuel2 as [|fuel2]; [lia|]. simpl.
  destruct (bet_attempt' k g inp) as [[g2 s] inp1] eqn:Ha.
  destruct (bet_attempt_cases _ _ _ _ _ _ Ha) as (_ & _ & Hcont).
  destruct s as [amount| |e]; try done.
  destruct (Hcont eq_refl) as [_ Hlt]. apply IH; lia.
Qed.

Lemma bet_loop_S (fuel k : nat) (g : Game) (inp : list string) :
  bet_loop' (S fuel) k g inp
  = match bet_attempt' k g inp with
    | (g1, Break amount, inp1) => (g1, Ok amount, inp1)
    | (g1, Continue, inp1) => bet_loop' fuel k g1 inp1
    | (g1, Raised e, inp1) => (g1, Raise e, inp1)
    end.
Proof. reflexivity. Qed.

(** The loop equation of the outer [while True]. *)
Lemma bet_loop_unfold (k : nat) (g : Game) (inp : list string) :
  bet_loop' (S (length inp)) k g inp
  = match bet_attempt' k g inp with
    | (g1, Break amount, inp1) => (g1, Ok amount, inp1)
    | (g1, Continue, inp1) => bet_loop' (S (length inp1)) k g1 inp1
    | (g1, Raised e, inp1) => (g1, Raise e, inp1)
    end.
Proof.
  rewrite (bet_loop_S (length inp)).
  destruct (bet_attempt' k g inp) as [[g2 s] inp1] eqn:Ha.
  destruct (bet_attempt_cases _ _ _ _ _ _ Ha) as (_ & _ & Hcont).
  destruct s as [amount| |e]; try done.
  destruct (Hcont eq_refl) as [_ Hlt]. apply bet_loop_fuel; lia.
Qed.

Lemma record_turn_stable (P : Game → Prop) (round_no : Z) (k : nat) (g : Game)
    (inp : list string) :
  round_stable P → P g → P (record_turn' round_no k g inp).1.1.
Proof.
  intros (Hov & Hcom & _) Hg. unfold record_turn.
  destruct inp as [|line inp1]; [done|].
  destruct (is_betting _).
  - destruct (bet_loop' _ k g inp1) as [[g1 r] inp2] eqn:Hb.
    assert (P g1) by (destruct (bet_loop_cases _ _ _ _ _ _ _ Hb) as [->| ->]; auto).
    destruct r; simpl; auto.
  - simpl. auto.
Qed.

Lemma record_turns_stable (P : Game → Prop) (round_no : Z) (ks : list nat)
    (g : Game) (inp : list string) :
  round_stable P → P g → P (record_turns' round_no ks g inp).1.1.
Proof.
  intros HP. revert g inp. induction ks as [|k ks IH]; intros g inp Hg; [done|].
  simpl. pose proof (record_turn_stable P round_no k g inp HP Hg) as H1.
  destruct (record_turn' round_no k g inp) as [[g1 [u|e]] inp1]; simpl in *; auto.
Qed.

Lemma record_round_stable (P : Game → Prop) (g : Game) (inp : list string) :
  round_stable P → P g → P (record_round' g inp).1.1.
Proof.
  intros HP Hg. unfold record_round.
  destruct (format_ints [round g]) as [u0|e0]; [|done].
  pose proof (record_turns_stable P (round g) (seq 0 (length (players g))) g inp HP Hg) as H1.
  destruct (record_turns' _ _ g inp) as [[g1 [u|e]] inp1]; simpl in *; auto.
  by apply HP.
Qed.

(** [set_winner] writes [winner] and [net_results] only. *)
Lemma set_winner_frame (winner_name : string) (g : Game) :
  let g' := (set_winner' winner_name g).1 in
  players g' = players g ∧ pot g' = pot g ∧ history g' = history g
  ∧ round g' = round g ∧ base_unit g' = base_unit g
  ∧ chip_denoms g' = chip_denoms g.
Proof. unfold set_winner. by destruct (decide _). Qed.

Lemma run_operations_stable (P : Game → Prop) (g : Game) (ops : list operation) :
  round_stable P →
  (∀ winner_name g, P g → P (set_winner' winner_name g).1) →
  P g → P (run_operations' g ops).
Proof.
  intros HP Hw. revert g. induction ops as [|op ops IH]; intros g Hg; [done|].
  simpl. apply IH. destruct op as [inp|winner_name]; simpl.
  - by apply record_round_stable.
  - by apply Hw.
Qed.

End InteractionProofs.

(** ** The pot and the history *)

(** C4: a fresh [Game] has pot 0 and an empty history; after any sequence
    of operations on it ([record_round] on any supply of input lines,
    including one that runs out half way through a round, and [set_winner]
    with any name) the pot equals the sum of the [amount] fields of the
    history entries; and committing an action adds to the pot exactly the
    amount of the single history entry it appends. *)
Theorem pot_equals_history_sum (str_strip str_lower : string → string)
    (int_of_str : string → option Z) (str_repr : string → string)
    (players0 : list Player) (dealer0 big_blind0 small_blind0 : string)
    (base_unit0 : Z) (chip_denoms0 : list Z) (ops : list operation) :
  let g0 := Game_init players0 dealer0 big_blind0 small_blind0 base_unit0
              chip_denoms0 in
  let g := run_operations str_strip str_lower int_of_str str_repr g0 ops in
  pot g0 = 0 ∧ history g0 = []
  ∧ pot g = sum (map entry_amount (history g))
  ∧ ∀ (g1 : Game) (round_no : Z) (k : nat) (action : string) (amount : Z)
      (player : Player),
      players g1 !! k = Some player →
      pot (commit round_no k action amount g1) = pot g1 + amount
      ∧ history (commit round_no k action amount g1)
        = history g1
          ++ [mkEntry round_no (name player) action amount (pot g1 + amount)].
Proof.
  cbv zeta. split; [done|]. split; [done|]. split.
  - apply (run_operations_stable str_strip str_lower int_of_str str_repr
             pot_is_history_sum).
    + apply pot_is_history_sum_stable.
    + intros winner_name g H. unfold pot_is_history_sum in *.
      destruct (set_winner_frame str_repr winner_name g) as (_ & -> & -> & _).
      done.
    + done.
  - intros g1 round_no k action amount player Hk.
    destruct (commit_pot_history round_no k action amount g1 player Hk)
      as (Hp & Hh & _). done.
Qed.

Lemma pot_equals_history_sum_witness :
  let g := two_player_game in
  players g !! 0%nat = Some (Player_init "A" 100)
  ∧ pot (commit 1 0 "bet" 20 g) = pot g + 20.
Proof.
  split; [reflexivity|].
  pose proof (pot_equals_history_sum ascii_strip ascii_lower decimal_int
                quote_repr [] "" "" "" 1 [] []) as (_ & _ & _ & H).
  apply (H two_player_game 1 0%nat "bet" 20 (Player_init "A" 100)).
  reflexivity.
Defined.

(** ** The winner *)

(** C6: for a name that is not among the game's players, [set_winner]
    raises (the [ValueError] with the unknown-winner message) and the game
    it leaves is the game it was given: winner, net results, pot, history
    and every player's ledger are as before the call. *)
Theorem set_winner_unknown_name (str_repr : string → string) (g : Game)
    (winner_name : string) :
  winner_name ∉ map name (players g) →
  set_winner str_repr winner_name g
  = (g, Raise (ValueError ("Unknown winner name: " +:+ str_repr winner_name))).
Proof.
  intros Hnot. unfold set_winner. by rewrite decide_False.
Qed.

Lemma set_winner_unknown_name_witness :
  set_winner quote_repr "Carol" two_player_game
  = (two_player_game, Raise (ValueError "Unknown winner name: 'Carol'")).
Proof.
  apply (set_winner_unknown_name quote_repr two_player_game "Carol").
  apply (bool_decide_unpack _). vm_compute. exact I.
Defined.

Lemma dict_set_fresh {V : Type} (d : list (string * V)) (k : string) (v : V) :
  k ∉ d.*1 → dict_set d k v = d ++ [(k, v)].
Proof.
  induction d as [|[k' v'] d IH]; simpl; [done|].
  rewrite not_elem_of_cons. intros [Hne Hnot].
  rewrite decide_False by congruence. by rewrite IH.
Qed.

(** The net of one player, as the loop of [set_winner] computes it. *)
Lemma winner_nets_distinct (winner_name : string) (pot0 : Z) (ps : list Player) :
  NoDup (map name ps) →
  winner_nets winner_name pot0 ps
  = map (λ p, (name p, if decide (name p = winner_name)
                        then - total_bet p + pot0 else - total_bet p)) ps.
Proof.
  unfold winner_nets.
  set (f := λ p : Player, (name p, if decide (name p = winner_name)
                                    then - total_bet p + pot0 else - total_bet p)).
  enough (Hgen : ∀ acc : list (string * Z),
             NoDup (acc.*1 ++ map name ps) →
             foldl (λ (nets : list (string * Z)) (player : Player),
                      let net := - total_bet player in
                      let net := if decide (name player = winner_name)
                                 then net + pot0 else net in
                      dict_set nets (name player) net) acc ps
             = acc ++ map f ps).
  { intros Hnd. apply (Hgen []). done. }
  induction ps as [|p ps IH]; intros acc Hnd; simpl.
  - by rewrite app_nil_r.
  - cbv zeta. rewrite dict_set_fresh.
    + rewrite IH.
      * by rewrite <- app_assoc.
      * rewrite fmap_app. simpl. rewrite <- app_assoc. done.
    + simpl in Hnd. apply NoDup_app in Hnd as (_ & Hdisj & _).
      intros Hin. apply (Hdisj _ Hin). left.
Qed.

Lemma dict_get_map_distinct (f : Player → Z) (ps : list Player) (p : Player) :
  NoDup (map name ps) → p ∈ ps →
  dict_get (map (λ q, (name q, f q)) ps) (name p) = Some (f p).
Proof.
  induction ps as [|q ps IH]; simpl; [by intros _ ?%elem_of_nil|].
  intros [Hq Hnd]%list.NoDup_cons [->|Hin]%elem_of_cons.
  - by rewrite decide_True.
  - rewrite decide_False; [by apply IH|].
    intros Heq. apply Hq. rewrite Heq. apply list_elem_of_fmap. by exists p.
Qed.

Lemma sum_nets_distinct (winner_name : string) (pot0 : Z) (ps : list Player) :
  NoDup (map name ps) →
  sum (map (λ p, if decide (name p = winner_name)
                 then - total_bet p + pot0 else - total_bet p) ps)
  = (if decide (winner_name ∈ map name ps) then pot0 else 0)
    - sum (map total_bet ps).
Proof.
  induction ps as [|q ps IH]; cbn [map sum].
  - intros _. destruct (decide (winner_name ∈ [])) as [H%elem_of_nil|]; done.
  - intros [Hq Hnd]%list.NoDup_cons. rewrite (IH Hnd).
    destruct (decide (name q = winner_name)) as [<-|Hne].
    + destruct (decide (name q ∈ name q :: map name ps)) as [_|Hn];
        [|exfalso; apply Hn; left].
      destruct (decide (name q ∈ map name ps)); [done|]. lia.
    + destruct (decide (winner_name ∈ map name ps)) as [Hin|Hnin];
        destruct (decide (winner_name ∈ name q :: map name ps)) as [Hin'|Hnin'];
        try lia.
      * exfalso. apply Hnin'. by right.
      * apply elem_of_cons in Hin' as [?|?]; congruence.
Qed.

(** C1, as stated for every player list: with two players entered under
    one name the dict has a single entry for both, written last by the
    second.  In [same_name_game] the pot is 30, the first A has bet 10 and
    the second 20; after [set_winner("A")] the entry of A is [30 - 20], not
    the [30 - 10] of the first player. *)
Lemma set_winner_same_name_counterexample :
  let g := same_name_game in
  let p := mkPlayer "A" 100 90 [(1, 10)] [(1, "bet")] false in
  ∃ g', set_winner quote_repr "A" g = (g', Ok ())
        ∧ p ∈ players g
        ∧ pot g - total_bet p = 20
        ∧ dict_get (net_results g') (name p) = Some 10
        ∧ dict_get (net_results g') (name p) ≠ Some (pot g - total_bet p).
Proof.
  eexists. split; [reflexivity|].
  split; [vm_compute; constructor|].
  split; [reflexivity|]. split; [reflexivity|]. vm_compute. discriminate.
Qed.

(** C1, amended: for every game whose players have pairwise distinct names,
    [set_winner(name)] with a name among the players returns normally,
    stores the winner name, and stores as net results one entry per player,
    in player order: [pot - total_bet] for the winner and [-total_bet] for
    every other player, so that looking up any player's name gives that
    player's net; players, pot and history are not touched. *)
Theorem set_winner_net_results (str_repr : string → string) (g : Game)
    (winner_name : string) :
  NoDup (map name (players g)) →
  winner_name ∈ map name (players g) →
  ∃ g', set_winner str_repr winner_name g = (g', Ok ())
        ∧ winner g' = Some winner_name
        ∧ net_results g'
          = map (λ p, (name p, if decide (name p = winner_name)
                                then pot g - total_bet p else - total_bet p))
              (players g)
        ∧ (∀ p, p ∈ players g →
             dict_get (net_results g') (name p)
             = Some (if decide (name p = winner_name)
                     then pot g - total_bet p else - total_bet p))
        ∧ players g' = players g ∧ pot g' = pot g ∧ history g' = history g.
Proof.
  intros Hnd Hin. unfold set_winner. rewrite decide_True by done.
  eexists. split; [reflexivity|]. simpl.
  assert (Hnets : winner_nets winner_name (pot g) (players g)
                  = map (λ p, (name p, if decide (name p = winner_name)
                                        then pot g - total_bet p else - total_bet p))
                      (players g)).
  { rewrite winner_nets_distinct by done. apply map_ext_in. intros p _.
    destruct (decide _); f_equal; lia. }
  rewrite Hnets. repeat split; try done.
  intros p Hp.
  apply (dict_get_map_distinct
           (λ p, if decide (name p = winner_name)
                 then pot g - total_bet p else - total_bet p)); done.
Qed.

Lemma set_winner_net_results_witness :
  let g := (record_round ascii_strip ascii_lower decimal_int two_player_game
              ["bet"; "20"; "0"; "0"; "0"; "call"; "20"; "0"; "0"; "0"]).1.1 in
  pot g = 40
  ∧ ∃ g', set_winner quote_repr "A" g = (g', Ok ())
          ∧ net_results g' = [("A", 20); ("B", -20)].
Proof.
  intros g. split; [reflexivity|].
  assert (Hnd : NoDup (map name (players g))).
  { apply (bool_decide_unpack _). vm_compute. exact I. }
  assert (Hin : "A" ∈ map name (players g)).
  { apply (bool_decide_unpack _). vm_compute. exact I. }
  destruct (set_winner_net_results quote_repr g "A" Hnd Hin)
    as (g' & Hset & _ & Hnets & _).
  exists g'. split; [exact Hset|]. rewrite Hnets. reflexivity.
Defined.

(** C3, as stated for every reachable game: [same_name_game] is reached
    from a fresh game by one recorded round, [set_winner("A")] succeeds on
    it, and the net results are the single entry [A: +10], whose sum is 10. *)
Lemma net_results_sum_counterexample :
  same_name_game
  = run_operations ascii_strip ascii_lower decimal_int quote_repr
      (Game_init (fresh_players [("A", 100); ("A", 100)]) "A" "A" "A" 1
         [1; 5; 25; 100])
      [RecordRound ["bet"; "10"; "0"; "0"; "0"; "bet"; "20"; "0"; "0"; "0"]]
  ∧ ∃ g', set_winner quote_repr "A" same_name_game = (g', Ok ())
          ∧ net_results g' = [("A", 10)]
          ∧ sum (map snd (net_results g')) ≠ 0.
Proof.
  split; [reflexivity|]. eexists. split; [reflexivity|].
  split; [reflexivity|]. vm_compute. discriminate.
Qed.

Lemma fresh_players_total_bet (player_configs : list (string * Z)) :
  sum (map total_bet (fresh_players player_configs)) = 0
  ∧ map name (fresh_players player_configs) = map fst player_configs.
Proof.
  induction player_configs as [|[n s] cs [IH1 IH2]]; [done|].
  unfold fresh_players in *. cbn [map sum]. split.
  - rewrite IH1. reflexivity.
  - rewrite IH2. reflexivity.
Qed.

(** C3, amended: for a fresh game whose players have pairwise distinct
    names, after any sequence of operations (recorded rounds on any input,
    earlier [set_winner] calls), whenever [set_winner] returns normally the
    values of the net results it stores sum to exactly zero. *)
Theorem net_results_sum_zero (str_strip str_lower : string → string)
    (int_of_str : string → option Z) (str_repr : string → string)
    (player_configs : list (string * Z)) (dealer0 big_blind0 small_blind0 : string)
    (base_unit0 : Z) (chip_denoms0 : list Z) (ops : list operation)
    (winner_name : string) (g' : Game) :
  NoDup (map fst player_configs) →
  let g := run_operations str_strip str_lower int_of_str str_repr
             (Game_init (fresh_players player_configs) dealer0 big_blind0
                small_blind0 base_unit0 chip_denoms0) ops in
  set_winner str_repr winner_name g = (g', Ok ()) →
  sum (map snd (net_results g')) = 0.
Proof.
  intros Hnd g Hset.
  destruct (fresh_players_total_bet player_configs) as [Hbets0 Hnames0].
  assert (Hinv : pot_is_bets_sum g
                 ∧ map name (players g) = map fst player_configs).
  { apply (run_operations_stable str_strip str_lower int_of_str str_repr
             (λ g, pot_is_bets_sum g
                   ∧ map name (players g) = map fst player_configs)).
    - apply round_stable_and;
        [apply pot_is_bets_sum_stable | apply names_stable].
    - intros w g1 [H1 H2]. unfold pot_is_bets_sum in *.
      destruct (set_winner_frame str_repr w g1) as (-> & -> & _). done.
    - split; [|exact Hnames0]. unfold pot_is_bets_sum. simpl.
      by rewrite Hbets0. }
  destruct Hinv as [Hpot Hnames]. rewrite <- Hnames in Hnd.
  unfold set_winner in Hset.
  destruct (decide (winner_name ∈ map name (players g))) as [Hin|]; [|done].
  injection Hset as <-. simpl.
  rewrite winner_nets_distinct by done. rewrite map_map. simpl.
  rewrite sum_nets_distinct by done. rewrite decide_True by done.
  unfold pot_is_bets_sum in Hpot. lia.
Qed.

Lemma net_results_sum_zero_witness :
  ∃ g', set_winner quote_repr "A"
          (run_operations ascii_strip ascii_lower decimal_int quote_repr
             two_player_game
             [RecordRound ["bet"; "20"; "0"; "0"; "0"; "call"; "20"; "0"; "0"; "0"]])
        = (g', Ok ())
        ∧ sum (map snd (net_results g')) = 0.
Proof.
  eexists. split; [reflexivity|].
  apply (net_results_sum_zero ascii_strip ascii_lower decimal_int quote_repr
           [("A", 100); ("B", 100)] "A" "B" "A" 1 [1; 5; 25; 100]
           [RecordRound ["bet"; "20"; "0"; "0"; "0"; "call"; "20"; "0"; "0"; "0"]]
           "A").
  - apply (bool_decide_unpack _). vm_compute. exact I.
  - reflexivity.
Defined.

(** ** The soft violation *)

Lemma commit_override_player (round_no : Z) (k : nat) (action : string)
    (amount : Z) (g : Game) (player : Player) :
  players g !! k = Some player →
  let g' := commit round_no k action amount (set_override k g) in
  pot g' = pot g + amount
  ∧ history g'
    = history g ++ [mkEntry round_no (name player) action amount (pot g + amount)]
  ∧ ∃ player', players g' !! k = Some player'
      ∧ went_negative_override player' = true
      ∧ bets player' = bets player ++ [(round_no, amount)]
      ∧ stack player' = stack player - amount.
Proof.
  intros Hk. pose proof (lookup_lt_Some _ _ _ Hk) as Hlt.
  unfold commit, set_override. rewrite Hk. simpl.
  rewrite list_lookup_insert_eq by done. simpl.
  repeat split. eexists. rewrite list_lookup_insert_eq by (by rewrite length_insert).
  done.
Qed.

(** C8: in round recording, take the turn of the player at position [k]
    with a betting action, and chip lines that convert to [amount].  When
    the projected total bet does not exceed the starting stack, the pass of
    the betting loop breaks at once without touching the game and the turn
    commits the amount, the override flag being the one the player had.
    When it exceeds the starting stack, nothing is committed before the
    answer: when the warning cannot be written (an integer of more than
    4300 digits) the call raises before the question is asked and the game
    is untouched; with no line left the call raises and the game is
    untouched; with an answer other than [y] the pass continues with the
    game untouched, and the turn is the turn replayed from the same game on
    the lines after that attempt; with the answer [y] the flag is set, the
    loop breaks and the turn commits the amount (ledger, pot and history
    entry).  A turn that commits ends with the line that reports the amount
    and the pot, whose evaluation is the result of the turn. *)
Theorem soft_violation_needs_confirmation (str_strip str_lower : string → string)
    (int_of_str : string → option Z) (round_no : Z) (k : nat) (g : Game)
    (player : Player) (line : string) (inp1 inp2 : list string)
    (total_units : Z) :
  players g !! k = Some player →
  is_betting (str_lower (str_strip line)) = true →
  read_denoms str_strip int_of_str (chip_denoms g) 0 inp1 = (Ok total_units, inp2) →
  let action := str_lower (str_strip line) in
  let amount := total_units * base_unit g in
  let attempt := bet_attempt str_strip str_lower int_of_str k g inp1 in
  let turn := record_turn str_strip str_lower int_of_str round_no k g in
  let warning := format_ints [total_bet player + amount; starting_stack player] in
  let recorded := format_ints [amount; pot g + amount] in
  (total_bet player + amount ≤ starting_stack player →
     attempt = (g, Break amount, inp2)
     ∧ turn (line :: inp1) = (commit round_no k action amount g, recorded, inp2)
     ∧ players (commit round_no k action amount g) !! k
       = Some (record_action player round_no action amount)
     ∧ went_negative_override (record_action player round_no action amount)
       = went_negative_override player)
  ∧ (starting_stack player < total_bet player + amount →
     (warning = Raise int_str_error →
        attempt = (g, Raised int_str_error, inp2)
        ∧ turn (line :: inp1) = (g, Raise int_str_error, inp2))
     ∧ (warning = Ok () →
        (inp2 = [] →
           attempt = (g, Raised EOFError, [])
           ∧ turn (line :: inp1) = (g, Raise EOFError, []))
        ∧ ∀ (answer : string) (inp3 : list string),
            inp2 = answer :: inp3 →
            (str_lower (str_strip answer) ≠ "y" →
               attempt = (g, Continue, inp3)
               ∧ turn (line :: inp1) = turn (line :: inp3))
            ∧ (str_lower (str_strip answer) = "y" →
               attempt = (set_override k g, Break amount, inp3)
               ∧ turn (line :: inp1)
                 = (commit round_no k action amount (set_override k g),
                    recorded, inp3)
               ∧ pot (commit round_no k action amount (set_override k g))
                 = pot g + amount
               ∧ history (commit round_no k action amount (set_override k g))
                 = history g
                   ++ [mkEntry round_no (name player) action amount (pot g + amount)]
               ∧ ∃ player',
                   players (commit round_no k action amount (set_override k g)) !! k
                   = Some player'
                   ∧ went_negative_override player' = true
                   ∧ bets player' = bets player ++ [(round_no, amount)]
                   ∧ stack player' = stack player - amount))).
Proof.
  intros Hk Hbet Hread action amount attempt turn warning recorded.
  pose proof (read_denoms_formats _ _ _ _ _ _ _ Hread) as Hdenoms.
  assert (Hturn : ∀ inp, turn (line :: inp)
            = let '(g1, r, rest) :=
                bet_loop str_strip str_lower int_of_str (S (length inp)) k g inp in
              match r with
              | Ok a =>
                  (commit round_no k action a g1,
                   format_ints [a; pot (commit round_no k action a g1)], rest)
              | Raise e => (g1, Raise e, rest)
              end).
  { intros inp. unfold turn, record_turn. fold action. unfold action at 1.
    rewrite Hbet. reflexivity. }
  assert (Hpot : pot (commit round_no k action amount g) = pot g + amount).
  { by destruct (commit_pot_history round_no k action amount g player Hk) as [-> _]. }
  split.
  - intros Hle.
    assert (Ha : attempt = (g, Break amount, inp2)).
    { unfold attempt, bet_attempt. rewrite Hdenoms, Hread, Hk.
      fold amount. rewrite (proj2 (Z.ltb_ge _ _)) by lia. reflexivity. }
    split; [exact Ha|]. split.
    + rewrite Hturn, bet_loop_unfold. fold attempt. rewrite Ha, Hpot. reflexivity.
    + split; [|reflexivity].
      destruct (commit_pot_history round_no k action amount g player Hk)
        as (_ & _ & ->).
      apply list_lookup_insert_eq. by eapply lookup_lt_Some.
  - intros Hgt.
    assert (Hltb : (starting_stack player <? total_bet player + amount) = true)
      by (apply Z.ltb_lt; lia).
    split.
    + intros Hwarn.
      assert (Ha : attempt = (g, Raised int_str_error, inp2)).
      { unfold attempt, bet_attempt. rewrite Hdenoms, Hread, Hk. fold amount.
        rewrite Hltb. fold warning. rewrite Hwarn. reflexivity. }
      split; [exact Ha|].
      rewrite Hturn, bet_loop_unfold. fold attempt. rewrite Ha. reflexivity.
    + intros Hwarn. split.
      * intros ->.
        assert (Ha : attempt = (g, Raised EOFError, [])).
        { unfold attempt, bet_attempt. rewrite Hdenoms, Hread, Hk. fold amount.
          rewrite Hltb. fold warning. rewrite Hwarn. reflexivity. }
        split; [exact Ha|].
        rewrite Hturn, bet_loop_unfold. fold attempt. rewrite Ha. reflexivity.
      * intros answer inp3 ->. split.
        -- intros Hno.
           assert (Ha : attempt = (g, Continue, inp3)).
           { unfold attempt, bet_attempt. rewrite Hdenoms, Hread, Hk. fold amount.
             rewrite Hltb. fold warning. rewrite Hwarn.
             rewrite decide_False by done. reflexivity. }
           split; [exact Ha|].
           rewrite !Hturn. rewrite (bet_loop_unfold _ _ _ k g inp1).
           fold attempt. rewrite Ha. reflexivity.
        -- intros Hyes.
           assert (Ha : attempt = (set_override k g, Break amount, inp3)).
           { unfold attempt, bet_attempt. rewrite Hdenoms, Hread, Hk. fold amount.
             rewrite Hltb. fold warning. rewrite Hwarn.
             rewrite decide_True by done. reflexivity. }
           split; [exact Ha|].
           destruct (commit_override_player round_no k action amount g player Hk)
             as (Hp & Hh & Hpl).
           split.
           { rewrite Hturn, bet_loop_unfold. fold attempt. rewrite Ha, Hp.
             reflexivity. }
           split; [exact Hp|]. split; [exact Hh|]. exact Hpl.
Qed.

Lemma soft_violation_needs_confirmation_witness :
  let turn := record_turn ascii_strip ascii_lower decimal_int 1 0 two_player_game in
  turn ["bet"; "20"; "0"; "0"; "1"; "n"; "20"; "0"; "0"; "0"]
  = turn ["bet"; "20"; "0"; "0"; "0"].
Proof.
  intros turn.
  assert (Hk : players two_player_game !! 0%nat = Some (Player_init "A" 100))
    by reflexivity.
  assert (Hbet : is_betting (ascii_lower (ascii_strip "bet")) = true)
    by (vm_compute; reflexivity).
  assert (Hread : read_denoms ascii_strip decimal_int (chip_denoms two_player_game) 0
                    ["20"; "0"; "0"; "1"; "n"; "20"; "0"; "0"; "0"]
                  = (Ok 120, ["n"; "20"; "0"; "0"; "0"]))
    by (vm_compute; reflexivity).
  destruct (soft_violation_needs_confirmation ascii_strip ascii_lower decimal_int
              1 0%nat two_player_game (Player_init "A" 100) "bet" _ _ 120
              Hk Hbet Hread) as [_ Hover].
  destruct Hover as [_ Hasked]; [vm_compute; reflexivity|].
  destruct Hasked as [_ Hanswer]; [vm_compute; reflexivity|].
  destruct (Hanswer "n" ["20"; "0"; "0"; "0"] eq_refl) as [Hno _].
  apply Hno. vm_compute. discriminate.
Defined.

(** ** The chip mapping *)

Lemma round_to_double_exact (n : Z) :
  0 ≤ n < 2 ^ 53 → round_to_double n = n.
Proof.
  intros [H0 H53]. unfold round_to_double.
  assert (Hlog : Z.log2 n < 53).
  { destruct (Z.eq_dec n 0) as [->|]; [reflexivity|].
    apply Z.log2_lt_pow2; lia. }
  cbv zeta. rewrite (proj2 (Z.leb_le _ _)) by lia. reflexivity.
Qed.

Lemma float_of_int_exact (n : Z) :
  0 ≤ n < 2 ^ 53 → float_of_int n = Ok n.
Proof.
  intros Hn. unfold float_of_int. rewrite (Z.abs_eq n) by lia.
  rewrite round_to_double_exact by done.
  assert (Hx : Z.sgn n * n = n).
  { destruct (Z.eq_dec n 0) as [->|]; [reflexivity|].
    rewrite Z.sgn_pos by lia. lia. }
  cbv zeta. rewrite Hx, Z.abs_eq by lia.
  assert (2 ^ 53 < 2 ^ 1024) by (apply Z.pow_lt_mono_r; lia).
  rewrite (proj2 (Z.leb_gt _ _)) by lia. reflexivity.
Qed.

(** C7, as stated for every positive integer: the product with [0.25] is
    a floating-point one.  [18014398509481999] is not a double; it is
    rounded up to [18014398509482000], a quarter of which is
    [4503599627370500], so the code's base unit is [45035996273705] where
    the exact formula gives [45035996273704]. *)
Lemma chip_mapping_large_counterexample :
  let min_stack := 18014398509481999 in
  0 < min_stack
  ∧ chip_mapping min_stack = Ok (45035996273705, [1; 5; 25; 100])
  ∧ base_unit_formula min_stack = 45035996273704
  ∧ chip_mapping min_stack ≠ Ok (base_unit_formula min_stack, [1; 5; 25; 100]).
Proof.
  cbv zeta. split; [lia|]. split; [vm_compute; reflexivity|].
  split; [vm_compute; reflexivity|]. vm_compute. discriminate.
Qed.

(** C7, amended: for every positive integer [min_stack] below [2^53] (the
    range in which every integer is a double), the base unit chosen at
    setup is [floor(floor(min_stack*0.25)/100)] when that is at least 1 and
    otherwise [max(1, floor(min_stack/100))], the fallback being taken
    exactly when the first value is below 1; and for every [min_stack] for
    which the mapping is computed at all, the base unit is at least 1 and
    the denominations are exactly [[1, 5, 25, 100]]. *)
Theorem chip_mapping_base_unit (min_stack : Z) :
  (0 < min_stack < 2 ^ 53 →
     chip_mapping min_stack = Ok (base_unit_formula min_stack, [1; 5; 25; 100])
     ∧ (1 ≤ (min_stack / 4) / 100 →
          base_unit_formula min_stack = (min_stack / 4) / 100)
     ∧ ((min_stack / 4) / 100 < 1 →
          base_unit_formula min_stack = Z.max 1 (min_stack / 100)))
  ∧ (∀ (unit0 : Z) (denoms : list Z),
       chip_mapping min_stack = Ok (unit0, denoms) →
       1 ≤ unit0 ∧ denoms = [1; 5; 25; 100]).
Proof.
  split.
  - intros Hrange. unfold chip_mapping, base_unit_formula.
    rewrite float_of_int_exact by lia.
    rewrite Z.quot_div_nonneg by lia. cbv zeta.
    destruct (Z.ltb_spec (min_stack / 4 / 100) 1) as [Hlt|Hge].
    + rewrite (proj2 (Z.leb_gt _ _)) by lia. repeat split; try done; lia.
    + rewrite (proj2 (Z.leb_le _ _)) by lia. repeat split; try done; lia.
  - intros unit0 denoms. unfold chip_mapping.
    destruct (float_of_int min_stack) as [x|e]; [|done]. cbv zeta.
    destruct (Z.ltb_spec (Z.quot x 4 / 100) 1) as [Hlt|Hge];
      intros [= <- <-]; split; try done; lia.
Qed.

Lemma chip_mapping_base_unit_witness :
  chip_mapping 1000 = Ok (2, [1; 5; 25; 100])
  ∧ chip_mapping 399 = Ok (3, [1; 5; 25; 100]).
Proof.
  split.
  - destruct (chip_mapping_base_unit 1000) as [H _].
    destruct H as (-> & _); [vm_compute; split; reflexivity|]. reflexivity.
  - destruct (chip_mapping_base_unit 399) as [H _].
    destruct H as (-> & _); [vm_compute; split; reflexivity|]. reflexivity.
Defined.

(** * Further properties *)

(** ** The settlement sweep on arbitrary totals *)

Lemma sweep_total (fuel : nat) :
  ∀ ds cs : list (string * Z),
    (length ds + length cs ≤ fuel)%nat →
    positive_entries ds → positive_entries cs →
    total_transferred (sweep fuel ds cs)
    = Z.min (sum (map snd ds)) (sum (map snd cs)).
Proof.
  induction fuel as [|fuel IH]; intros ds cs Hfuel Hds Hcs.
  - destruct ds, cs; simpl in Hfuel; try lia. reflexivity.
  - pose proof (positive_entries_sum _ Hds) as [Hd0 _].
    pose proof (positive_entries_sum _ Hcs) as [Hc0 _].
    destruct ds as [|[dn da] ds]; [unfold total_transferred; simpl in *; lia|].
    destruct cs as [|[cn ca] cs]; [unfold total_transferred; simpl in *; lia|].
    inversion Hds as [|? ? Hda Hds']; subst.
    inversion Hcs as [|? ? Hca Hcs']; subst.
    simpl in Hda, Hca, Hfuel. cbn [sweep].
    set (m := Z.min da ca).
    assert (Hm : 0 < m ∧ m ≤ da ∧ m ≤ ca ∧ (da - m = 0 ∨ ca - m = 0))
      by (unfold m; lia).
    destruct (length_reduce_head dn (da - m) ds) as [Hld Hld0].
    destruct (length_reduce_head cn (ca - m) cs) as [Hlc Hlc0].
    unfold total_transferred in *. cbn [map sum tr_amount].
    rewrite IH.
    + rewrite !sum_reduce_head. simpl. lia.
    + destruct Hm as (_ & _ & _ & [Hz|Hz]);
        [specialize (Hld0 Hz) | specialize (Hlc0 Hz)]; lia.
    + apply reduce_head_positive; [lia | done].
    + apply reduce_head_positive; [lia | done].
Qed.

(** X1: for every list of net totals, whether or not it sums to zero, the
    amounts of the transfers add up to the smaller of the total debt and the
    total credit: the smaller side is settled in full and nothing more is
    moved. *)
Theorem transfers_total_is_smaller_side (net_totals : list (string * Z)) :
  total_transferred (calculate_settlements net_totals)
  = Z.min (debtor_magnitude net_totals) (creditor_magnitude net_totals).
Proof.
  rewrite calculate_settlements_sweep. apply sweep_total.
  - lia.
  - apply debtors_of_positive.
  - apply creditors_of_positive.
Qed.

Lemma sweep_paid_received (fuel : nat) :
  ∀ (ds cs : list (string * Z)) (player : string),
    positive_entries ds → positive_entries cs →
    0 ≤ paid_by (sweep fuel ds cs) player ≤ amount_of ds player
    ∧ 0 ≤ received_by (sweep fuel ds cs) player ≤ amount_of cs player.
Proof.
  assert (Hnonneg : ∀ l player, positive_entries l → 0 ≤ amount_of l player).
  { intros l player. induction 1 as [|[n a] l Ha _ IH]; simpl in *; [lia|].
    destruct (decide (n = player)); lia. }
  induction fuel as [|fuel IH]; intros ds cs player Hds Hcs;
    pose proof (Hnonneg ds player Hds) as Hd0;
    pose proof (Hnonneg cs player Hcs) as Hc0.
  - simpl. lia.
  - destruct ds as [|[dn da] ds]; [simpl in *; lia|].
    destruct cs as [|[cn ca] cs]; [simpl in *; lia|].
    inversion Hds as [|? ? Hda Hds']; subst.
    inversion Hcs as [|? ? Hca Hcs']; subst.
    simpl in Hda, Hca. cbn [sweep paid_by received_by amount_of tr_from tr_to tr_amount].
    set (m := Z.min da ca).
    assert (Hm : 0 < m ∧ m ≤ da ∧ m ≤ ca) by (unfold m; lia).
    destruct (IH (reduce_head dn (da - m) ds) (reduce_head cn (ca - m) cs) player)
      as [Hp Hr].
    + apply reduce_head_positive; [lia | done].
    + apply reduce_head_positive; [lia | done].
    + rewrite !amount_of_reduce_head in *.
      destruct (decide (dn = player)), (decide (cn = player)); lia.
Qed.

Lemma apply_payment_fold (ts : list Transfer) (bal : string → Z) (player : string) :
  foldl apply_payment bal ts player
  = bal player + paid_by ts player - received_by ts player.
Proof.
  revert bal. induction ts as [|t ts IH]; intros bal; simpl; [lia|].
  rewrite IH. unfold apply_payment.
  destruct (decide (player = tr_from t)), (decide (tr_from t = player)),
    (decide (player = tr_to t)), (decide (tr_to t = player)); try congruence; lia.
Qed.

Lemma amount_of_debtors (net_totals : list (string * Z)) (player : string) :
  NoDup net_totals.*1 →
  amount_of (debtors_of net_totals) player = Z.max 0 (- net_of net_totals player)
  ∧ amount_of (creditors_of net_totals) player = Z.max 0 (net_of net_totals player).
Proof.
  unfold net_of. induction net_totals as [|[k v] rest IH]; [done|].
  rewrite fmap_cons. intros [Hk Hnd]%NoDup_cons. simpl in Hk. simpl dict_get.
  rewrite debtors_of_cons, creditors_of_cons.
  destruct (decide (k = player)) as [->|Hne].
  - assert (Hc : amount_of (creditors_of rest) player = 0).
    { apply amount_of_absent. intros Hin. by apply creditors_of_keys in Hin. }
    assert (Hd : amount_of (debtors_of rest) player = 0).
    { apply amount_of_absent. intros Hin. by apply debtors_of_keys in Hin. }
    destruct (decide (v < 0)), (decide (0 < v)); simpl;
      rewrite ?decide_True by done; simpl; lia.
  - destruct (IH Hnd) as [IHd IHc].
    destruct (decide (v < 0)), (decide (0 < v)); simpl;
      rewrite ?decide_False by done; lia.
Qed.

(** X2: for every input mapping and every player, the transfers never ask
    a player to pay more than the player owes nor hand a player more than
    the player is owed: a player with a non-negative net pays nothing, a
    player with a non-positive net receives nothing, and after the payments
    the player's balance lies between the net total and zero. *)
Theorem transfers_never_oversettle (net_totals : list (string * Z))
    (player : string) :
  NoDup net_totals.*1 →
  let ts := calculate_settlements net_totals in
  let net := net_of net_totals player in
  let final := foldl apply_payment (net_of net_totals) ts player in
  0 ≤ paid_by ts player ≤ Z.max 0 (- net)
  ∧ 0 ≤ received_by ts player ≤ Z.max 0 net
  ∧ final = net + paid_by ts player - received_by ts player
  ∧ Z.min 0 net ≤ final ≤ Z.max 0 net.
Proof.
  intros Hnd ts net final.
  destruct (amount_of_debtors net_totals player Hnd) as [Hd Hc].
  pose proof (sweep_paid_received
    (length (debtors_of net_totals) + length (creditors_of net_totals))
    _ _ player (debtors_of_positive net_totals) (creditors_of_positive net_totals))
    as [Hp Hr].
  rewrite <- calculate_settlements_sweep in Hp, Hr. fold ts in Hp, Hr.
  rewrite Hd in Hp. rewrite Hc in Hr. fold net in Hp, Hr.
  assert (Hf : final = net + paid_by ts player - received_by ts player)
    by apply apply_payment_fold.
  repeat split; lia.
Qed.

Lemma transfers_never_oversettle_witness :
  let net_totals := [("A", 10); ("B", -30); ("C", 0); ("D", 5)] in
  paid_by (calculate_settlements net_totals) "B" ≤ 30
  ∧ received_by (calculate_settlements net_totals) "B" ≤ 0.
Proof.
  intros net_totals.
  assert (Hnd : NoDup net_totals.*1) by (apply (bool_decide_unpack _); vm_compute; exact I).
  destruct (transfers_never_oversettle net_totals "B" Hnd) as (Hp & Hr & _).
  split; [apply Hp | apply Hr].
Defined.

Lemma sweep_length (fuel : nat) :
  ∀ ds cs : list (string * Z),
    (length (sweep fuel ds cs) ≤ Nat.pred (length ds + length cs))%nat.
Proof.
  induction fuel as [|fuel IH]; intros ds cs; [simpl; lia|].
  destruct ds as [|[dn da] ds]; [simpl; lia|].
  destruct cs as [|[cn ca] cs]; [simpl; lia|].
  cbn [sweep]. set (m := Z.min da ca).
  assert (Hm : da - m = 0 ∨ ca - m = 0) by (unfold m; lia).
  destruct (length_reduce_head dn (da - m) ds) as [Hld Hld0].
  destruct (length_reduce_head cn (ca - m) cs) as [Hlc Hlc0].
  specialize (IH (reduce_head dn (da - m) ds) (reduce_head cn (ca - m) cs)).
  assert (Hsum : (length (reduce_head dn (da - m) ds)
                  + length (reduce_head cn (ca - m) cs)
                  ≤ S (length ds + length cs))%nat).
  { destruct Hm as [Hz|Hz]; [specialize (Hld0 Hz) | specialize (Hlc0 Hz)]; lia. }
  destruct (reduce_head dn (da - m) ds) as [|d' ds''] eqn:Hd.
  { rewrite sweep_nil_l. simpl. lia. }
  destruct (reduce_head cn (ca - m) cs) as [|c' cs''] eqn:Hc.
  { rewrite sweep_nil_r. simpl. lia. }
  simpl in *. lia.
Qed.

(** X3: the number of transfers is at most one less than the number of
    players with a non-zero net total (and zero when there is none), so at
    most one less than the number of entries of the mapping. *)
Theorem transfers_count_bound (net_totals : list (string * Z)) :
  (length (calculate_settlements net_totals)
   ≤ Nat.pred (length (debtors_of net_totals) + length (creditors_of net_totals)))%nat
  ∧ (length (debtors_of net_totals) + length (creditors_of net_totals)
     = length (filter (λ x : string * Z, x.2 ≠ 0%Z) net_totals))%nat
  ∧ (length (calculate_settlements net_totals) ≤ Nat.pred (length net_totals))%nat.
Proof.
  assert (Hcount : (length (debtors_of net_totals) + length (creditors_of net_totals)
                    = length (filter (λ x : string * Z, x.2 ≠ 0%Z) net_totals))%nat).
  { induction net_totals as [|[k v] rest IH]; [done|].
    rewrite debtors_of_cons, creditors_of_cons, filter_cons. simpl.
    destruct (decide (v < 0)), (decide (0 < v)), (decide (v ≠ 0)); simpl; lia. }
  pose proof (length_filter (λ x : string * Z, x.2 ≠ 0%Z) net_totals) as Hle.
  pose proof (sweep_length
    (length (debtors_of net_totals) + length (creditors_of net_totals))
    (debtors_of net_totals) (creditors_of net_totals)) as Hlen.
  rewrite <- calculate_settlements_sweep in Hlen.
  repeat split; [done | done | lia].
Qed.

Lemma debtors_of_nil (net_totals : list (string * Z)) :
  debtors_of net_totals = []
  ↔ Forall (λ x : string * Z, 0 ≤ x.2) net_totals.
Proof.
  induction net_totals as [|[k v] rest IH]; [done|].
  rewrite debtors_of_cons, Forall_cons. simpl.
  destruct (decide (v < 0)).
  - split; [discriminate | intros [? _]; lia].
  - rewrite IH. split; [intros ?; split; [lia | done] | tauto].
Qed.

Lemma creditors_of_nil (net_totals : list (string * Z)) :
  creditors_of net_totals = []
  ↔ Forall (λ x : string * Z, x.2 ≤ 0) net_totals.
Proof.
  induction net_totals as [|[k v] rest IH]; [done|].
  rewrite creditors_of_cons, Forall_cons. simpl.
  destruct (decide (0 < v)).
  - split; [discriminate | intros [? _]; lia].
  - rewrite IH. split; [intros ?; split; [lia | done] | tauto].
Qed.

(** X4: no transfer is produced exactly when one side is missing, that is
    when no net total is negative or no net total is positive (in
    particular for an empty mapping and for one with all totals zero). *)
Theorem no_transfer_iff_one_sided (net_totals : list (string * Z)) :
  calculate_settlements net_totals = []
  ↔ Forall (λ x : string * Z, 0 ≤ x.2) net_totals
    ∨ Forall (λ x : string * Z, x.2 ≤ 0) net_totals.
Proof.
  rewrite calculate_settlements_sweep.
  rewrite <- debtors_of_nil, <- creditors_of_nil.
  destruct (debtors_of net_totals) as [|[dn da] ds].
  { rewrite sweep_nil_l. tauto. }
  destruct (creditors_of net_totals) as [|[cn ca] cs].
  { rewrite sweep_nil_r. tauto. }
  simpl. split; [discriminate | intros [?|?]; discriminate].
Qed.

(** X5: for every input mapping, no transfer has the same player as debtor
    and as creditor. *)
Theorem no_self_transfer (net_totals : list (string * Z)) (t : Transfer) :
  NoDup net_totals.*1 →
  t ∈ calculate_settlements net_totals →
  tr_from t ≠ tr_to t.
Proof.
  intros Hnd Ht. rewrite calculate_settlements_sweep in Ht.
  pose proof (sweep_transfers
    (length (debtors_of net_totals) + length (creditors_of net_totals))
    _ _ (debtors_of_positive net_totals) (creditors_of_positive net_totals)) as Hall.
  rewrite Forall_forall in Hall. destruct (Hall t Ht) as (_ & Hf & Hc).
  apply debtors_of_elem in Hf as [nf [Hf Hnf]].
  apply creditors_of_elem in Hc as [nc [Hc Hnc]].
  intros Heq. rewrite Heq in Hf.
  pose proof (dict_items_functional _ _ _ _ Hnd Hf Hc). lia.
Qed.

Lemma no_self_transfer_witness :
  tr_from (mkTransfer "B" "A" 10) ≠ tr_to (mkTransfer "B" "A" 10).
Proof.
  apply (no_self_transfer [("A", 10); ("B", -10)]).
  - apply (bool_decide_unpack _). vm_compute. exact I.
  - apply (bool_decide_unpack _). vm_compute. exact I.
Defined.

(** ** Dicts *)

Lemma dict_get_set {V : Type} (d : list (string * V)) (k k' : string) (v : V) :
  dict_get (dict_set d k v) k' = if decide (k = k') then Some v else dict_get d k'.
Proof.
  induction d as [|[k0 v0] d IH]; simpl.
  - destruct (decide (k = k')); done.
  - destruct (decide (k0 = k)) as [->|Hne]; simpl.
    + destruct (decide (k = k')); done.
    + rewrite IH. destruct (decide (k0 = k')) as [->|]; [|done].
      by rewrite decide_False.
Qed.

Lemma dict_set_keys {V : Type} (d : list (string * V)) (k k' : string) (v : V) :
  k' ∈ (dict_set d k v).*1 ↔ k' = k ∨ k' ∈ d.*1.
Proof.
  induction d as [|[k0 v0] d IH]; simpl.
  - rewrite list_elem_of_singleton. split; [by left | intros [?|H]; [done|]].
    by apply elem_of_nil in H.
  - destruct (decide (k0 = k)) as [->|Hne]; simpl.
    + rewrite !elem_of_cons. tauto.
    + rewrite !elem_of_cons, IH. tauto.
Qed.

Lemma dict_set_nodup {V : Type} (d : list (string * V)) (k : string) (v : V) :
  NoDup d.*1 → NoDup (dict_set d k v).*1.
Proof.
  induction d as [|[k0 v0] d IH]; simpl.
  - intros _. apply NoDup_singleton.
  - intros [Hk0 Hnd]%NoDup_cons.
    destruct (decide (k0 = k)) as [->|Hne]; simpl.
    + by apply NoDup_cons.
    + apply NoDup_cons. split; [|by apply IH].
      rewrite dict_set_keys. intros [?|?]; [congruence | done].
Qed.

Lemma sum_dict_set (d : list (string * Z)) (k : string) (v : Z) :
  sum (map snd (dict_set d k v))
  = sum (map snd d) - default 0 (dict_get d k) + v.
Proof.
  induction d as [|[k0 v0] d IH]; simpl; [lia|].
  destruct (decide (k0 = k)) as [->|Hne]; simpl; [lia|].
  rewrite IH. lia.
Qed.

Lemma amount_of_net_of (d : list (string * Z)) (player : string) :
  NoDup d.*1 → amount_of d player = net_of d player.
Proof.
  unfold net_of. induction d as [|[k v] d IH]; [done|].
  rewrite fmap_cons. intros [Hk Hnd]%NoDup_cons. simpl in *.
  destruct (decide (k = player)) as [->|Hne].
  - rewrite amount_of_absent by done. simpl. lia.
  - rewrite IH by done. lia.
Qed.

(** ** Aggregating the games of a session *)

Lemma add_net_fold (items net_totals : list (string * Z)) :
  NoDup net_totals.*1 →
  NoDup (foldl add_net net_totals items).*1
  ∧ (∀ player, net_of (foldl add_net net_totals items) player
               = net_of net_totals player + amount_of items player)
  ∧ sum (map snd (foldl add_net net_totals items))
    = sum (map snd net_totals) + sum (map snd items)
  ∧ (∀ player, player ∈ (foldl add_net net_totals items).*1
               ↔ player ∈ net_totals.*1 ∨ player ∈ items.*1).
Proof.
  revert net_totals. induction items as [|[k v] items IH]; intros net_totals Hnd.
  - simpl. split; [done|]. split; [intros player; lia|]. split; [lia|].
    intros player. split; [by left|].
    intros [?|H]; [done | by apply elem_of_nil in H].
  - simpl foldl.
    destruct (IH (add_net net_totals (k, v))) as (H1 & H2 & H3 & H4).
    { by apply dict_set_nodup. }
    split; [done|]. split; [|split].
    + intros player. rewrite H2. unfold net_of, add_net. simpl.
      rewrite dict_get_set. destruct (decide (k = player)) as [->|]; simpl; lia.
    + rewrite H3. unfold add_net. simpl. rewrite sum_dict_set. lia.
    + intros player. rewrite H4. unfold add_net. simpl.
      rewrite dict_set_keys, elem_of_cons. tauto.
Qed.

Lemma aggregate_fold (games : list Game) (net_totals : list (string * Z)) :
  NoDup net_totals.*1 →
  let total := foldl (λ (nt : list (string * Z)) (game : Game),
                        foldl add_net nt (net_results game)) net_totals games in
  NoDup total.*1
  ∧ (∀ player, net_of total player
               = net_of net_totals player
                 + sum (map (λ g, amount_of (net_results g) player) games))
  ∧ sum (map snd total)
    = sum (map snd net_totals)
      + sum (map (λ g, sum (map snd (net_results g))) games)
  ∧ (∀ player, player ∈ total.*1
               ↔ player ∈ net_totals.*1
                 ∨ ∃ g, g ∈ games ∧ player ∈ (net_results g).*1).
Proof.
  revert net_totals. induction games as [|g games IH]; intros net_totals Hnd.
  - simpl. split; [done|]. split; [intros player; lia|]. split; [lia|].
    intros player. split; [by left|].
    intros [?|(g & H & _)]; [done | by apply elem_of_nil in H].
  - cbn zeta. simpl foldl.
    destruct (add_net_fold (net_results g) net_totals Hnd) as (A1 & A2 & A3 & A4).
    destruct (IH _ A1) as (H1 & H2 & H3 & H4). cbn zeta in *.
    split; [done|]. split; [|split].
    + intros player. rewrite H2, A2. simpl. lia.
    + rewrite H3, A3. simpl. lia.
    + intros player. rewrite H4, A4. split.
      * intros [[?|?]|(g' & Hg' & Hin)].
        -- by left.
        -- right. exists g. split; [left | done].
        -- right. exists g'. split; [by right | done].
      * intros [?|(g' & [->|Hg']%elem_of_cons & Hin)].
        -- left. by left.
        -- left. by right.
        -- right. by exists g'.
Qed.

(** X6: the net totals aggregated over the games of a session form a dict
    (one entry per name); a name is a key exactly when it is a key of some
    game's net results; and the values add up to the sum, over the games, of
    the sums of their net results. *)
Theorem aggregate_keys_and_sum (games : list Game) :
  NoDup (aggregate_net_totals games).*1
  ∧ (∀ player, player ∈ (aggregate_net_totals games).*1
               ↔ ∃ g, g ∈ games ∧ player ∈ (net_results g).*1)
  ∧ sum (map snd (aggregate_net_totals games))
    = sum (map (λ g, sum (map snd (net_results g))) games).
Proof.
  destruct (aggregate_fold games []) as (H1 & _ & H3 & H4); [apply NoDup_nil_2|].
  cbn zeta in *. fold (aggregate_net_totals games) in *.
  split; [done|]. split; [|done].
  intros player. split.
  - intros [H|H]%H4; [by apply elem_of_nil in H | done].
  - intros H. apply H4. by right.
Qed.

(** X7: when the net results of every game are dicts, a player's aggregated
    total is the sum of the player's net results over the games, a game in
    which the name does not appear counting for zero. *)
Theorem aggregate_per_player (games : list Game) (player : string) :
  Forall (λ g, NoDup (net_results g).*1) games →
  net_of (aggregate_net_totals games) player
  = sum (map (λ g, net_of (net_results g) player) games).
Proof.
  intros Hdicts.
  destruct (aggregate_fold games []) as (_ & H2 & _); [apply NoDup_nil_2|].
  cbn zeta in *. fold (aggregate_net_totals games) in *.
  rewrite H2. clear H2. unfold net_of at 1. simpl.
  induction Hdicts as [|g games Hg _ IH]; [done|].
  simpl. rewrite (amount_of_net_of _ _ Hg). lia.
Qed.

Lemma aggregate_per_player_witness :
  let g1 := mkGame [] "" "" "" 1 [] 40 2 [] (Some "A") [("A", 20); ("B", -20)] in
  let g2 := mkGame [] "" "" "" 1 [] 20 2 [] (Some "B") [("A", -10); ("B", 10)] in
  net_of (aggregate_net_totals [g1; g2]) "A" = 10.
Proof.
  intros g1 g2. rewrite (aggregate_per_player [g1; g2] "A").
  - reflexivity.
  - repeat constructor; apply (bool_decide_unpack _); vm_compute; exact I.
Defined.

(** ** From the games to the settlements *)

Lemma fresh_game_invariant (str_strip str_lower : string → string)
    (int_of_str : string → option Z) (str_repr : string → string)
    (player_configs : list (string * Z)) (dealer0 big_blind0 small_blind0 : string)
    (base_unit0 : Z) (chip_denoms0 : list Z) (ops : list operation) :
  let g := run_operations str_strip str_lower int_of_str str_repr
             (Game_init (fresh_players player_configs) dealer0 big_blind0
                small_blind0 base_unit0 chip_denoms0) ops in
  pot_is_bets_sum g ∧ map name (players g) = map fst player_configs.
Proof.
  destruct (fresh_players_total_bet player_configs) as [Hbets0 Hnames0].
  apply (run_operations_stable str_strip str_lower int_of_str str_repr
           (λ g, pot_is_bets_sum g
                 ∧ map name (players g) = map fst player_configs)).
  - apply round_stable_and; [apply pot_is_bets_sum_stable | apply names_stable].
  - intros w g1 [H1 H2]. unfold pot_is_bets_sum in *.
    destruct (set_winner_frame str_repr w g1) as (-> & -> & _). done.
  - split; [|exact Hnames0]. unfold pot_is_bets_sum. simpl. by rewrite Hbets0.
Qed.

Lemma finished_game_zero_sum (str_strip str_lower : string → string)
    (int_of_str : string → option Z) (str_repr : string → string) (g : Game) :
  finished_game str_strip str_lower int_of_str str_repr g →
  sum (map snd (net_results g)) = 0.
Proof.
  intros (configs & d & b & s & bu & dn & ops & w & Hnd & Hset).
  destruct (fresh_game_invariant str_strip str_lower int_of_str str_repr
              configs d b s bu dn ops) as [Hpot Hnames].
  cbv zeta in *. rewrite <- Hnames in Hnd.
  unfold set_winner in Hset.
  destruct (decide (w ∈ map name _)) as [Hin|]; [|done].
  injection Hset as <-. simpl.
  rewrite winner_nets_distinct by done. rewrite map_map. simpl.
  rewrite sum_nets_distinct by done. rewrite decide_True by done.
  unfold pot_is_bets_sum in Hpot. lia.
Qed.

Lemma aggregate_keys_and_sum_aux (games : list Game) :
  Forall (λ g, sum (map snd (net_results g)) = 0) games →
  NoDup (aggregate_net_totals games).*1
  ∧ sum (map snd (aggregate_net_totals games)) = 0.
Proof.
  intros Hzero.
  destruct (aggregate_fold games []) as (H1 & _ & H3 & _); [apply NoDup_nil_2|].
  cbn zeta in *. fold (aggregate_net_totals games) in *.
  split; [done|]. rewrite H3. clear H1 H3. simpl.
  induction Hzero as [|g games Hg _ IH]; [done|]. simpl. lia.
Qed.

(** X8: at the end of a session in which every game was set up with
    pairwise distinct player names and closed by a successful [set_winner],
    the aggregated net totals sum to zero, and the settlements computed from
    them, applied as payments, bring every player's aggregated balance to
    zero; their amounts add up to the total debt. *)
Theorem session_settles (str_strip str_lower : string → string)
    (int_of_str : string → option Z) (str_repr : string → string)
    (games : list Game) (net_totals : list (string * Z)) (ts : list Transfer) :
  Forall (finished_game str_strip str_lower int_of_str str_repr) games →
  session_summary games = Some (net_totals, ts) →
  net_totals = aggregate_net_totals games
  ∧ sum (map snd net_totals) = 0
  ∧ (∀ player, foldl apply_payment (net_of net_totals) ts player = 0)
  ∧ total_transferred ts = debtor_magnitude net_totals.
Proof.
  intros Hfin Hsum. unfold session_summary in Hsum. cbv zeta in Hsum.
  destruct (aggregate_keys_and_sum_aux games) as (Hnd & Hzero).
  { eapply Forall_impl; [exact Hfin|]. intros g.
    apply finished_game_zero_sum. }
  destruct (aggregate_net_totals games) as [|item rest] eqn:Hagg; [done|].
  injection Hsum as <- <-. split; [done|]. split; [done|].
  rewrite calculate_settlements_sweep.
  apply sweep_settles.
  - lia.
  - apply debtors_of_positive.
  - apply creditors_of_positive.
  - rewrite sum_split in Hzero. lia.
  - intros player. by apply net_of_split.
Qed.

Lemma session_settles_witness :
  session_summary [first_game; second_game]
  = Some ([("A", 10); ("B", -10)], [mkTransfer "B" "A" 10])
  ∧ foldl apply_payment (net_of [("A", 10); ("B", -10)])
      [mkTransfer "B" "A" 10] "B" = 0.
Proof.
  assert (Hsum : session_summary [first_game; second_game]
                 = Some ([("A", 10); ("B", -10)], [mkTransfer "B" "A" 10]))
    by (vm_compute; reflexivity).
  split; [exact Hsum|].
  assert (Hfin : Forall (finished_game ascii_strip ascii_lower decimal_int quote_repr)
                   [first_game; second_game]).
  { repeat constructor.
    - exists [("A", 100); ("B", 100)], "A", "B", "A", 1, [1; 5; 25; 100],
        [RecordRound ["bet"; "20"; "0"; "0"; "0"; "call"; "20"; "0"; "0"; "0"]], "A".
      split; [apply (bool_decide_unpack _); vm_compute; exact I | reflexivity].
    - exists [("A", 100); ("B", 100)], "A", "B", "A", 1, [1; 5; 25; 100],
        [RecordRound ["bet"; "10"; "0"; "0"; "0"; "call"; "10"; "0"; "0"; "0"]], "B".
      split; [apply (bool_decide_unpack _); vm_compute; exact I | reflexivity]. }
  destruct (session_settles ascii_strip ascii_lower decimal_int quote_repr
              _ _ _ Hfin Hsum) as (_ & _ & Hzero & _).
  apply Hzero.
Defined.

(** ** The outcome of a turn *)

Section TurnOutcome.

Variables (str_strip str_lower : string → string)
          (int_of_str : string → option Z)
          (str_repr : string → string).

Local Abbreviation read_count' := (read_count str_strip int_of_str).
Local Abbreviation read_denoms' := (read_denoms str_strip int_of_str).
Local Abbreviation bet_attempt' := (bet_attempt str_strip str_lower int_of_str).
Local Abbreviation bet_loop' := (bet_loop str_strip str_lower int_of_str).
Local Abbreviation record_turn' := (record_turn str_strip str_lower int_of_str).
Local Abbreviation record_turns' := (record_turns str_strip str_lower int_of_str).
Local Abbreviation record_round' := (record_round str_strip str_lower int_of_str).
Local Abbreviation set_winner' := (set_winner str_repr).
Local Abbreviation run_operations' :=
  (run_operations str_strip str_lower int_of_str str_repr).

Lemma read_count_result (inp rest : list string) (r : result Z) :
  read_count' inp = (r, rest) →
  match r with
  | Ok count => 0 ≤ count
  | Raise e => e = EOFError ∧ rest = []
  end.
Proof.
  revert rest r. induction inp as [|line inp IH]; intros rest r; simpl.
  - intros [= <- <-]. done.
  - destruct (int_of_str _) as [count|]; [|apply IH].
    destruct (Z.ltb_spec count 0); [apply IH|].
    intros [= <- <-]. done.
Qed.

Lemma read_denoms_result (denoms : list Z) (total : Z) (inp rest : list string)
    (r : result Z) :
  read_denoms' denoms total inp = (r, rest) →
  match r with
  | Ok units =>
      ∃ counts, length counts = length denoms
                ∧ Forall (λ count, 0 ≤ count) counts
                ∧ units = total + chip_units counts denoms
  | Raise e => (e = EOFError ∧ rest = []) ∨ e = int_str_error
  end.
Proof.
  revert total inp. induction denoms as [|d denoms IH]; intros total inp; simpl.
  - intros [= <- <-]. exists []. repeat split; [constructor | simpl; lia].
  - destruct (format_ints [d]) as [u0|e0] eqn:Hfmt.
    2: { intros [= <- <-]. right. by eapply format_ints_raises. }
    destruct (read_count' inp) as [[count|e] inp'] eqn:Hc;
      apply read_count_result in Hc.
    + intros H. specialize (IH _ _ H). destruct r as [units|e]; [|done].
      destruct IH as (counts & Hlen & Hpos & ->).
      exists (count :: counts). simpl. repeat split; [lia | by constructor | lia].
    + intros [= <- <-]. by left.
Qed.

Lemma bet_attempt_result (k : nat) (g g1 : Game) (inp rest : list string)
    (s : loop_step Z) :
  bet_attempt' k g inp = (g1, s, rest) →
  match s with
  | Break amount =>
      ∃ counts, length counts = length (chip_denoms g)
        ∧ Forall (λ count, 0 ≤ count) counts
        ∧ amount = chip_units counts (chip_denoms g) * base_unit g
        ∧ ((g1 = g ∧ ∀ p, players g !! k = Some p →
                          total_bet p + amount ≤ starting_stack p)
           ∨ (g1 = set_override k g
              ∧ ∃ p, players g !! k = Some p
                     ∧ starting_stack p < total_bet p + amount))
  | Continue => g1 = g
  | Raised e => g1 = g ∧ ((e = EOFError ∧ rest = []) ∨ e = int_str_error)
  end.
Proof.
  unfold bet_attempt.
  destruct (format_ints (chip_denoms g)) as [u0|e0] eqn:Hfmt.
  2: { intros [= <- <- <-]. split; [done|]. right. by eapply format_ints_raises. }
  destruct (read_denoms' (chip_denoms g) 0 inp) as [[u|e] inp1] eqn:Hr;
    apply read_denoms_result in Hr.
  - destruct Hr as (counts & Hlen & Hpos & ->). rewrite Z.add_0_l.
    destruct (players g !! k) as [p|] eqn:Hk.
    + destruct (Z.ltb_spec (starting_stack p)
                  (total_bet p + chip_units counts (chip_denoms g) * base_unit g)).
      * destruct (format_ints [_; _]) as [u1|e1] eqn:Hwarn.
        2: { intros [= <- <- <-]. split; [done|]. right.
             by eapply format_ints_raises. }
        destruct inp1 as [|line inp2];
          [intros [= <- <- <-]; split; [done|]; by left|].
        destruct (decide _); intros [= <- <- <-]; [|done].
        exists counts. repeat split; try done. right. split; [done|].
        by exists p.
      * intros [= <- <- <-]. exists counts. repeat split; try done.
        left. split; [done|]. intros p' [= <-]. done.
    + intros [= <- <- <-]. exists counts. repeat split; try done.
      left. split; [done|]. intros p' [=].
  - intros [= <- <- <-]. done.
Qed.

Lemma bet_loop_result (fuel k : nat) (g g1 : Game) (inp rest : list string)
    (r : result Z) :
  (length inp < fuel)%nat →
  bet_loop' fuel k g inp = (g1, r, rest) →
  match r with
  | Ok amount =>
      ∃ counts, length counts = length (chip_denoms g)
        ∧ Forall (λ count, 0 ≤ count) counts
        ∧ amount = chip_units counts (chip_denoms g) * base_unit g
        ∧ ((g1 = g ∧ ∀ p, players g !! k = Some p →
                          total_bet p + amount ≤ starting_stack p)
           ∨ (g1 = set_override k g
              ∧ ∃ p, players g !! k = Some p
                     ∧ starting_stack p < total_bet p + amount))
  | Raise e => g1 = g ∧ ((e = EOFError ∧ rest = []) ∨ e = int_str_error)
  end.
Proof.
  revert g inp. induction fuel as [|fuel IH]; intros g inp Hfuel; [lia|]. simpl.
  destruct (bet_attempt' k g inp) as [[g2 s] inp1] eqn:Ha.
  pose proof (bet_attempt_cases _ _ _ _ _ _ _ _ _ Ha) as (_ & _ & Hcont).
  pose proof (bet_attempt_result _ _ _ _ _ _ Ha) as Hres.
  destruct s as [amount| |e].
  - intros [= <- <- <-]. exact Hres.
  - subst g2. destruct (Hcont eq_refl) as [_ Hlt]. apply IH. lia.
  - intros [= <- <- <-]. exact Hres.
Qed.

(** The outcomes of a turn: it returns after committing one action; it
    raises [EOFError] with the game untouched; or an f-string could not be
    written, before the commit or after it. *)
Lemma record_turn_result (round_no : Z) (k : nat) (g g' : Game)
    (inp rest : list string) (r : result unit) :
  record_turn' round_no k g inp = (g', r, rest) →
  match r with
  | Ok _ => turn_commits round_no k g g' ∧ format_ints [pot g'] = Ok ()
  | Raise e =>
      (e = EOFError ∧ rest = [] ∧ g' = g)
      ∨ (e = int_str_error
         ∧ (g' = g
            ∨ (turn_commits round_no k g g'
               ∧ ∃ amount, format_ints [amount; pot g'] = Raise int_str_error
                           ∧ (∀ p, players g !! k = Some p →
                                   pot g' = pot g + amount))))
  end.
Proof.
  assert (Hpot : ∀ action amount g1,
             (g1 = g ∨ g1 = set_override k g) →
             ∀ p, players g !! k = Some p →
                  pot (commit round_no k action amount g1) = pot g + amount).
  { intros action amount g1 Hg1 p Hk. pose proof (lookup_lt_Some _ _ _ Hk) as Hlt.
    destruct Hg1 as [->| ->]; unfold commit, set_override; rewrite Hk; simpl;
      [done|]. by rewrite list_lookup_insert_eq. }
  assert (Hfin : ∀ action amount g1,
             (g1 = g ∨ g1 = set_override k g) →
             turn_commits round_no k g (commit round_no k action amount g1) →
             format_ints [amount; pot (commit round_no k action amount g1)]
             = r →
             match r with
             | Ok _ =>
                 turn_commits round_no k g (commit round_no k action amount g1)
                 ∧ format_ints [pot (commit round_no k action amount g1)] = Ok ()
             | Raise e =>
                 (e = EOFError ∧ rest = []
                  ∧ commit round_no k action amount g1 = g)
                 ∨ (e = int_str_error
                    ∧ (commit round_no k action amount g1 = g
                       ∨ (turn_commits round_no k g
                            (commit round_no k action amount g1)
                          ∧ ∃ amount0,
                              format_ints
                                [amount0;
                                 pot (commit round_no k action amount g1)]
                              = Raise int_str_error
                              ∧ (∀ p, players g !! k = Some p →
                                      pot (commit round_no k action amount g1)
                                      = pot g + amount0))))
             end).
  { intros action amount g1 Hg1 Hturn Hfmt. destruct r as [u|e].
    - split; [done|]. destruct u. apply format_ints_ok in Hfmt.
      apply format_ints_ok. apply Forall_cons in Hfmt as [_ Hfmt]. done.
    - pose proof (format_ints_raises _ _ Hfmt) as ->. right. split; [done|].
      right. split; [done|]. exists amount. split; [done|]. by apply Hpot. }
  unfold record_turn. destruct inp as [|line inp1].
  { intros [= <- <- <-]. by left. }
  destruct (is_betting (str_lower (str_strip line))) eqn:Hbet.
  - destruct (bet_loop' (S (length inp1)) k g inp1) as [[g1 amount] inp2] eqn:Hb.
    apply bet_loop_result in Hb; [|lia].
    destruct amount as [amount|e].
    + intros [= <- Hr <-].
      destruct Hb as (counts & Hlen & Hpos & -> & [[-> Hle]|[-> (p & Hk & Hgt)]]).
      * apply Hfin; [by left | by apply commits_within | done].
      * apply Hfin; [by right | by eapply commits_override | done].
    + intros [= <- <- <-]. destruct Hb as [-> [[-> ->]| ->]].
      * by left.
      * right. split; [done|]. by left.
  - intros [= <- Hr <-]. apply Hfin; [by left | by apply commits_plain | done].
Qed.

(** X9: a turn of round recording has three outcomes.  It returns after
    committing one action: with amount 0 for an action that is no betting
    action, and for a betting action with [(Σ count × denom) × base_unit]
    for one non-negative count per denomination, the override flag being
    set exactly when that amount brings the total bet above the starting
    stack; the pot it leaves can be printed.  It raises [EOFError] when the
    input ran out: all lines are consumed and the game is exactly as before
    the turn.  Or it raises the [ValueError] of an integer too long to
    print: either before the commit (a denomination, or the two numbers of
    the warning), with the game exactly as before the turn, or on the line
    that reports the commit, with the one action committed as in a turn
    that returns and the amount or the new pot too long. *)
Theorem record_turn_outcome (round_no : Z) (k : nat) (g g' : Game)
    (inp rest : list string) (r : result unit) :
  record_turn' round_no k g inp = (g', r, rest) →
  match r with
  | Ok _ => turn_commits round_no k g g' ∧ int_str_raises (pot g') = false
  | Raise e =>
      (e = EOFError ∧ rest = [] ∧ g' = g)
      ∨ (e = int_str_error
         ∧ (g' = g
            ∨ (turn_commits round_no k g g'
               ∧ ∃ amount,
                   (int_str_raises amount = true
                    ∨ int_str_raises (pot g') = true)
                   ∧ (∀ p, players g !! k = Some p →
                           pot g' = pot g + amount))))
  end.
Proof.
  intros Hturn. apply record_turn_result in Hturn. destruct r as [u|e].
  - destruct Hturn as [Hc Hfmt]. split; [done|].
    apply format_ints_ok in Hfmt. by apply Forall_cons in Hfmt as [Hfmt _].
  - destruct Hturn as [Heof|[-> [->|(Hc & amount & Hfmt & Hpot)]]].
    + by left.
    + right. split; [done|]. by left.
    + right. split; [done|]. right. split; [done|]. exists amount.
      split; [|done].
      destruct (int_str_raises amount) eqn:Ha; [by left|].
      destruct (int_str_raises (pot g')) eqn:Hp; [by right|].
      assert (Hok : format_ints [amount; pot g'] = Ok ()).
      { apply format_ints_ok. repeat constructor; done. }
      congruence.
Qed.

End TurnOutcome.

Lemma record_turn_outcome_witness :
  turn_commits 1 0 two_player_game
    (commit 1 0 "bet" 20 two_player_game).
Proof.
  apply (record_turn_outcome ascii_strip ascii_lower decimal_int 1 0
           two_player_game _ ["bet"; "20"; "0"; "0"; "0"] [] (Ok ())).
  reflexivity.
Defined.

(** ** The effect of committed turns *)

Lemma chip_units_nonneg (counts denoms : list Z) :
  Forall (λ count, 0 ≤ count) counts →
  Forall (λ denom, 0 ≤ denom) denoms →
  0 ≤ chip_units counts denoms.
Proof.
  intros Hc. revert denoms. induction Hc as [|c counts Hc0 _ IH];
    intros denoms Hd; [simpl; lia|].
  destruct Hd as [|d denoms Hd0 Hd]; simpl; [lia|].
  specialize (IH denoms Hd). nia.
Qed.

Lemma turn_commits_effect (round_no : Z) (k : nat) (g g' : Game) (p : Player) :
  turn_commits round_no k g g' →
  players g !! k = Some p →
  ∃ (action : string) (amount : Z) (p' : Player),
    committed_as round_no k g g' p p' action amount
    ∧ (went_negative_override p = true → went_negative_override p' = true)
    ∧ (went_negative_override p' = false →
         amount = 0 ∨ total_bet p + amount ≤ starting_stack p)
    ∧ (0 ≤ base_unit g → Forall (λ denom, 0 ≤ denom) (chip_denoms g) →
         0 ≤ amount).
Proof.
  intros Hturn Hk. pose proof (lookup_lt_Some _ _ _ Hk) as Hlt.
  destruct Hturn as [action Hbet|action counts Hbet Hlen Hpos Hle
                    |action counts q Hbet Hlen Hpos Hq Hgt].
  - exists action, 0, (record_action p round_no action 0).
    unfold committed_as, commit. rewrite Hk. simpl.
    repeat split; try done; try lia; try (by left).
  - exists action, (chip_units counts (chip_denoms g) * base_unit g),
      (record_action p round_no action
         (chip_units counts (chip_denoms g) * base_unit g)).
    unfold committed_as, commit. rewrite Hk. simpl.
    repeat split; try done.
    + intros _. right. by apply Hle.
    + intros Hb Hd. pose proof (chip_units_nonneg _ _ Hpos Hd). nia.
  - rewrite Hk in Hq. injection Hq as <-.
    exists action, (chip_units counts (chip_denoms g) * base_unit g),
      (record_action
         (mkPlayer (name p) (starting_stack p) (stack p) (bets p) (actions p) true)
         round_no action (chip_units counts (chip_denoms g) * base_unit g)).
    unfold committed_as, commit, set_override. rewrite Hk. simpl.
    rewrite list_lookup_insert_eq by done. simpl.
    rewrite list_insert_insert_eq.
    repeat split; try done.
    intros Hb Hd. pose proof (chip_units_nonneg _ _ Hpos Hd). nia.
Qed.

Lemma turn_commits_out_of_range (round_no : Z) (k : nat) (g g' : Game) :
  turn_commits round_no k g g' → players g !! k = None → g' = g.
Proof.
  intros Hturn Hk.
  destruct Hturn as [action Hbet|action counts Hbet Hlen Hpos Hle
                    |action counts q Hbet Hlen Hpos Hq Hgt].
  - unfold commit. by rewrite Hk.
  - unfold commit. by rewrite Hk.
  - congruence.
Qed.

Section RoundOutcome.

Variables (str_strip str_lower : string → string)
          (int_of_str : string → option Z)
          (str_repr : string → string).

Local Abbreviation record_turn' := (record_turn str_strip str_lower int_of_str).
Local Abbreviation record_turns' := (record_turns str_strip str_lower int_of_str).
Local Abbreviation record_round' := (record_round str_strip str_lower int_of_str).
Local Abbreviation set_winner' := (set_winner str_repr).
Local Abbreviation run_operations' :=
  (run_operations str_strip str_lower int_of_str str_repr).

Lemma record_turns_outcome (round_no : Z) (ks : list nat) (g g' : Game)
    (inp rest : list string) (r : result unit) :
  record_turns' round_no ks g inp = (g', r, rest) →
  match r with
  | Ok _ => turns_commit round_no ks g g'
  | Raise e =>
      ∃ done todo, ks = done ++ todo
                   ∧ turns_commit round_no done g g'
                   ∧ ((e = EOFError ∧ rest = [] ∧ todo ≠ [])
                      ∨ e = int_str_error)
  end.
Proof.
  revert g inp. induction ks as [|k ks IH]; intros g inp; simpl.
  - intros [= <- <- <-]. constructor.
  - destruct (record_turn' round_no k g inp) as [[g1 [u|e]] inp1] eqn:Ht;
      apply (record_turn_result str_strip str_lower int_of_str) in Ht.
    + destruct Ht as [Ht _].
      intros H. specialize (IH _ _ H). destruct r as [u'|e].
      * by econstructor.
      * destruct IH as (done & todo & -> & Hdone & Hcase).
        exists (k :: done), todo.
        split; [done|]. split; [by econstructor|done].
    + intros [= <- <- <-].
      destruct Ht as [(-> & -> & ->)|[-> [->|[Ht _]]]].
      * exists [], (k :: ks). split; [done|]. split; [constructor|]. by left.
      * exists [], (k :: ks). split; [done|]. split; [constructor|]. by right.
      * exists [k], ks. split; [done|].
        split; [econstructor; [exact Ht|constructor]|]. by right.
Qed.

(** A property kept by every committed turn, by the end of a round and by
    [set_winner] holds after any sequence of operations. *)
Lemma run_operations_inv (P : Game → Prop) (g : Game) (ops : list operation) :
  (∀ round_no k g g', P g → turn_commits round_no k g g' → P g') →
  (∀ g, P g → P (next_round g)) →
  (∀ winner_name g, P g → P (set_winner' winner_name g).1) →
  P g → P (run_operations' g ops).
Proof.
  intros Hturn Hnext Hwin.
  assert (Hturns : ∀ round_no ks g g', P g → turns_commit round_no ks g g' → P g').
  { intros round_no ks g1 g2 Hg Hts. induction Hts; eauto. }
  revert g. induction ops as [|op ops IH]; intros g Hg; [done|].
  simpl. apply IH. destruct op as [inp|winner_name]; simpl; [|by apply Hwin].
  unfold record_round.
  destruct (format_ints [round g]) as [u0|e0]; [|done].
  destruct (record_turns' (round g) (seq 0 (length (players g))) g inp)
    as [[g1 [u|e]] inp1] eqn:Hr;
    apply record_turns_outcome in Hr; simpl.
  - apply Hnext. eauto.
  - destruct Hr as (done & todo & _ & Hdone & _). eauto.
Qed.

End RoundOutcome.

(** ** The effect of a round *)

Lemma turns_commit_effects (round_no : Z) (ks : list nat) (g g' : Game) :
  turns_commit round_no ks g g' →
  NoDup ks →
  (∀ k, k ∈ ks → (k < length (players g))%nat) →
  round g' = round g
  ∧ length (players g') = length (players g)
  ∧ ∃ new : list HistoryEntry,
      history g' = history g ++ new
      ∧ length new = length ks
      ∧ pot g' = pot g + sum (map entry_amount new)
      ∧ (∀ k, k ∉ ks → players g' !! k = players g !! k)
      ∧ (∀ j k p, ks !! j = Some k → players g !! k = Some p →
           ∃ p' e, players g' !! k = Some p' ∧ new !! j = Some e
                   ∧ turn_recorded round_no p p' e).
Proof.
  induction 1 as [g|k ks g g1 g2 Hturn Hturns IH]; intros Hnd Hrange.
  - split; [done|]. split; [done|]. exists []. rewrite app_nil_r. simpl.
    repeat split; try done; try lia.
  - apply NoDup_cons in Hnd as [Hk Hnd].
    destruct (lookup_lt_is_Some_2 (players g) k) as [p Hp];
      [apply Hrange; left|].
    destruct (turn_commits_effect _ _ _ _ _ Hturn Hp)
      as (action & amount & p1 & Hc & _).
    destruct Hc as (Hpl & Hh & Hpot & Hr & _ & _ & _ & _ & _ & _ & _
                    & Hn & Hs & Hb & Ha & Hst).
    assert (Hlen1 : length (players g1) = length (players g))
      by (rewrite Hpl; apply length_insert).
    destruct IH as (Hr2 & Hlen2 & new & Hh2 & Hnew & Hpot2 & Hout & Hin).
    { done. }
    { intros k' Hk'. rewrite Hlen1. apply Hrange. by right. }
    split; [congruence|]. split; [congruence|].
    exists (mkEntry round_no (name p) action amount (pot g + amount) :: new).
    split; [rewrite Hh2, Hh, <- app_assoc; done|].
    split; [simpl; lia|]. split; [simpl; lia|]. split.
    + intros k' Hk'. apply not_elem_of_cons in Hk' as [Hne Hk'].
      rewrite (Hout k' Hk'), Hpl. by apply list_lookup_insert_ne.
    + intros j k' p' Hj Hp'. destruct j as [|j]; simpl in Hj.
      * injection Hj as <-. rewrite Hp in Hp'. injection Hp' as <-.
        exists p1, (mkEntry round_no (name p) action amount (pot g + amount)).
        split.
        { rewrite (Hout k Hk), Hpl. apply list_lookup_insert_eq.
          by eapply lookup_lt_Some. }
        split; [done|]. unfold turn_recorded. simpl. done.
      * assert (Hne : k ≠ k').
        { intros ->. apply Hk. by eapply list_elem_of_lookup_2. }
        apply (Hin j k' p' Hj). rewrite Hpl.
        by rewrite list_lookup_insert_ne.
Qed.

Lemma seq_prefix (n : nat) (done todo : list nat) :
  seq 0 n = done ++ todo →
  done = seq 0 (length done) ∧ (length done + length todo = n)%nat.
Proof.
  intros Heq.
  assert (Hlen : (length done + length todo = n)%nat).
  { rewrite <- length_app, <- Heq. apply length_seq. }
  split; [|done].
  assert (Htake : take (length done) (seq 0 n) = done)
    by (rewrite Heq; apply take_app_length).
  rewrite take_seq in Htake. etrans; [symmetry; exact Htake|]. f_equal. lia.
Qed.

Section RoundEffect.

Variables (str_strip str_lower : string → string)
          (int_of_str : string → option Z).

Local Abbreviation record_turns' := (record_turns str_strip str_lower int_of_str).
Local Abbreviation record_round' := (record_round str_strip str_lower int_of_str).

(** What a call of [record_round] that returns has done. *)
Lemma record_round_returns (g g' : Game) (inp rest : list string) :
  record_round' g inp = (g', Ok (), rest) →
  round g' = round g + 1
  ∧ length (players g') = length (players g)
  ∧ ∃ new : list HistoryEntry,
      history g' = history g ++ new
      ∧ length new = length (players g)
      ∧ pot g' = pot g + sum (map entry_amount new)
      ∧ ∀ k p, players g !! k = Some p →
          ∃ p' e, players g' !! k = Some p' ∧ new !! k = Some e
                  ∧ turn_recorded (round g) p p' e.
Proof.
  unfold record_round.
  destruct (format_ints [round g]) as [u0|e0]; [|done].
  destruct (record_turns' (round g) (seq 0 (length (players g))) g inp)
    as [[g1 [u|e]] inp1] eqn:Hr; [|done].
  apply (record_turns_outcome str_strip str_lower int_of_str) in Hr.
  intros [= <- <-].
  destruct (turns_commit_effects _ _ _ _ Hr) as (Hr1 & Hlen & new & Hh & Hn & Hpot & _ & Hin).
  { apply NoDup_seq. }
  { intros k Hk%elem_of_seq. lia. }
  simpl. split; [lia|]. split; [done|]. exists new.
  rewrite length_seq in Hn. repeat split; try done.
  intros k p Hp. apply (Hin k k p); [|done].
  rewrite lookup_seq_lt; [done|]. by eapply lookup_lt_Some.
Qed.

(** What a call of [record_round] that raises has done. *)
Lemma record_round_raises (g g' : Game) (inp rest : list string) (e : exn) :
  record_round' g inp = (g', Raise e, rest) →
  (e = EOFError ∨ e = int_str_error)
  ∧ round g' = round g
  ∧ length (players g') = length (players g)
  ∧ ∃ new : list HistoryEntry,
      history g' = history g ++ new
      ∧ (length new ≤ length (players g))%nat
      ∧ (e = EOFError → rest = [] ∧ (length new < length (players g))%nat)
      ∧ pot g' = pot g + sum (map entry_amount new)
      ∧ ∀ k p, players g !! k = Some p →
          ((k < length new)%nat →
             ∃ p' e', players g' !! k = Some p' ∧ new !! k = Some e'
                      ∧ turn_recorded (round g) p p' e')
          ∧ ((length new ≤ k)%nat → players g' !! k = Some p).
Proof.
  unfold record_round.
  destruct (format_ints [round g]) as [u0|e0] eqn:Hfmt.
  2: { intros [= <- <- <-]. apply format_ints_raises in Hfmt as ->.
       split; [by right|]. split; [done|]. split; [done|].
       exists []. rewrite app_nil_r. simpl.
       split; [done|]. split; [lia|]. split; [done|]. split; [lia|].
       intros k p Hp. split; [lia|done]. }
  destruct (record_turns' (round g) (seq 0 (length (players g))) g inp)
    as [[g1 [u|e1]] inp1] eqn:Hr; [done|].
  apply (record_turns_outcome str_strip str_lower int_of_str) in Hr.
  intros [= <- <- <-].
  destruct Hr as (done & todo & Hsplit & Hdone & Hcase).
  destruct (seq_prefix _ _ _ Hsplit) as [Hseq Hlens].
  destruct (turns_commit_effects _ _ _ _ Hdone)
    as (Hr1 & Hlen & new & Hh & Hn & Hpot & Hout & Hin).
  { rewrite Hseq. apply NoDup_seq. }
  { intros k Hk. rewrite Hseq in Hk. apply elem_of_seq in Hk. lia. }
  split; [destruct Hcase as [(-> & _)| ->]; [by left|by right]|].
  split; [done|]. split; [done|].
  exists new. split; [done|]. split; [lia|]. split.
  { intros ->. destruct Hcase as [(_ & -> & Htodo)|Habs]; [|done].
    split; [done|]. destruct todo; [done|]. simpl in Hlens. lia. }
  split; [done|].
  intros k p Hp. split.
  - intros Hk. apply (Hin k k p); [|done].
    rewrite Hseq. rewrite lookup_seq_lt; [done | lia].
  - intros Hk. rewrite Hout; [done|].
    rewrite Hseq. rewrite elem_of_seq. lia.
Qed.

(** X10: a call of [record_round] that returns has moved the round counter
    by one, kept the number of players, and appended to the history exactly
    one entry per player, in player order and carrying the round number the
    call started with; the pot has grown by the sum of the new amounts; and
    the player at each position has one more bet and one more action, those
    of the entry at the same position among the new ones, the stack being
    reduced by that amount. *)
Theorem record_round_completed (g g' : Game) (inp rest : list string) :
  record_round' g inp = (g', Ok (), rest) →
  round g' = round g + 1
  ∧ length (players g') = length (players g)
  ∧ ∃ new : list HistoryEntry,
      history g' = history g ++ new
      ∧ length new = length (players g)
      ∧ pot g' = pot g + sum (map entry_amount new)
      ∧ ∀ k p, players g !! k = Some p →
          ∃ p' e, players g' !! k = Some p' ∧ new !! k = Some e
                  ∧ turn_recorded (round g) p p' e.
Proof. apply record_round_returns. Qed.

(** X11: a call of [record_round] that raises does so with [EOFError] or
    with the [ValueError] of an integer too long to print; the round
    counter is not moved; the turns of a prefix of the players are recorded
    as in a completed round, and the players after are exactly as before the
    call.  With [EOFError] all input lines are consumed and the prefix is a
    strict one: the player whose turn ran out of input is untouched.  With
    the [ValueError] the prefix can be every player, the error being raised
    on the line that reports the last commit. *)
Theorem record_round_aborted (g g' : Game) (inp rest : list string) (e : exn) :
  record_round' g inp = (g', Raise e, rest) →
  (e = EOFError ∨ e = int_str_error)
  ∧ round g' = round g
  ∧ length (players g') = length (players g)
  ∧ ∃ new : list HistoryEntry,
      history g' = history g ++ new
      ∧ (length new ≤ length (players g))%nat
      ∧ (e = EOFError → rest = [] ∧ (length new < length (players g))%nat)
      ∧ pot g' = pot g + sum (map entry_amount new)
      ∧ ∀ k p, players g !! k = Some p →
          ((k < length new)%nat →
             ∃ p' e', players g' !! k = Some p' ∧ new !! k = Some e'
                      ∧ turn_recorded (round g) p p' e')
          ∧ ((length new ≤ k)%nat → players g' !! k = Some p).
Proof. apply record_round_raises. Qed.

End RoundEffect.

Lemma record_round_completed_witness :
  let g' := (record_round ascii_strip ascii_lower decimal_int two_player_game
               ["bet"; "20"; "0"; "0"; "0"; "fold"]).1.1 in
  round g' = 2 ∧ length (history g') = 2%nat.
Proof.
  intros g'.
  destruct (record_round_completed ascii_strip ascii_lower decimal_int
              two_player_game g' ["bet"; "20"; "0"; "0"; "0"; "fold"] [])
    as (Hr & _ & new & Hh & Hn & _); [reflexivity|].
  split; [exact Hr|]. rewrite Hh, length_app, Hn. reflexivity.
Defined.

Lemma record_round_aborted_witness :
  let out := record_round ascii_strip ascii_lower decimal_int two_player_game
               ["bet"; "20"; "0"; "0"; "0"; "call"; "20"] in
  round out.1.1 = 1 ∧ players out.1.1 !! 1%nat = Some (Player_init "B" 100).
Proof.
  intros out.
  destruct (record_round_aborted ascii_strip ascii_lower decimal_int
              two_player_game out.1.1 ["bet"; "20"; "0"; "0"; "0"; "call"; "20"]
              [] EOFError)
    as (_ & Hr & _ & new & Hh & _ & Hn & _ & Hpl); [reflexivity|].
  split; [exact Hr|].
  apply (Hpl 1%nat (Player_init "B" 100)); [reflexivity|].
  assert (Hlen : length (history out.1.1) = 1%nat) by reflexivity.
  rewrite Hh, length_app in Hlen. simpl in Hlen. lia.
Defined.

(** ** Integers too long to print, on concrete lines *)

(** A bet whose amount has 4301 digits: the warning cannot be written, the
    turn raises before the question is asked, the answer is left unread
    and nothing is committed. *)
Example oversize_bet_raises_before_commit :
  record_turn ascii_strip ascii_lower decimal_int 1 0 two_player_game oversize_bet
  = (two_player_game, Raise int_str_error, ["y"]).
Proof. vm_compute. reflexivity. Qed.

(** A pot that reaches 4301 digits with a bet of one chip: the bet is
    committed, then the line that reports it cannot be written.  The round
    raises with both players recorded and the round counter not moved. *)
Example oversize_pot_raises_after_commit :
  ∃ g' : Game,
    record_round ascii_strip ascii_lower decimal_int two_player_game oversize_round
    = (g', Raise int_str_error, [])
    ∧ round g' = 1
    ∧ map entry_player (history g') = ["A"; "B"]
    ∧ map (λ p, length (bets p)) (players g') = [1; 1]%nat
    ∧ int_str_raises (pot g') = true.
Proof.
  eexists. split; [vm_compute; reflexivity|].
  vm_compute. repeat split.
Qed.

(** ** Invariants of a game over its lifetime *)

Lemma turn_commits_cases (round_no : Z) (k : nat) (g g' : Game) :
  turn_commits round_no k g g' →
  (players g !! k = None ∧ g' = g)
  ∨ ∃ (p p' : Player) (action : string) (amount : Z),
      players g !! k = Some p
      ∧ committed_as round_no k g g' p p' action amount
      ∧ (went_negative_override p = true → went_negative_override p' = true)
      ∧ (went_negative_override p' = false →
           amount = 0 ∨ total_bet p + amount ≤ starting_stack p)
      ∧ (0 ≤ base_unit g → Forall (λ denom, 0 ≤ denom) (chip_denoms g) →
           0 ≤ amount).
Proof.
  intros Hturn. destruct (players g !! k) as [p|] eqn:Hk.
  - right. destruct (turn_commits_effect _ _ _ _ _ Hturn Hk)
      as (action & amount & p' & H). by exists p, p', action, amount.
  - left. split; [done|]. by eapply turn_commits_out_of_range.
Qed.

(** X12: in a game created by [Game.__init__], after any sequence of
    operations, the [pot_after] field of every history entry is the sum of
    the amounts of the entries up to and including it; the last one is the
    pot. *)
Theorem history_pot_after_running (str_strip str_lower : string → string)
    (int_of_str : string → option Z) (str_repr : string → string)
    (players0 : list Player) (dealer0 big_blind0 small_blind0 : string)
    (base_unit0 : Z) (chip_denoms0 : list Z) (ops : list operation) :
  let g := run_operations str_strip str_lower int_of_str str_repr
             (Game_init players0 dealer0 big_blind0 small_blind0 base_unit0
                chip_denoms0) ops in
  (∀ i e, history g !! i = Some e →
          entry_pot_after e = sum (map entry_amount (take (S i) (history g))))
  ∧ (∀ e, last (history g) = Some e → entry_pot_after e = pot g).
Proof.
  cbv zeta.
  set (P := λ g : Game,
         pot g = sum (map entry_amount (history g))
         ∧ ∀ i e, history g !! i = Some e →
             entry_pot_after e = sum (map entry_amount (take (S i) (history g)))).
  assert (HP : P (run_operations str_strip str_lower int_of_str str_repr
                    (Game_init players0 dealer0 big_blind0 small_blind0 base_unit0
                       chip_denoms0) ops)).
  { apply run_operations_inv.
    - intros round_no k g g' [Hpot Hrun] Hturn.
      destruct (turn_commits_cases _ _ _ _ Hturn)
        as [[_ ->]|(p & p' & action & amount & _ & Hc & _)]; [done|].
      destruct Hc as (_ & Hh & Hp & _). split.
      + rewrite Hh, Hp, map_app, sum_app. simpl. lia.
      + intros i e. rewrite Hh. intros Hi.
        destruct (decide (i < length (history g))%nat) as [Hlt|Hge].
        * rewrite lookup_app_l in Hi by done.
          rewrite take_app_le by lia. by apply Hrun.
        * rewrite lookup_app_r in Hi by lia.
          destruct (i - length (history g))%nat as [|n] eqn:Hn; [|done].
          simpl in Hi. injection Hi as <-. simpl.
          rewrite take_ge by (rewrite length_app; simpl; lia).
          rewrite map_app, sum_app. simpl. lia.
    - intros g H. exact H.
    - intros w g [H1 H2]. unfold P.
      destruct (set_winner_frame str_repr w g) as (_ & -> & -> & _). done.
    - split; [done|]. intros i e Hi. done. }
  destruct HP as [Hpot Hrun]. split; [exact Hrun|].
  intros e He. rewrite last_lookup in He.
  rewrite (Hrun _ _ He), Hpot. f_equal. f_equal. apply take_ge. lia.
Qed.

(** X13: in a game whose players were created by the setup, after any
    sequence of operations the players still are the configured ones, in
    the same order, with the same names and starting stacks; every player's
    stack is the starting stack minus the total bet; and the bet log and the
    action log of a player run in parallel, entry by entry with the same
    round number. *)
Theorem players_keep_their_ledger (str_strip str_lower : string → string)
    (int_of_str : string → option Z) (str_repr : string → string)
    (player_configs : list (string * Z)) (dealer0 big_blind0 small_blind0 : string)
    (base_unit0 : Z) (chip_denoms0 : list Z) (ops : list operation) :
  let g := run_operations str_strip str_lower int_of_str str_repr
             (Game_init (fresh_players player_configs) dealer0 big_blind0
                small_blind0 base_unit0 chip_denoms0) ops in
  map (λ p, (name p, starting_stack p)) (players g) = player_configs
  ∧ ∀ p, p ∈ players g →
      stack p = starting_stack p - total_bet p
      ∧ map fst (bets p) = map fst (actions p).
Proof.
  cbv zeta.
  set (ok := λ p : Player, stack p = starting_stack p - total_bet p
                           ∧ map fst (bets p) = map fst (actions p)).
  apply (run_operations_inv str_strip str_lower int_of_str str_repr
           (λ g, map (λ p, (name p, starting_stack p)) (players g) = player_configs
                 ∧ ∀ p, p ∈ players g → ok p)).
  - intros round_no k g g' [Hcfg Hok] Hturn.
    destruct (turn_commits_cases _ _ _ _ Hturn)
      as [[_ ->]|(p & p' & action & amount & Hk & Hc & _)]; [done|].
    destruct Hc as (Hpl & _ & _ & _ & _ & _ & _ & _ & _ & _ & _
                    & Hn & Hs & Hb & Ha & Hst).
    rewrite Hpl. split.
    + rewrite (map_insert_same _ _ _ p) by (done || congruence). done.
    + intros q Hq. apply list_elem_of_lookup in Hq as [i Hi].
      destruct (decide (i = k)) as [->|Hne].
      * rewrite list_lookup_insert_eq in Hi by (by eapply lookup_lt_Some).
        injection Hi as <-.
        destruct (Hok p) as [Hst0 Hlog0]; [by eapply list_elem_of_lookup_2|].
        split.
        -- rewrite Hst, Hs, Hst0. unfold total_bet. rewrite Hb, map_app, sum_app.
           simpl. lia.
        -- rewrite Hb, Ha, !map_app, Hlog0. done.
      * rewrite list_lookup_insert_ne in Hi by done.
        apply Hok. by eapply list_elem_of_lookup_2.
  - intros g H. exact H.
  - intros w g H. destruct (set_winner_frame str_repr w g) as (-> & _). exact H.
  - simpl. split.
    + unfold fresh_players. rewrite map_map. simpl.
      induction player_configs as [|[n s] cs IH]; [done|]. simpl. by rewrite IH.
    + intros p Hp. unfold fresh_players in Hp.
      apply list_elem_of_In, in_map_iff in Hp as ([n s] & <- & _).
      split; [unfold total_bet; simpl; lia | done].
Qed.

Lemma extends_game_refl (g : Game) : extends_game g g [].
Proof.
  unfold extends_game. rewrite app_nil_r. simpl.
  repeat split; try done; try lia.
  intros k p Hk. exists p, [], []. rewrite !app_nil_r. simpl.
  repeat split; try done; try lia.
Qed.

Lemma extends_game_turn (round_no : Z) (k : nat) (g0 g g' : Game)
    (new : list HistoryEntry) :
  extends_game g0 g new →
  (0 ≤ base_unit g0 → Forall (λ denom, 0 ≤ denom) (chip_denoms g0) →
     Forall (λ e, 0 ≤ entry_amount e) new) →
  turn_commits round_no k g g' →
  ∃ new', extends_game g0 g' new'
          ∧ (0 ≤ base_unit g0 → Forall (λ denom, 0 ≤ denom) (chip_denoms g0) →
               Forall (λ e, 0 ≤ entry_amount e) new').
Proof.
  intros Hext Hpos Hturn.
  destruct (turn_commits_cases _ _ _ _ Hturn)
    as [[_ ->]|(p & p' & action & amount & Hk & Hc & Hflag & _ & Hamt)];
    [by exists new|].
  destruct Hc as (Hpl & Hh & Hp & _ & Hbu & Hdn & Hd & Hbb & Hsb & _ & _
                  & Hn & Hs & Hb & Ha & Hst).
  destruct Hext as (Eh & Ep & Ebu & Edn & Ed & Ebb & Esb & Elen & Epl).
  exists (new ++ [mkEntry round_no (name p) action amount (pot g + amount)]).
  split.
  - unfold extends_game.
    split; [rewrite Hh, Eh, <- app_assoc; done|].
    split; [rewrite Hp, Ep, map_app, sum_app; simpl; lia|].
    split; [congruence|]. split; [congruence|]. split; [congruence|].
    split; [congruence|]. split; [congruence|].
    split; [rewrite Hpl, length_insert; done|].
    intros i q Hi. destruct (Epl i q Hi)
      as (q' & nb & na & Hq' & En & Es & Eb & Ea & Est & Efl & Enn).
    rewrite Hpl. destruct (decide (i = k)) as [->|Hne].
    + rewrite Hk in Hq'. injection Hq' as <-.
      exists p', (nb ++ [(round_no, amount)]), (na ++ [(round_no, action)]).
      rewrite list_lookup_insert_eq by (by eapply lookup_lt_Some).
      split; [done|]. split; [congruence|]. split; [congruence|].
      split; [rewrite Hb, Eb, <- app_assoc; done|].
      split; [rewrite Ha, Ea, <- app_assoc; done|].
      split; [rewrite Hst, Est, map_app, sum_app; simpl; lia|].
      split; [auto|].
      intros H1 H2. apply Forall_app. split; [by apply Enn|].
      constructor; [|constructor]. simpl. apply Hamt; congruence.
    + exists q', nb, na. rewrite list_lookup_insert_ne by done. done.
  - intros H1 H2. apply Forall_app. split; [by apply Hpos|].
    constructor; [|constructor]. simpl. apply Hamt; congruence.
Qed.

Lemma operations_extend (str_strip str_lower : string → string)
    (int_of_str : string → option Z) (str_repr : string → string)
    (g : Game) (ops : list operation) :
  ∃ new,
    extends_game g (run_operations str_strip str_lower int_of_str str_repr g ops) new
    ∧ (0 ≤ base_unit g → Forall (λ denom, 0 ≤ denom) (chip_denoms g) →
         Forall (λ e, 0 ≤ entry_amount e) new).
Proof.
  apply (run_operations_inv str_strip str_lower int_of_str str_repr
           (λ g', ∃ new, extends_game g g' new
                         ∧ (0 ≤ base_unit g →
                            Forall (λ denom, 0 ≤ denom) (chip_denoms g) →
                            Forall (λ e, 0 ≤ entry_amount e) new))).
  - intros round_no k g1 g2 (new & Hext & Hpos) Hturn.
    by eapply extends_game_turn.
  - intros g1 H. exact H.
  - intros w g1 (new & Hext & Hpos). exists new. split; [|done].
    unfold extends_game in *. unfold set_winner.
    destruct (decide _); simpl; done.
  - exists []. split; [apply extends_game_refl | constructor].
Qed.

(** X14: whatever operations a game receives, its history and every
    player's bet log and action log are only ever appended to; the pot
    grows by the sum of the appended amounts and each stack falls by the sum
    of the player's appended bets; the number of players, their names and
    starting stacks, the roles, the base unit and the denominations never
    change; and an override flag that is set stays set. *)
Theorem operations_only_append (str_strip str_lower : string → string)
    (int_of_str : string → option Z) (str_repr : string → string)
    (g : Game) (ops : list operation) :
  ∃ new,
    extends_game g (run_operations str_strip str_lower int_of_str str_repr g ops) new.
Proof.
  destruct (operations_extend str_strip str_lower int_of_str str_repr g ops)
    as (new & Hext & _).
  by exists new.
Qed.

(** X15: in a game whose base unit and chip denominations are not negative
    (as the setup makes them), no operation ever lowers the pot or raises a
    player's stack: every amount recorded is at least 0. *)
Theorem pot_never_decreases (str_strip str_lower : string → string)
    (int_of_str : string → option Z) (str_repr : string → string)
    (g : Game) (ops : list operation) :
  0 ≤ base_unit g →
  Forall (λ denom, 0 ≤ denom) (chip_denoms g) →
  let g' := run_operations str_strip str_lower int_of_str str_repr g ops in
  pot g ≤ pot g'
  ∧ (∃ new, history g' = history g ++ new
            ∧ Forall (λ e, 0 ≤ entry_amount e) new)
  ∧ ∀ k p, players g !! k = Some p →
      ∃ p', players g' !! k = Some p'
            ∧ stack p' ≤ stack p ∧ total_bet p ≤ total_bet p'.
Proof.
  intros Hbu Hdn g'.
  destruct (operations_extend str_strip str_lower int_of_str str_repr g ops)
    as (new & Hext & Hpos).
  fold g' in Hext. specialize (Hpos Hbu Hdn).
  assert (Hsum : ∀ (A : Type) (f : A → Z) (l : list A),
            Forall (λ x, 0 ≤ f x) l → 0 ≤ sum (map f l)).
  { intros A f l. induction 1; simpl; lia. }
  destruct Hext as (Eh & Ep & _ & _ & _ & _ & _ & _ & Epl).
  split; [pose proof (Hsum _ _ _ Hpos); lia|].
  split; [by exists new|].
  intros k p Hk.
  destruct (Epl k p Hk) as (p' & nb & na & Hp' & _ & _ & Eb & _ & Est & _ & Enn).
  exists p'. split; [done|].
  pose proof (Hsum _ snd nb (Enn Hbu Hdn)).
  unfold total_bet. rewrite Eb, map_app, sum_app. lia.
Qed.

Lemma pot_never_decreases_witness :
  pot two_player_game
  ≤ pot (run_operations ascii_strip ascii_lower decimal_int quote_repr
           two_player_game [RecordRound ["bet"; "20"; "0"; "0"; "0"; "fold"]]).
Proof.
  apply (pot_never_decreases ascii_strip ascii_lower decimal_int quote_repr
           two_player_game).
  - vm_compute. discriminate.
  - repeat constructor; vm_compute; discriminate.
Defined.

(** X16: in a game set up with non-negative starting stacks, after any
    sequence of operations a player whose override flag is not set has bet
    at most the starting stack in total, so that player's stack is not
    negative: going below zero takes a confirmed override. *)
Theorem negative_stack_needs_override (str_strip str_lower : string → string)
    (int_of_str : string → option Z) (str_repr : string → string)
    (player_configs : list (string * Z)) (dealer0 big_blind0 small_blind0 : string)
    (base_unit0 : Z) (chip_denoms0 : list Z) (ops : list operation) :
  Forall (λ c : string * Z, 0 ≤ c.2) player_configs →
  let g := run_operations str_strip str_lower int_of_str str_repr
             (Game_init (fresh_players player_configs) dealer0 big_blind0
                small_blind0 base_unit0 chip_denoms0) ops in
  ∀ p, p ∈ players g →
    went_negative_override p = false →
    total_bet p ≤ starting_stack p ∧ 0 ≤ stack p.
Proof.
  intros Hstacks g.
  set (ok := λ p : Player,
         stack p = starting_stack p - total_bet p
         ∧ (went_negative_override p = false → total_bet p ≤ starting_stack p)).
  enough (Hok : ∀ p, p ∈ players g → ok p).
  { intros p Hp Hflag. destruct (Hok p Hp) as [Hst Hle].
    specialize (Hle Hflag). lia. }
  apply (run_operations_inv str_strip str_lower int_of_str str_repr
           (λ g, ∀ p, p ∈ players g → ok p)).
  - intros round_no k g1 g2 Hok Hturn.
    destruct (turn_commits_cases _ _ _ _ Hturn)
      as [[_ ->]|(p & p' & action & amount & Hk & Hc & Hflag & Hwithin & _)];
      [done|].
    destruct Hc as (Hpl & _ & _ & _ & _ & _ & _ & _ & _ & _ & _
                    & Hn & Hs & Hb & Ha & Hst).
    intros q Hq. rewrite Hpl in Hq. apply list_elem_of_lookup in Hq as [i Hi].
    destruct (decide (i = k)) as [->|Hne].
    + rewrite list_lookup_insert_eq in Hi by (by eapply lookup_lt_Some).
      injection Hi as <-.
      destruct (Hok p) as [Hst0 Hle0]; [by eapply list_elem_of_lookup_2|].
      assert (Htb : total_bet p' = total_bet p + amount).
      { unfold total_bet. rewrite Hb, map_app, sum_app. simpl. lia. }
      split; [lia|]. intros Hoff. rewrite Htb, Hs.
      destruct (Hwithin Hoff) as [->|Hle]; [|lia].
      destruct (went_negative_override p) eqn:Hp0.
      * specialize (Hflag eq_refl). congruence.
      * specialize (Hle0 eq_refl). lia.
    + rewrite list_lookup_insert_ne in Hi by done.
      apply Hok. by eapply list_elem_of_lookup_2.
  - intros g1 H. exact H.
  - intros w g1 H. destruct (set_winner_frame str_repr w g1) as (-> & _). exact H.
  - simpl. intros p Hp. unfold fresh_players in Hp.
    apply list_elem_of_In, in_map_iff in Hp as ([n s] & <- & Hin).
    rewrite Forall_forall in Hstacks.
    specialize (Hstacks (n, s) (proj2 (list_elem_of_In _ _) Hin)).
    split; [unfold total_bet; simpl; lia|]. intros _. unfold total_bet. simpl.
    simpl in Hstacks. lia.
Qed.

Lemma negative_stack_needs_override_witness :
  Forall (λ p, went_negative_override p = false → 0 ≤ stack p)
    (players (run_operations ascii_strip ascii_lower decimal_int quote_repr
                two_player_game
                [RecordRound ["bet"; "20"; "0"; "0"; "1"; "y"; "fold"]])).
Proof.
  apply Forall_forall. intros p Hp Hflag.
  apply (negative_stack_needs_override ascii_strip ascii_lower decimal_int
           quote_repr [("A", 100); ("B", 100)] "A" "B" "A" 1 [1; 5; 25; 100]
           [RecordRound ["bet"; "20"; "0"; "0"; "1"; "y"; "fold"]]); try done.
  repeat constructor; vm_compute; discriminate.
Defined.

(** ** The order of the history *)

Lemma turns_commit_round (round_no : Z) (ks : list nat) (g g' : Game)
    (P : Game → Prop) :
  (∀ k g g', P g → turn_commits (round g) k g g' → P g') →
  turns_commit round_no ks g g' →
  round g = round_no → P g → P g' ∧ round g' = round_no.
Proof.
  intros Hturn Hts. induction Hts as [g|k ks g g1 g2 Ht Hts IH]; [done|].
  intros Hr Hg. apply IH.
  - destruct (turn_commits_cases _ _ _ _ Ht)
      as [[_ ->]|(p & p' & action & amount & _ & Hc & _)]; [done|].
    destruct Hc as (_ & _ & _ & -> & _). done.
  - apply (Hturn k g); [done|]. by rewrite Hr.
Qed.

Lemma run_operations_inv_round (str_strip str_lower : string → string)
    (int_of_str : string → option Z) (str_repr : string → string)
    (P : Game → Prop) (g : Game) (ops : list operation) :
  (∀ k g g', P g → turn_commits (round g) k g g' → P g') →
  (∀ g, P g → P (next_round g)) →
  (∀ winner_name g, P g → P (set_winner str_repr winner_name g).1) →
  P g → P (run_operations str_strip str_lower int_of_str str_repr g ops).
Proof.
  intros Hturn Hnext Hwin.
  revert g. induction ops as [|op ops IH]; intros g Hg; [done|].
  simpl. apply IH. destruct op as [inp|winner_name]; simpl; [|by apply Hwin].
  unfold record_round.
  destruct (format_ints [round g]) as [u0|e0]; [|done].
  destruct (record_turns str_strip str_lower int_of_str (round g)
              (seq 0 (length (players g))) g inp)
    as [[g1 [u|e]] inp1] eqn:Hr;
    apply record_turns_outcome in Hr; simpl.
  - apply Hnext. by apply (turns_commit_round _ _ _ _ P Hturn Hr).
  - destruct Hr as (done & todo & _ & Hdone & _).
    by apply (turns_commit_round _ _ _ _ P Hturn Hdone).
Qed.

(** X17: in a game created by [Game.__init__], after any sequence of
    operations the history is in round order: the round numbers of its
    entries never decrease along the list, each one is at least 1 and at
    most the current round counter. *)
Theorem history_in_round_order (str_strip str_lower : string → string)
    (int_of_str : string → option Z) (str_repr : string → string)
    (players0 : list Player) (dealer0 big_blind0 small_blind0 : string)
    (base_unit0 : Z) (chip_denoms0 : list Z) (ops : list operation) :
  let g := run_operations str_strip str_lower int_of_str str_repr
             (Game_init players0 dealer0 big_blind0 small_blind0 base_unit0
                chip_denoms0) ops in
  1 ≤ round g
  ∧ (∀ e, e ∈ history g → 1 ≤ entry_round e ≤ round g)
  ∧ ∀ i j e1 e2, (i ≤ j)%nat →
      history g !! i = Some e1 → history g !! j = Some e2 →
      entry_round e1 ≤ entry_round e2.
Proof.
  cbv zeta.
  apply (run_operations_inv_round str_strip str_lower int_of_str str_repr
           (λ g, 1 ≤ round g
                 ∧ (∀ e, e ∈ history g → 1 ≤ entry_round e ≤ round g)
                 ∧ ∀ i j e1 e2, (i ≤ j)%nat →
                     history g !! i = Some e1 → history g !! j = Some e2 →
                     entry_round e1 ≤ entry_round e2)).
  - intros k g g' (Hr & Hb & Hord) Hturn.
    destruct (turn_commits_cases _ _ _ _ Hturn)
      as [[_ ->]|(p & p' & action & amount & _ & Hc & _)]; [done|].
    destruct Hc as (_ & Hh & _ & Hr' & _). rewrite Hh, Hr'.
    split; [done|]. split.
    + intros e [He|He]%elem_of_app; [by apply Hb|].
      apply list_elem_of_singleton in He as ->. simpl. lia.
    + intros i j e1 e2 Hij H1 H2.
      destruct (decide (j < length (history g))%nat) as [Hj|Hj].
      * rewrite lookup_app_l in H1 by lia. rewrite lookup_app_l in H2 by lia.
        exact (Hord i j e1 e2 Hij H1 H2).
      * rewrite lookup_app_r in H2 by lia.
        destruct (j - length (history g))%nat; [|done].
        simpl in H2. injection H2 as <-. simpl.
        destruct (decide (i < length (history g))%nat) as [Hi|Hi].
        -- rewrite lookup_app_l in H1 by lia.
           apply Hb. by eapply list_elem_of_lookup_2.
        -- rewrite lookup_app_r in H1 by lia.
           destruct (i - length (history g))%nat; [|done].
           simpl in H1. injection H1 as <-. simpl. lia.
  - intros g (Hr & Hb & Hord). simpl. split; [lia|]. split; [|done].
    intros e He. specialize (Hb e He). lia.
  - intros w g H. destruct (set_winner_frame str_repr w g) as (_ & _ & -> & -> & _).
    exact H.
  - simpl. split; [lia|]. split; [intros e He; by apply elem_of_nil in He|].
    intros i j e1 e2 _ H1. done.
Qed.

(** ** [set_winner] on any list of players *)

Lemma winner_nets_snoc (winner_name : string) (pot0 : Z) (ps : list Player)
    (p : Player) :
  winner_nets winner_name pot0 (ps ++ [p])
  = dict_set (winner_nets winner_name pot0 ps) (name p)
      (player_net winner_name pot0 p).
Proof. unfold winner_nets. rewrite foldl_app. reflexivity. Qed.

Lemma winner_nets_lookup (winner_name : string) (pot0 : Z) (ps : list Player)
    (player_name : string) :
  NoDup (winner_nets winner_name pot0 ps).*1
  ∧ (player_name ∈ (winner_nets winner_name pot0 ps).*1
     ↔ player_name ∈ map name ps)
  ∧ dict_get (winner_nets winner_name pot0 ps) player_name
    = player_net winner_name pot0 <$> last_named player_name ps.
Proof.
  unfold last_named.
  induction ps as [|p ps (IH1 & IH2 & IH3)] using rev_ind.
  - split; [apply NoDup_nil_2|]. split; [|done]. done.
  - rewrite winner_nets_snoc. split; [by apply dict_set_nodup|]. split.
    + rewrite dict_set_keys, map_app, elem_of_app, IH2. simpl.
      rewrite list_elem_of_singleton. split; intros [?|?]; auto.
    + rewrite dict_get_set, filter_app, filter_cons, filter_nil.
      destruct (decide (name p = player_name)) as [Heq|Hne].
      * by rewrite last_snoc.
      * by rewrite app_nil_r.
Qed.

(** X18: whatever the names of the players, equal or not, the net results
    stored by a successful [set_winner] form a dict whose keys are the
    player names; the entry of a name is the net of the last player entered
    under that name ([-total_bet], plus the pot when the name is the
    winner's), the earlier players of that name leaving no trace. *)
Theorem set_winner_last_player_wins (str_repr : string → string) (g g' : Game)
    (winner_name player_name : string) :
  set_winner str_repr winner_name g = (g', Ok ()) →
  winner_name ∈ map name (players g)
  ∧ NoDup (net_results g').*1
  ∧ (player_name ∈ (net_results g').*1 ↔ player_name ∈ map name (players g))
  ∧ dict_get (net_results g') player_name
    = (λ p, if decide (name p = winner_name)
            then pot g - total_bet p else - total_bet p)
      <$> last_named player_name (players g).
Proof.
  unfold set_winner. destruct (decide _) as [Hin|]; [|done].
  intros [= <-]. simpl.
  destruct (winner_nets_lookup winner_name (pot g) (players g) player_name)
    as (H1 & H2 & H3).
  split; [done|]. split; [done|]. split; [done|].
  rewrite H3. destruct (last_named _ _) as [p|]; [|done]. simpl.
  unfold player_net. destruct (decide _); f_equal; lia.
Qed.

Lemma set_winner_last_player_wins_witness :
  ∃ g', set_winner quote_repr "A" same_name_game = (g', Ok ())
        ∧ dict_get (net_results g') "A" = Some 10.
Proof.
  eexists. split; [reflexivity|].
  destruct (set_winner_last_player_wins quote_repr same_name_game _ "A" "A"
              eq_refl) as (_ & _ & _ & H).
  rewrite H. reflexivity.
Defined.

(** ** Play does not read the stored result *)

Section ResultIgnored.

Variables (str_strip str_lower : string → string)
          (int_of_str : string → option Z)
          (str_repr : string → string).

Local Abbreviation bet_attempt' := (bet_attempt str_strip str_lower int_of_str).
Local Abbreviation bet_loop' := (bet_loop str_strip str_lower int_of_str).
Local Abbreviation record_turn' := (record_turn str_strip str_lower int_of_str).
Local Abbreviation record_turns' := (record_turns str_strip str_lower int_of_str).
Local Abbreviation record_round' := (record_round str_strip str_lower int_of_str).
Local Abbreviation set_winner' := (set_winner str_repr).
Local Abbreviation run_operations' :=
  (run_operations str_strip str_lower int_of_str str_repr).

Variables (winner0 : option string) (nets : list (string * Z)).

Local Abbreviation put := (with_result winner0 nets).

Lemma set_override_with_result (k : nat) (g : Game) :
  set_override k (put g) = put (set_override k g).
Proof. unfold set_override. simpl. by destruct (players g !! k). Qed.

Lemma commit_with_result (round_no : Z) (k : nat) (action : string) (amount : Z)
    (g : Game) :
  commit round_no k action amount (put g) = put (commit round_no k action amount g).
Proof. unfold commit. simpl. by destruct (players g !! k). Qed.

Lemma bet_attempt_with_result (k : nat) (g : Game) (inp : list string) :
  bet_attempt' k (put g) inp
  = let '(g1, s, rest) := bet_attempt' k g inp in (put g1, s, rest).
Proof.
  unfold bet_attempt. simpl.
  destruct (format_ints (chip_denoms g)) as [u0|e0]; [|done].
  destruct (read_denoms _ _ _ _ _) as [[u|e] inp1]; [|done].
  destruct (players g !! k) as [p|]; [|done].
  destruct (_ <? _); [|done].
  destruct (format_ints [_; _]) as [u1|e1]; [|done].
  destruct inp1 as [|line inp2]; [done|].
  destruct (decide _); [|done]. by rewrite set_override_with_result.
Qed.

Lemma bet_loop_with_result (fuel k : nat) (g : Game) (inp : list string) :
  bet_loop' fuel k (put g) inp
  = let '(g1, r, rest) := bet_loop' fuel k g inp in (put g1, r, rest).
Proof.
  revert g inp. induction fuel as [|fuel IH]; intros g inp; [done|].
  simpl. rewrite bet_attempt_with_result.
  destruct (bet_attempt' k g inp) as [[g1 [amount| |e]] inp1]; try done;
    try apply IH.
Qed.

Lemma record_turn_with_result (round_no : Z) (k : nat) (g : Game)
    (inp : list string) :
  record_turn' round_no k (put g) inp
  = let '(g1, r, rest) := record_turn' round_no k g inp in (put g1, r, rest).
Proof.
  unfold record_turn. destruct inp as [|line inp1]; [done|].
  destruct (is_betting _).
  - rewrite bet_loop_with_result.
    destruct (bet_loop' _ k g inp1) as [[g1 [amount|e]] inp2]; [|done].
    by rewrite commit_with_result.
  - by rewrite commit_with_result.
Qed.

Lemma record_turns_with_result (round_no : Z) (ks : list nat) (g : Game)
    (inp : list string) :
  record_turns' round_no ks (put g) inp
  = let '(g1, r, rest) := record_turns' round_no ks g inp in (put g1, r, rest).
Proof.
  revert g inp. induction ks as [|k ks IH]; intros g inp; [done|].
  simpl. rewrite record_turn_with_result.
  destruct (record_turn' round_no k g inp) as [[g1 [u|e]] inp1]; try done;
    try apply IH.
Qed.

Lemma record_round_with_result (g : Game) (inp : list string) :
  record_round' (put g) inp
  = let '(g1, r, rest) := record_round' g inp in (put g1, r, rest).
Proof.
  unfold record_round. simpl.
  destruct (format_ints [round g]) as [u0|e0]; [|done].
  rewrite record_turns_with_result.
  by destruct (record_turns' _ _ g inp) as [[g1 [u|e]] inp1].
Qed.

End ResultIgnored.

Lemma set_winner_with_result (str_repr : string → string)
    (winner0 : option string) (nets : list (string * Z))
    (winner_name : string) (g : Game) :
  winner_name ∈ map name (players g) →
  set_winner str_repr winner_name (with_result winner0 nets g)
  = set_winner str_repr winner_name g.
Proof.
  intros Hin. unfold set_winner. simpl. by rewrite !decide_True.
Qed.

Lemma set_winner_is_with_result (str_repr : string → string)
    (winner_name : string) (g : Game) :
  ∃ winner0 nets, (set_winner str_repr winner_name g).1 = with_result winner0 nets g.
Proof.
  unfold set_winner. destruct (decide _).
  - by eexists _, _.
  - exists (winner g), (net_results g). by destruct g.
Qed.

Lemma rounds_with_result (str_strip str_lower : string → string)
    (int_of_str : string → option Z) (str_repr : string → string)
    (winner0 : option string) (nets : list (string * Z))
    (rounds : list (list string)) (g : Game) :
  run_operations str_strip str_lower int_of_str str_repr
    (with_result winner0 nets g) (map RecordRound rounds)
  = with_result winner0 nets
      (run_operations str_strip str_lower int_of_str str_repr g
         (map RecordRound rounds)).
Proof.
  revert g. induction rounds as [|inp rounds IH]; intros g; [done|].
  simpl. rewrite record_round_with_result.
  destruct (record_round str_strip str_lower int_of_str g inp) as [[g1 r] rest].
  simpl. apply IH.
Qed.

(** X19: the winner and the net results stored by a call of [set_winner]
    are not read by round recording and are replaced as a whole by the next
    successful call: recording further rounds after a first [set_winner] and
    then calling [set_winner] again gives the same game as recording these
    rounds without the first call.  With no round in between, calling
    [set_winner] twice is the same as calling it the second time only. *)
Theorem set_winner_overwrites (str_strip str_lower : string → string)
    (int_of_str : string → option Z) (str_repr : string → string)
    (g : Game) (first second : string) (rounds : list (list string)) :
  let play := λ g0, run_operations str_strip str_lower int_of_str str_repr g0
                      (map RecordRound rounds) in
  second ∈ map name (players (play g)) →
  set_winner str_repr second (play (set_winner str_repr first g).1)
  = set_winner str_repr second (play g).
Proof.
  intros play Hin.
  destruct (set_winner_is_with_result str_repr first g) as (w0 & nets & ->).
  unfold play. rewrite rounds_with_result.
  by apply set_winner_with_result.
Qed.

Lemma set_winner_overwrites_witness :
  set_winner quote_repr "B" (set_winner quote_repr "A" two_player_game).1
  = set_winner quote_repr "B" two_player_game.
Proof.
  apply (set_winner_overwrites ascii_strip ascii_lower decimal_int quote_repr
           two_player_game "A" "B" []).
  apply (bool_decide_unpack _). vm_compute. exact I.
Defined.

(** ** The setup of a game *)

Lemma choose_role_result (player_names inp rest : list string) (r : result string) :
  choose_role player_names inp = (r, rest) →
  (length rest ≤ length inp)%nat
  ∧ match r with
    | Ok role => role ∈ player_names ∧ (length rest < length inp)%nat
    | Raise e => e = EOFError ∧ rest = []
    end.
Proof.
  revert rest r. induction inp as [|name0 inp IH]; intros rest r; simpl.
  - intros [= <- <-]. done.
  - destruct (decide (name0 ∈ player_names)).
    + intros [= <- <-]. split; [lia|]. split; [done | lia].
    + intros Hrec. destruct (IH _ _ Hrec) as [Hle Hr]. split; [lia|].
      destruct r; [|done]. split; [tauto | lia].
Qed.

Section SetupProofs.

Variables (int_of_str : string → option Z) (empty_min_message : string).

Local Abbreviation read_num_players' := (read_num_players int_of_str).
Local Abbreviation read_stack' := (read_stack int_of_str).
Local Abbreviation read_player_configs' := (read_player_configs int_of_str).
Local Abbreviation setup_game' := (setup_game int_of_str empty_min_message).

Lemma read_num_players_result (inp rest : list string) (r : result Z) :
  read_num_players' inp = (r, rest) →
  (length rest ≤ length inp)%nat
  ∧ match r with
    | Ok num_players => 2 ≤ num_players ∧ (length rest < length inp)%nat
    | Raise e => e = EOFError ∧ rest = []
    end.
Proof.
  revert rest r. induction inp as [|line inp IH]; intros rest r; simpl.
  - intros [= <- <-]. done.
  - destruct (int_of_str line) as [n|].
    + destruct (Z.ltb_spec n 2).
      * intros Hrec. destruct (IH _ _ Hrec) as [Hle Hr]. split; [lia|].
        destruct r; [|done]. split; [tauto | lia].
      * intros [= <- <-]. split; [lia|]. split; [done | lia].
    + intros Hrec. destruct (IH _ _ Hrec) as [Hle Hr]. split; [lia|].
      destruct r; [|done]. split; [tauto | lia].
Qed.

Lemma read_stack_result (inp rest : list string) (r : result Z) :
  read_stack' inp = (r, rest) →
  (length rest ≤ length inp)%nat
  ∧ match r with
    | Ok stack0 => 0 < stack0 ∧ (length rest < length inp)%nat
    | Raise e => e = EOFError ∧ rest = []
    end.
Proof.
  revert rest r. induction inp as [|line inp IH]; intros rest r; simpl.
  - intros [= <- <-]. done.
  - destruct (int_of_str line) as [n|].
    + destruct (Z.leb_spec n 0).
      * intros Hrec. destruct (IH _ _ Hrec) as [Hle Hr]. split; [lia|].
        destruct r; [|done]. split; [tauto | lia].
      * intros [= <- <-]. split; [lia|]. split; [done | lia].
    + intros Hrec. destruct (IH _ _ Hrec) as [Hle Hr]. split; [lia|].
      destruct r; [|done]. split; [tauto | lia].
Qed.

Lemma read_player_configs_result (n : nat) (acc : list (string * Z))
    (inp rest : list string) (r : result (list (string * Z))) :
  read_player_configs' n acc inp = (r, rest) →
  (length rest ≤ length inp)%nat
  ∧ match r with
    | Ok player_configs =>
        ∃ new, player_configs = acc ++ new ∧ length new = n
               ∧ Forall (λ c : string * Z, 0 < c.2) new
    | Raise e => e = EOFError ∧ rest = []
    end.
Proof.
  revert acc inp. induction n as [|n IH]; intros acc inp; simpl.
  - intros [= <- <-]. split; [done|]. exists []. by rewrite app_nil_r.
  - destruct inp as [|name0 inp1]; [intros [= <- <-]; done|].
    destruct (read_stack' inp1) as [[stack0|e] inp2] eqn:Hs;
      apply read_stack_result in Hs as [Hle Hs].
    + intros Hrec. destruct (IH _ _ Hrec) as [Hle' Hr]. split; [simpl; lia|].
      destruct r as [configs|e]; [|done].
      destruct Hr as (new & -> & Hlen & Hpos).
      exists ((name0, stack0) :: new). rewrite <- app_assoc. simpl.
      repeat split; [lia|]. constructor; [simpl; tauto | done].
    + intros [= <- <-]. split; [simpl; lia | done].
Qed.

Lemma foldl_min_spec (x : Z) (l : list Z) :
  foldl Z.min x l ∈ x :: l ∧ Forall (λ y, foldl Z.min x l ≤ y) (x :: l).
Proof.
  revert x. induction l as [|y l IH]; intros x; simpl.
  - split; [left | repeat constructor; lia].
  - destruct (IH (Z.min x y)) as [Hin Hall].
    inversion Hall as [|? ? Hle Hall']; subst. split.
    + apply elem_of_cons in Hin as [Heq|Hin].
      * rewrite Heq. destruct (Z.min_spec x y) as [[_ ->]|[_ ->]];
          [left | right; left].
      * right. by right.
    + constructor; [lia|]. constructor; [lia | done].
Qed.

Lemma chip_mapping_result (min_stack unit0 : Z) (denoms : list Z) :
  chip_mapping min_stack = Ok (unit0, denoms) →
  1 ≤ unit0 ∧ denoms = [1; 5; 25; 100].
Proof.
  unfold chip_mapping.
  destruct (float_of_int min_stack) as [x|e]; [|done]. cbv zeta.
  destruct (Z.ltb_spec (Z.quot x 4 / 100) 1);
    intros [= <- <-]; split; try done; lia.
Qed.

Lemma chip_mapping_raises (min_stack : Z) (e : exn) :
  chip_mapping min_stack = Raise e → e = OverflowError.
Proof.
  unfold chip_mapping, float_of_int. cbv zeta.
  destruct (2 ^ 1024 <=? _); [by intros [= <-] | done].
Qed.

(** What a successful setup returns, whatever the cache. *)
Lemma setup_game_ok (cache cache' : option (list (string * Z))) (g : Game)
    (inp rest : list string) :
  setup_game' cache inp = (cache', Ok g, rest) →
  ∃ player_configs min_stack,
    cache' = Some player_configs
    ∧ (∀ cached, cache = Some cached → player_configs = cached)
    ∧ (cache = None →
         (2 ≤ length player_configs)%nat
         ∧ Forall (λ c : string * Z, 0 < c.2) player_configs)
    ∧ min_stack ∈ map snd player_configs
    ∧ Forall (λ c : string * Z, min_stack ≤ c.2) player_configs
    ∧ chip_mapping min_stack = Ok (base_unit g, chip_denoms g)
    ∧ g = Game_init (fresh_players player_configs) (dealer g) (big_blind g)
            (small_blind g) (base_unit g) (chip_denoms g)
    ∧ dealer g ∈ map fst player_configs
    ∧ big_blind g ∈ map fst player_configs
    ∧ small_blind g ∈ map fst player_configs
    ∧ (length rest + 3 ≤ length inp)%nat.
Proof.
  unfold setup_game.
  set (first := match cache with
                | None => _
                | Some player_configs => _
                end).
  destruct first as [[configs|e] inp1] eqn:Hfirst; [|done].
  assert (Hcfg : (∀ cached, cache = Some cached → configs = cached)
                 ∧ (cache = None → (2 ≤ length configs)%nat
                      ∧ Forall (λ c : string * Z, 0 < c.2) configs)
                 ∧ (length inp1 ≤ length inp)%nat).
  { subst first. destruct cache as [cached|].
    - injection Hfirst as <- <-. split; [by intros ? [= <-]|]. done.
    - destruct (read_num_players' inp) as [[n|e] inp0] eqn:Hn; [|done].
      apply read_num_players_result in Hn as [Hle [Hn _]].
      apply read_player_configs_result in Hfirst as [Hle' (new & -> & Hlen & Hpos)].
      split; [done|]. split; [|lia]. intros _. simpl. split; [lia | done]. }
  destruct Hcfg as (Hcached & Hfresh & Hle1).
  unfold min_stack_of.
  destruct configs as [|[n0 s0] configs]; [done|].
  destruct (chip_mapping _) as [[bu dn]|e] eqn:Hchip; [|done].
  destruct (choose_role _ inp1) as [[d|e] inp2] eqn:H1; [|done].
  destruct (choose_role _ inp2) as [[b|e] inp3] eqn:H2; [|done].
  destruct (choose_role _ inp3) as [[s|e] inp4] eqn:H3; [|done].
  intros [= <- <- <-]. simpl.
  apply choose_role_result in H1 as [_ [H1 L1]].
  apply choose_role_result in H2 as [_ [H2 L2]].
  apply choose_role_result in H3 as [_ [H3 L3]].
  destruct (foldl_min_spec s0 (map snd configs)) as [Hmin Hall].
  exists ((n0, s0) :: configs), (foldl Z.min s0 (map snd configs)).
  split; [done|]. split; [done|]. split; [done|]. split; [done|].
  split.
  { inversion Hall as [|? ? Hle0 Hall']; subst.
    constructor; [exact Hle0|].
    revert Hall'. generalize (foldl Z.min s0 (map snd configs)). intros m Hall'.
    clear -Hall'. induction configs as [|c cs IHc]; [constructor|].
    inversion Hall'; subst. constructor; [done | by apply IHc]. }
  repeat split; try done. lia.
Qed.

End SetupProofs.

(** X20: when the first [_setup_game] of a session returns, the
    configuration it cached has at least two players, each with a positive
    starting stack; the game holds these players in the order entered, with
    untouched ledgers, pot 0, round 1, no history and no winner; the three
    roles name players of the game; the denominations are [[1, 5, 25, 100]]
    and the base unit, at least 1, is the chip mapping of the smallest
    starting stack. *)
Theorem setup_game_validates (int_of_str : string → option Z)
    (empty_min_message : string) (cache' : option (list (string * Z)))
    (g : Game) (inp rest : list string) :
  setup_game int_of_str empty_min_message None inp = (cache', Ok g, rest) →
  ∃ player_configs min_stack,
    cache' = Some player_configs
    ∧ (2 ≤ length player_configs)%nat
    ∧ Forall (λ c : string * Z, 0 < c.2) player_configs
    ∧ players g = fresh_players player_configs
    ∧ pot g = 0 ∧ round g = 1 ∧ history g = [] ∧ winner g = None
    ∧ net_results g = []
    ∧ dealer g ∈ map name (players g)
    ∧ big_blind g ∈ map name (players g)
    ∧ small_blind g ∈ map name (players g)
    ∧ min_stack ∈ map snd player_configs
    ∧ Forall (λ c : string * Z, min_stack ≤ c.2) player_configs
    ∧ chip_mapping min_stack = Ok (base_unit g, chip_denoms g)
    ∧ 1 ≤ base_unit g
    ∧ chip_denoms g = [1; 5; 25; 100].
Proof.
  intros Hsetup.
  destruct (setup_game_ok _ _ _ _ _ _ _ Hsetup)
    as (configs & min_stack & Hc & _ & Hnew & Hmin & Hall & Hchip & Hg
        & Hd & Hb & Hs & _).
  destruct (Hnew eq_refl) as [Hlen Hpos].
  destruct (chip_mapping_result _ _ _ Hchip) as [Hbu Hdn].
  destruct (fresh_players_total_bet configs) as [_ Hnames].
  exists configs, min_stack. rewrite Hg. simpl. rewrite Hnames.
  repeat split; try done.
Qed.

Lemma setup_game_validates_witness :
  let g := Game_init (fresh_players [("A", 100); ("B", 50)]) "A" "B" "A" 1
             [1; 5; 25; 100] in
  setup_game decimal_int "empty" None
    ["2"; "A"; "100"; "B"; "0"; "50"; "A"; "B"; "A"]
  = (Some [("A", 100); ("B", 50)], Ok g, [])
  ∧ 1 ≤ base_unit g.
Proof.
  intros g.
  assert (Hs : setup_game decimal_int "empty" None
                 ["2"; "A"; "100"; "B"; "0"; "50"; "A"; "B"; "A"]
               = (Some [("A", 100); ("B", 50)], Ok g, []))
    by (vm_compute; reflexivity).
  split; [exact Hs|].
  destruct (setup_game_validates decimal_int "empty" _ _ _ _ Hs)
    as (configs & min_stack & H). apply H.
Defined.

(** X21: a later [_setup_game] of the session, which finds a cached
    configuration, leaves the cache as it is whatever happens and reads no
    player again: the lines it consumes are those of the three role
    questions, and when it returns the new game holds the cached players
    with untouched ledgers and an empty pot. *)
Theorem setup_game_reuses_configuration (int_of_str : string → option Z)
    (empty_min_message : string) (cached : list (string * Z))
    (cache' : option (list (string * Z))) (r : result Game)
    (inp rest : list string) :
  setup_game int_of_str empty_min_message (Some cached) inp = (cache', r, rest) →
  cache' = Some cached
  ∧ ∀ g, r = Ok g →
      g = Game_init (fresh_players cached) (dealer g) (big_blind g)
            (small_blind g) (base_unit g) (chip_denoms g)
      ∧ ∃ inp2 inp3,
          choose_role (map fst cached) inp = (Ok (dealer g), inp2)
          ∧ choose_role (map fst cached) inp2 = (Ok (big_blind g), inp3)
          ∧ choose_role (map fst cached) inp3 = (Ok (small_blind g), rest).
Proof.
  unfold setup_game.
  destruct (min_stack_of empty_min_message cached) as [min_stack|e];
    [|by intros [= <- <- <-]].
  destruct (chip_mapping min_stack) as [[bu dn]|e]; [|by intros [= <- <- <-]].
  destruct (choose_role _ inp) as [[d|e] inp2] eqn:H1; [|by intros [= <- <- <-]].
  destruct (choose_role _ inp2) as [[b|e] inp3] eqn:H2; [|by intros [= <- <- <-]].
  destruct (choose_role _ inp3) as [[s|e] inp4] eqn:H3; [|by intros [= <- <- <-]].
  intros [= <- <- <-]. split; [done|]. intros g [= <-]. simpl.
  split; [done|]. by exists inp2, inp3.
Qed.

Lemma setup_game_reuses_configuration_witness :
  setup_game decimal_int "empty" (Some [("A", 100); ("B", 50)])
    ["C"; "B"; "A"; "A"]
  = (Some [("A", 100); ("B", 50)],
     Ok (Game_init (fresh_players [("A", 100); ("B", 50)]) "B" "A" "A" 1
           [1; 5; 25; 100]), [])
  ∧ ∃ inp2, choose_role ["A"; "B"] ["C"; "B"; "A"; "A"] = (Ok "B", inp2).
Proof.
  assert (Hs : setup_game decimal_int "empty" (Some [("A", 100); ("B", 50)])
                 ["C"; "B"; "A"; "A"]
               = (Some [("A", 100); ("B", 50)],
                  Ok (Game_init (fresh_players [("A", 100); ("B", 50)])
                        "B" "A" "A" 1 [1; 5; 25; 100]), []))
    by (vm_compute; reflexivity).
  split; [exact Hs|].
  destruct (setup_game_reuses_configuration decimal_int "empty" _ _ _ _ _ Hs)
    as [_ H].
  destruct (H _ eq_refl) as [_ (inp2 & _ & Hd & _)].
  exists inp2. exact Hd.
Defined.

(** X22: the first [_setup_game] of a session never fails on a bad line:
    a line that is no integer, a player count below 2, a stack that is not
    positive and a role that is no player name are asked again.  It raises
    only [EOFError], when the input runs out (all lines are then consumed),
    or [OverflowError], when the smallest stack is too large for a float. *)
Theorem setup_game_failures (int_of_str : string → option Z)
    (empty_min_message : string) (cache' : option (list (string * Z)))
    (e : exn) (inp rest : list string) :
  setup_game int_of_str empty_min_message None inp = (cache', Raise e, rest) →
  (e = EOFError ∧ rest = []) ∨ e = OverflowError.
Proof.
  unfold setup_game.
  destruct (read_num_players int_of_str inp) as [[n|e0] inp0] eqn:Hn.
  - apply read_num_players_result in Hn as [_ [Hn _]].
    destruct (read_player_configs int_of_str (Z.to_nat n) [] inp0)
      as [[configs|e1] inp1] eqn:Hc;
      apply read_player_configs_result in Hc as [_ Hc].
    + destruct Hc as (new & -> & Hlen & _). simpl.
      destruct new as [|[n0 s0] new]; [simpl in Hlen; lia|]. simpl.
      destruct (chip_mapping _) as [[bu dn]|e2] eqn:Hchip.
      * destruct (choose_role _ inp1) as [[d|e3] inp2] eqn:H1;
          apply choose_role_result in H1 as [_ H1];
          [|intros [= <- <- <-]; by left].
        destruct (choose_role _ inp2) as [[b|e4] inp3] eqn:H2;
          apply choose_role_result in H2 as [_ H2];
          [|intros [= <- <- <-]; by left].
        destruct (choose_role _ inp3) as [[s|e5] inp4] eqn:H3;
          apply choose_role_result in H3 as [_ H3];
          [done | intros [= <- <- <-]; by left].
      * intros [= <- <- <-]. right. by eapply chip_mapping_raises.
    + intros [= <- <- <-]. by left.
  - apply read_num_players_result in Hn as [_ Hn].
    intros [= <- <- <-]. by left.
Qed.

Lemma setup_game_failures_witness :
  setup_game decimal_int "empty" None ["2"; "A"; "100"; "B"]
  = (None, Raise EOFError, [])
  ∧ ((EOFError = EOFError ∧ @nil string = []) ∨ EOFError = OverflowError).
Proof.
  assert (Hs : setup_game decimal_int "empty" None ["2"; "A"; "100"; "B"]
               = (None, Raise EOFError, []))
    by (vm_compute; reflexivity).
  split; [exact Hs|].
  exact (setup_game_failures decimal_int "empty" _ _ _ _ Hs).
Defined.

(** ** The loops of a session *)

Section SessionLoops.

Variables (str_strip str_lower : string → string)
          (int_of_str : string → option Z)
          (str_repr : string → string).

Local Abbreviation bet_loop' := (bet_loop str_strip str_lower int_of_str).
Local Abbreviation record_turn' := (record_turn str_strip str_lower int_of_str).
Local Abbreviation record_turns' := (record_turns str_strip str_lower int_of_str).
Local Abbreviation record_round' := (record_round str_strip str_lower int_of_str).
Local Abbreviation rounds_loop' := (rounds_loop str_strip str_lower int_of_str).
Local Abbreviation winner_loop' := (winner_loop str_strip str_repr).
Local Abbreviation run_operations' :=
  (run_operations str_strip str_lower int_of_str str_repr).

Lemma bet_loop_length (fuel k : nat) (g g1 : Game) (inp rest : list string)
    (r : result Z) :
  bet_loop' fuel k g inp = (g1, r, rest) → (length rest ≤ length inp)%nat.
Proof.
  revert g inp. induction fuel as [|fuel IH]; intros g inp; simpl.
  - intros [= <- <- <-]. done.
  - destruct (bet_attempt str_strip str_lower int_of_str k g inp)
      as [[g2 s] inp1] eqn:Ha.
    destruct (bet_attempt_cases _ _ _ _ _ _ _ _ _ Ha) as (_ & Hle & _).
    destruct s as [amount| |e].
    + intros [= <- <- <-]. done.
    + intros Hrec. apply IH in Hrec. lia.
    + intros [= <- <- <-]. done.
Qed.

Lemma record_turn_length (round_no : Z) (k : nat) (g g1 : Game)
    (inp rest : list string) (r : result unit) :
  record_turn' round_no k g inp = (g1, r, rest) → (length rest ≤ length inp)%nat.
Proof.
  unfold record_turn. destruct inp as [|line inp1]; [by intros [= <- <- <-]|].
  destruct (is_betting _).
  - destruct (bet_loop' _ k g inp1) as [[g2 [amount|e]] inp2] eqn:Hb;
      apply bet_loop_length in Hb; intros [= <- <- <-]; simpl; lia.
  - intros [= <- <- <-]. simpl. lia.
Qed.

Lemma record_turns_length (round_no : Z) (ks : list nat) (g g1 : Game)
    (inp rest : list string) (r : result unit) :
  record_turns' round_no ks g inp = (g1, r, rest) → (length rest ≤ length inp)%nat.
Proof.
  revert g inp. induction ks as [|k ks IH]; intros g inp; simpl.
  - intros [= <- <- <-]. done.
  - destruct (record_turn' round_no k g inp) as [[g2 [u|e]] inp1] eqn:Ht;
      apply record_turn_length in Ht.
    + intros Hrec. apply IH in Hrec. lia.
    + intros [= <- <- <-]. done.
Qed.

Lemma record_round_length (g g1 : Game) (inp rest : list string) (r : result unit) :
  record_round' g inp = (g1, r, rest) → (length rest ≤ length inp)%nat.
Proof.
  unfold record_round.
  destruct (format_ints [round g]) as [u0|e0]; [|by intros [= <- <- <-]].
  destruct (record_turns' _ _ g inp) as [[g2 [u|e]] inp1] eqn:Ht;
    apply record_turns_length in Ht; by intros [= <- <- <-].
Qed.

(** The outcomes of the loop over the rounds. *)
Lemma rounds_loop_outcome (fuel : nat) (g g' : Game) (inp rest : list string)
    (r : result unit) :
  (length inp < fuel)%nat →
  rounds_loop' fuel g inp = (g', r, rest) →
  ∃ rounds : list (list string),
    rounds ≠ []
    ∧ g' = run_operations' g (map RecordRound rounds)
    ∧ match r with
      | Ok _ => round g' = round g + Z.of_nat (length rounds)
                ∧ (length rest < length inp)%nat
      | Raise e => (e = EOFError ∧ rest = []) ∨ e = int_str_error
      end.
Proof.
  revert g inp. induction fuel as [|fuel IH]; intros g inp Hfuel; [lia|]. simpl.
  destruct (record_round' g inp) as [[g1 [u|e]] inp1] eqn:Hr.
  - destruct u. pose proof (record_round_length _ _ _ _ _ Hr) as Hle.
    assert (Hg1 : g1 = run_operations' g [RecordRound inp])
      by (simpl; by rewrite Hr).
    apply (record_round_returns str_strip str_lower int_of_str) in Hr
      as (Hround & _).
    destruct inp1 as [|line inp2].
    + intros [= <- <- <-]. exists [inp]. split; [done|]. split; [done|].
      by left.
    + destruct (decide (str_lower (str_strip line) = "y")) as [Hyes|Hno].
      * intros Hrec. simpl in Hle.
        destruct (IH g1 inp2 ltac:(lia) Hrec) as (rounds & _ & Hg' & Hres).
        exists (inp :: rounds). split; [done|]. split.
        { rewrite Hg'. simpl. by rewrite Hg1. }
        destruct r as [u'|e]; [|done]. destruct Hres as [Hres Hlt].
        split; [|lia]. rewrite Hres, Hround. simpl length. lia.
      * intros [= <- <- <-]. exists [inp]. split; [done|]. split; [done|].
        simpl in *. split; lia.
  - assert (Hg1 : g1 = run_operations' g [RecordRound inp])
      by (simpl; by rewrite Hr).
    apply (record_round_raises str_strip str_lower int_of_str) in Hr
      as (He & _ & _ & new & _ & _ & Heof & _).
    intros [= <- <- <-]. exists [inp]. split; [done|]. split; [done|].
    destruct He as [->| ->]; [|by right]. left. split; [done|].
    by destruct (Heof eq_refl).
Qed.

(** X23: the loop over the rounds of a game always records a first round
    before it asks whether to go on.  When it returns, the game is the one
    reached by recording some rounds one after the other, at least one, all
    of them completed: the round counter has moved by their number.  It
    raises only [EOFError], with all lines consumed, or the [ValueError] of
    an integer too long to print, the game being left as those rounds (the
    last one possibly cut short) made it. *)
Theorem rounds_loop_result (fuel : nat) (g g' : Game) (inp rest : list string)
    (r : result unit) :
  (length inp < fuel)%nat →
  rounds_loop' fuel g inp = (g', r, rest) →
  ∃ rounds : list (list string),
    rounds ≠ []
    ∧ g' = run_operations' g (map RecordRound rounds)
    ∧ match r with
      | Ok _ => round g' = round g + Z.of_nat (length rounds)
                ∧ (length rest < length inp)%nat
      | Raise e => (e = EOFError ∧ rest = []) ∨ e = int_str_error
      end.
Proof. apply rounds_loop_outcome. Qed.

Lemma rounds_loop_fuel (fuel1 fuel2 : nat) (g : Game) (inp : list string) :
  (length inp < fuel1)%nat → (length inp < fuel2)%nat →
  rounds_loop' fuel1 g inp = rounds_loop' fuel2 g inp.
Proof.
  revert fuel2 g inp. induction fuel1 as [|fuel1 IH]; intros fuel2 g inp H1 H2;
    [lia|].
  destruct fuel2 as [|fuel2]; [lia|]. simpl.
  destruct (record_round' g inp) as [[g1 [u|e]] inp1] eqn:Hr; [|done].
  apply record_round_length in Hr.
  destruct inp1 as [|line inp2]; [done|].
  destruct (decide _); [|done]. simpl in Hr. apply IH; lia.
Qed.

Lemma rounds_loop_S (fuel : nat) (g : Game) (inp : list string) :
  rounds_loop' (S fuel) g inp
  = match record_round' g inp with
    | (g1, Raise e, inp1) => (g1, Raise e, inp1)
    | (g1, Ok _, []) => (g1, Raise EOFError, [])
    | (g1, Ok _, line :: inp2) =>
        if decide (str_lower (str_strip line) = "y")
        then rounds_loop' fuel g1 inp2
        else (g1, Ok (), inp2)
    end.
Proof. reflexivity. Qed.

(** The loop equation of the loop over the rounds. *)
Lemma rounds_loop_unfold (g : Game) (inp : list string) :
  rounds_loop' (S (length inp)) g inp
  = match record_round' g inp with
    | (g1, Raise e, inp1) => (g1, Raise e, inp1)
    | (g1, Ok _, []) => (g1, Raise EOFError, [])
    | (g1, Ok _, line :: inp2) =>
        if decide (str_lower (str_strip line) = "y")
        then rounds_loop' (S (length inp2)) g1 inp2
        else (g1, Ok (), inp2)
    end.
Proof.
  rewrite (rounds_loop_S (length inp)).
  destruct (record_round' g inp) as [[g1 [u|e]] inp1] eqn:Hr; [|done].
  apply record_round_length in Hr.
  destruct inp1 as [|line inp2]; [done|].
  destruct (decide _); [|done]. simpl in Hr. apply rounds_loop_fuel; lia.
Qed.

(** The outcomes of the loop that asks for the winner. *)
Lemma winner_loop_outcome (g g' : Game) (inp rest : list string)
    (r : result unit) :
  winner_loop' g inp = (g', r, rest) →
  match r with
  | Ok _ =>
      ∃ skipped line,
        inp = skipped ++ line :: rest
        ∧ Forall (λ l, str_strip l ∉ map name (players g)) skipped
        ∧ str_strip line ∈ map name (players g)
        ∧ set_winner str_repr (str_strip line) g = (g', Ok ())
        ∧ winner g' = Some (str_strip line)
  | Raise e =>
      e = EOFError ∧ rest = [] ∧ g' = g
      ∧ Forall (λ l, str_strip l ∉ map name (players g)) inp
  end.
Proof.
  revert rest r. induction inp as [|line inp IH]; intros rest r; simpl.
  - intros [= <- <- <-]. done.
  - unfold set_winner at 1.
    destruct (decide (str_strip line ∈ map name (players g))) as [Hin|Hout].
    + intros [= <- <- <-]. exists [], line. simpl.
      unfold set_winner. rewrite decide_True by done. done.
    + intros Hrec. specialize (IH _ _ Hrec). destruct r as [u|e].
      * destruct IH as (skipped & l & -> & Hsk & Hl & Hset & Hw).
        exists (line :: skipped), l. repeat split; try done.
        by constructor.
      * destruct IH as (-> & -> & -> & Hall). repeat split; try done.
        by constructor.
Qed.

(** X24: the loop that asks for the winner skips every line whose stripped
    text is no player name, leaving the game as it is, and closes the game
    with the first line that names a player: the result is that of
    [set_winner] on that name.  With no such line it raises [EOFError] and
    the game is untouched. *)
Theorem winner_loop_result (g g' : Game) (inp rest : list string)
    (r : result unit) :
  winner_loop' g inp = (g', r, rest) →
  match r with
  | Ok _ =>
      ∃ skipped line,
        inp = skipped ++ line :: rest
        ∧ Forall (λ l, str_strip l ∉ map name (players g)) skipped
        ∧ str_strip line ∈ map name (players g)
        ∧ set_winner str_repr (str_strip line) g = (g', Ok ())
        ∧ winner g' = Some (str_strip line)
  | Raise e =>
      e = EOFError ∧ rest = [] ∧ g' = g
      ∧ Forall (λ l, str_strip l ∉ map name (players g)) inp
  end.
Proof. apply winner_loop_outcome. Qed.

End SessionLoops.

Lemma winner_loop_result_witness:
  ∃ line,
    ascii_strip line ∈ map name (players two_player_game)
    ∧ winner (winner_loop ascii_strip quote_repr two_player_game
                ["Carol"; " B "; "x"]).1.1
      = Some (ascii_strip line).
Proof.
  assert (Hw : winner_loop ascii_strip quote_repr two_player_game
                 ["Carol"; " B "; "x"]
               = ((set_winner quote_repr "B" two_player_game).1, Ok (), ["x"]))
    by (vm_compute; reflexivity).
  destruct (winner_loop_result ascii_strip quote_repr _ _ _ _ _ Hw)
    as (skipped & line & _ & _ & Hin & _ & Hwin).
  exists line. split; [exact Hin|]. rewrite Hw. exact Hwin.
Defined.

Lemma rounds_loop_result_witness :
  ∃ rounds,
    (rounds_loop ascii_strip ascii_lower decimal_int 7 two_player_game
       ["fold"; "check"; "y"; "fold"; "fold"; "n"]).1.1
    = run_operations ascii_strip ascii_lower decimal_int quote_repr
        two_player_game (map RecordRound rounds).
Proof.
  destruct (rounds_loop ascii_strip ascii_lower decimal_int 7 two_player_game
              ["fold"; "check"; "y"; "fold"; "fold"; "n"])
    as [[g' r] rest] eqn:Hr.
  destruct (rounds_loop_result ascii_strip ascii_lower decimal_int quote_repr
              7 two_player_game g'
              ["fold"; "check"; "y"; "fold"; "fold"; "n"] rest r)
    as (rounds & _ & Hg & _).
  - simpl. lia.
  - exact Hr.
  - exists rounds. exact Hg.
Defined.

(** ** A whole session *)

Section SessionProofs.

Variables (str_strip str_lower : string → string)
          (int_of_str : string → option Z)
          (str_repr : string → string)
          (empty_min_message : string).

Local Abbreviation setup_game' := (setup_game int_of_str empty_min_message).
Local Abbreviation rounds_loop' := (rounds_loop str_strip str_lower int_of_str).
Local Abbreviation winner_loop' := (winner_loop str_strip str_repr).
Local Abbreviation play_game' :=
  (play_game str_strip str_lower int_of_str str_repr empty_min_message).
Local Abbreviation games_loop' :=
  (games_loop str_strip str_lower int_of_str str_repr empty_min_message).
Local Abbreviation run_session' :=
  (run_session str_strip str_lower int_of_str str_repr empty_min_message).
Local Abbreviation session_game' :=
  (session_game str_strip str_lower int_of_str str_repr).
Local Abbreviation session_state' :=
  (session_state str_strip str_lower int_of_str str_repr).

Lemma setup_game_raises (cache cache' : option (list (string * Z))) (e : exn)
    (inp rest : list string) :
  (∀ cached, cache = Some cached → cached ≠ []) →
  setup_game' cache inp = (cache', Raise e, rest) →
  (length rest ≤ length inp)%nat
  ∧ ((e = EOFError ∧ rest = []) ∨ e = OverflowError).
Proof.
  intros Hcache. unfold setup_game.
  set (first := match cache with
                | None => _
                | Some player_configs => _
                end).
  destruct first as [[configs|e0] inp1] eqn:Hfirst.
  - assert (Hcfg : configs ≠ [] ∧ (length inp1 ≤ length inp)%nat).
    { subst first. destruct cache as [cached|].
      - injection Hfirst as <- <-. split; [by apply Hcache | done].
      - destruct (read_num_players int_of_str inp) as [[n|e0] inp0] eqn:Hn;
          [|done].
        apply read_num_players_result in Hn as [Hle [Hn _]].
        apply read_player_configs_result in Hfirst
          as [Hle' (new & -> & Hlen & _)].
        split; [|lia]. destruct new; [simpl in Hlen; lia | done]. }
    destruct Hcfg as [Hne Hle1]. unfold min_stack_of.
    destruct configs as [|[n0 s0] configs]; [done|].
    destruct (chip_mapping _) as [[bu dn]|e2] eqn:Hchip.
    + destruct (choose_role _ inp1) as [[d|e3] inp2] eqn:H1;
        apply choose_role_result in H1 as [L1 H1];
        [|intros [= <- <- <-]; split; [lia | by left]].
      destruct (choose_role _ inp2) as [[b|e4] inp3] eqn:H2;
        apply choose_role_result in H2 as [L2 H2];
        [|intros [= <- <- <-]; split; [lia | by left]].
      destruct (choose_role _ inp3) as [[s|e5] inp4] eqn:H3;
        apply choose_role_result in H3 as [L3 H3];
        [done | intros [= <- <- <-]; split; [lia | by left]].
    + intros [= <- <- <-]. split; [done|]. right. by eapply chip_mapping_raises.
  - assert (Hcfg : e0 = EOFError ∧ inp1 = []).
    { subst first. destruct cache as [cached|]; [done|].
      destruct (read_num_players int_of_str inp) as [[n|e1] inp0] eqn:Hn.
      - by apply read_player_configs_result in Hfirst as [_ Hfirst].
      - apply read_num_players_result in Hn as [_ Hn].
        by injection Hfirst as <- <-. }
    destruct Hcfg as [-> ->]. intros [= <- <- <-]. split; [simpl; lia | by left].
Qed.

Lemma play_game_result (app app' : App) (inp rest : list string)
    (r : result bool) :
  session_state' app →
  play_game' app inp = (app', r, rest) →
  match r with
  | Ok _ => session_state' app' ∧ app_games app' ≠ []
            ∧ app_player_configs app' ≠ None
            ∧ (length rest < length inp)%nat
  | Raise e => (e = EOFError ∧ rest = []) ∨ e = OverflowError
               ∨ e = int_str_error
  end.
Proof.
  intros Hstate. unfold play_game.
  destruct (setup_game' (app_player_configs app) inp)
    as [[cache' [g0|e0]] inp1] eqn:Hsetup.
  - destruct (setup_game_ok _ _ _ _ _ _ _ Hsetup)
      as (configs & min_stack & -> & Hcached & Hnew & _ & _ & Hchip & Hg0
          & _ & _ & _ & Hlen1).
    destruct (chip_mapping_result _ _ _ Hchip) as [Hbu Hdn].
    assert (Hcfg : (2 ≤ length configs)%nat
                   ∧ Forall (λ c : string * Z, 0 < c.2) configs
                   ∧ Forall (session_game' configs) (app_games app)).
    { unfold session_state in Hstate.
      destruct (app_player_configs app) as [cached|].
      - by rewrite (Hcached cached eq_refl).
      - destruct (Hnew eq_refl) as [? ?]. rewrite Hstate. by repeat split. }
    destruct Hcfg as (Hlen & Hpos & Hgames).
    destruct (rounds_loop' (S (length inp1)) g0 inp1)
      as [[g1 [u|e1]] inp2] eqn:Hrounds;
      apply (rounds_loop_outcome str_strip str_lower int_of_str str_repr) in Hrounds
        as (rounds & Hne & Hg1 & Hres); try lia.
    + destruct Hres as [_ Hlen2].
      destruct (winner_loop' g1 inp2) as [[g2 [u'|e2]] inp3] eqn:Hwin;
        apply winner_loop_outcome in Hwin.
      * destruct Hwin as (skipped & line & Hinp2 & _ & Hin & Hset & _).
        assert (Hlen3 : (length inp3 < length inp2)%nat).
        { rewrite Hinp2, length_app. simpl. lia. }
        destruct (summarise g2) as [u2|e2] eqn:Hsum.
        2: { intros [= <- <- <-]. right. right.
             by apply format_ints_raises in Hsum. }
        destruct inp3 as [|answer inp4];
          [intros [= <- <- <-]; by left|].
        intros [= <- <- <-]. simpl.
        split; [|split; [|split; [done|simpl in *; lia]]].
        -- unfold session_state. simpl. split; [done|]. split; [done|].
           apply Forall_app. split; [done|]. constructor; [|constructor].
           exists (dealer g0), (big_blind g0), (small_blind g0), (base_unit g0),
             rounds, (str_strip line).
           split; [done|]. split; [done|].
           rewrite Hg1, Hg0, Hdn in Hin, Hset. simpl in Hin, Hset.
           split; [|exact Hset].
           destruct (fresh_game_invariant str_strip str_lower int_of_str str_repr
                       configs (dealer g0) (big_blind g0) (small_blind g0)
                       (base_unit g0) [1; 5; 25; 100] (map RecordRound rounds))
             as [_ Hnames].
           cbv zeta in Hnames. by rewrite <- Hnames.
        -- intros Heq. by apply app_nil in Heq as [_ ?].
      * destruct Hwin as (-> & -> & _). intros [= <- <- <-]. by left.
    + intros [= <- <- <-]. destruct Hres as [[-> ->]| ->]; [by left|].
      right. by right.
  - intros [= <- <- <-].
    apply setup_game_raises in Hsetup as [_ Hsetup];
      [destruct Hsetup as [Heof| ->]; [by left | right; by left]|].
    intros cached Hc. unfold session_state in Hstate. rewrite Hc in Hstate.
    destruct Hstate as [Hlen _]. intros ->. simpl in Hlen. lia.
Qed.

Lemma games_loop_result (fuel : nat) (app app' : App) (inp rest : list string)
    (r : result unit) :
  (length inp < fuel)%nat →
  session_state' app →
  games_loop' fuel app inp = (app', r, rest) →
  match r with
  | Ok _ => session_state' app' ∧ app_games app' ≠ []
            ∧ app_player_configs app' ≠ None
  | Raise e => (e = EOFError ∧ rest = []) ∨ e = OverflowError
               ∨ e = int_str_error
  end.
Proof.
  revert app inp. induction fuel as [|fuel IH]; intros app inp Hfuel Hstate;
    [lia|]. simpl.
  destruct (play_game' app inp) as [[app1 [again|e]] inp1] eqn:Hplay;
    apply (play_game_result _ _ _ _ _ Hstate) in Hplay.
  - destruct Hplay as (Hstate1 & Hne & Hcache & Hlen).
    destruct again.
    + apply IH; [lia | done].
    + intros [= <- <- <-]. done.
  - intros [= <- <- <-]. done.
Qed.

Lemma games_loop_fuel (fuel1 fuel2 : nat) (app : App) (inp : list string) :
  (length inp < fuel1)%nat → (length inp < fuel2)%nat →
  session_state' app →
  games_loop' fuel1 app inp = games_loop' fuel2 app inp.
Proof.
  revert fuel2 app inp. induction fuel1 as [|fuel1 IH];
    intros fuel2 app inp H1 H2 Hstate; [lia|].
  destruct fuel2 as [|fuel2]; [lia|]. simpl.
  destruct (play_game' app inp) as [[app1 [again|e]] inp1] eqn:Hplay; [|done].
  apply (play_game_result _ _ _ _ _ Hstate) in Hplay
    as (Hstate1 & _ & _ & Hlen).
  destruct again; [|done]. apply IH; [lia | lia | done].
Qed.

Lemma games_loop_S (fuel : nat) (app : App) (inp : list string) :
  games_loop' (S fuel) app inp
  = match play_game' app inp with
    | (app1, Ok true, inp1) => games_loop' fuel app1 inp1
    | (app1, Ok false, inp1) => (app1, Ok (), inp1)
    | (app1, Raise e, inp1) => (app1, Raise e, inp1)
    end.
Proof. reflexivity. Qed.

(** The loop equation of the loop over the games. *)
Lemma games_loop_unfold (app : App) (inp : list string) :
  session_state' app →
  games_loop' (S (length inp)) app inp
  = match play_game' app inp with
    | (app1, Ok true, inp1) => games_loop' (S (length inp1)) app1 inp1
    | (app1, Ok false, inp1) => (app1, Ok (), inp1)
    | (app1, Raise e, inp1) => (app1, Raise e, inp1)
    end.
Proof.
  intros Hstate. rewrite (games_loop_S (length inp)).
  destruct (play_game' app inp) as [[app1 [again|e]] inp1] eqn:Hplay; [|done].
  apply (play_game_result _ _ _ _ _ Hstate) in Hplay
    as (Hstate1 & _ & _ & Hlen).
  destruct again; [|done]. apply games_loop_fuel; [lia | lia | done].
Qed.

End SessionProofs.

Lemma session_game_finished (str_strip str_lower : string → string)
    (int_of_str : string → option Z) (str_repr : string → string)
    (player_configs : list (string * Z)) (g : Game) :
  NoDup (map fst player_configs) →
  session_game str_strip str_lower int_of_str str_repr player_configs g →
  finished_game str_strip str_lower int_of_str str_repr g.
Proof.
  intros Hnd (d & b & s & bu & rounds & w & _ & _ & _ & Hset).
  by exists player_configs, d, b, s, bu, [1; 5; 25; 100], (map RecordRound rounds), w.
Qed.

Lemma session_game_has_result (str_strip str_lower : string → string)
    (int_of_str : string → option Z) (str_repr : string → string)
    (player_configs : list (string * Z)) (g : Game) :
  session_game str_strip str_lower int_of_str str_repr player_configs g →
  ∃ winner_name, winner g = Some winner_name
                 ∧ winner_name ∈ (net_results g).*1.
Proof.
  intros (d & b & s & bu & rounds & w & _ & _ & _ & Hset).
  unfold set_winner in Hset. destruct (decide _) as [Hin|]; [|done].
  injection Hset as <-. simpl. exists w. split; [done|].
  by apply winner_nets_lookup.
Qed.

Lemma run_session_outcome (str_strip str_lower : string → string)
    (int_of_str : string → option Z) (str_repr : string → string)
    (empty_min_message : string) (inp rest : list string) (app : App)
    (r : result (option (list (string * Z) * list Transfer))) :
  run_session str_strip str_lower int_of_str str_repr empty_min_message inp
  = (app, r, rest) →
  match r with
  | Ok summary =>
      ∃ player_configs,
        app_player_configs app = Some player_configs
        ∧ (2 ≤ length player_configs)%nat
        ∧ Forall (λ c : string * Z, 0 < c.2) player_configs
        ∧ app_games app ≠ []
        ∧ Forall (session_game str_strip str_lower int_of_str str_repr
                    player_configs) (app_games app)
        ∧ aggregate_net_totals (app_games app) ≠ []
        ∧ summary = Some (aggregate_net_totals (app_games app),
                          calculate_settlements
                            (aggregate_net_totals (app_games app)))
        ∧ print_summary (aggregate_net_totals (app_games app),
                         calculate_settlements
                           (aggregate_net_totals (app_games app)))
          = Ok ()
  | Raise e => (e = EOFError ∧ rest = []) ∨ e = OverflowError
               ∨ e = int_str_error
  end.
Proof.
  unfold run_session.
  destruct (games_loop _ _ _ _ _ (S (length inp)) App_init inp)
    as [[app1 [u|e]] rest1] eqn:Hloop;
    apply games_loop_result in Hloop; try lia; try done;
    [|by intros [= <- <- <-]].
  destruct Hloop as (Hstate & Hne & Hcache).
  unfold session_state in Hstate.
  destruct (app_player_configs app1) as [configs|] eqn:Hconf; [|done].
  destruct Hstate as (Hlen & Hpos & Hgames).
  assert (Hagg : aggregate_net_totals (app_games app1) ≠ []).
  { destruct (app_games app1) as [|g games] eqn:Hg; [done|].
    inversion Hgames as [|? ? Hgame _]; subst.
    destruct (session_game_has_result _ _ _ _ _ _ Hgame) as (w & _ & Hw).
    destruct (aggregate_fold (g :: games) []) as (_ & _ & _ & Hkeys);
      [apply NoDup_nil_2|].
    cbn zeta in Hkeys. fold (aggregate_net_totals (g :: games)) in Hkeys.
    intros Hnil. assert (Hin : w ∈ (aggregate_net_totals (g :: games)).*1).
    { apply Hkeys. right. exists g. split; [left | done]. }
    rewrite Hnil in Hin. by apply elem_of_nil in Hin. }
  assert (Hsum : session_summary (app_games app1)
                 = Some (aggregate_net_totals (app_games app1),
                         calculate_settlements
                           (aggregate_net_totals (app_games app1)))).
  { unfold session_summary. cbv zeta.
    by destruct (aggregate_net_totals (app_games app1)). }
  rewrite Hsum.
  destruct (print_summary _) as [[]|e1] eqn:Hprint; intros [= <- <- <-].
  - exists configs. repeat split; done.
  - right. right. unfold print_summary in Hprint.
    destruct (format_ints (map snd _)) as [u1|e2] eqn:Hnets.
    + by apply format_ints_raises in Hprint.
    + injection Hprint as <-. by apply format_ints_raises in Hnets.
Qed.

(** X25: when [run] gets as far as the session data, it has played at
    least one game; every game was set up from one and the same cached
    configuration (at least two players, positive stacks), with a base unit
    of at least 1 and the four denominations, played for at least one round
    and closed with a winner among its players; and the aggregated net
    totals are not empty, so the early return for a session without
    results is never taken and the settlements are always computed. *)
Theorem run_session_completes (str_strip str_lower : string → string)
    (int_of_str : string → option Z) (str_repr : string → string)
    (empty_min_message : string) (inp rest : list string) (app : App)
    (summary : option (list (string * Z) * list Transfer)) :
  run_session str_strip str_lower int_of_str str_repr empty_min_message inp
  = (app, Ok summary, rest) →
  ∃ player_configs,
    app_player_configs app = Some player_configs
    ∧ (2 ≤ length player_configs)%nat
    ∧ Forall (λ c : string * Z, 0 < c.2) player_configs
    ∧ app_games app ≠ []
    ∧ Forall (session_game str_strip str_lower int_of_str str_repr
                player_configs) (app_games app)
    ∧ summary = Some (aggregate_net_totals (app_games app),
                      calculate_settlements
                        (aggregate_net_totals (app_games app))).
Proof.
  intros Hrun. apply run_session_outcome in Hrun as (configs & H).
  exists configs. tauto.
Qed.

(** X26: when [run] gets as far as the session data and the players were
    entered under pairwise distinct names, the aggregated net totals sum to
    zero and the settlements it has computed, applied as payments, bring
    every player's total to zero; their amounts add up to the total debt. *)
Theorem run_session_settles (str_strip str_lower : string → string)
    (int_of_str : string → option Z) (str_repr : string → string)
    (empty_min_message : string) (inp rest : list string) (app : App)
    (summary : option (list (string * Z) * list Transfer))
    (player_configs : list (string * Z)) :
  run_session str_strip str_lower int_of_str str_repr empty_min_message inp
  = (app, Ok summary, rest) →
  app_player_configs app = Some player_configs →
  NoDup (map fst player_configs) →
  ∃ net_totals ts,
    summary = Some (net_totals, ts)
    ∧ sum (map snd net_totals) = 0
    ∧ (∀ player, foldl apply_payment (net_of net_totals) ts player = 0)
    ∧ total_transferred ts = debtor_magnitude net_totals.
Proof.
  intros Hrun Hcache Hnd.
  apply run_session_outcome in Hrun
    as (configs & Hc & _ & _ & _ & Hgames & _ & -> & _).
  rewrite Hcache in Hc. injection Hc as <-.
  destruct (aggregate_keys_and_sum_aux (app_games app)) as (Hdict & Hzero).
  { eapply Forall_impl; [exact Hgames|]. intros g Hg.
    eapply finished_game_zero_sum. by eapply session_game_finished. }
  eexists _, _. split; [reflexivity|]. split; [done|].
  rewrite calculate_settlements_sweep.
  apply sweep_settles.
  - lia.
  - apply debtors_of_positive.
  - apply creditors_of_positive.
  - rewrite sum_split in Hzero. lia.
  - intros player. by apply net_of_split.
Qed.

(** X27: whatever lines it is given, [run] fails before the session data
    in three ways only: with [EOFError], when the input runs out (every
    line is then consumed); with [OverflowError], when the smallest
    starting stack is too large for a float; or with the [ValueError] of an
    integer too long to print.  No other [ValueError] gets out: not the one
    of [min] on an empty sequence, not the one of [set_winner] on an
    unknown name, not the one of [int] on a line that is no integer. *)
Theorem run_session_failures (str_strip str_lower : string → string)
    (int_of_str : string → option Z) (str_repr : string → string)
    (empty_min_message : string) (inp rest : list string) (app : App) (e : exn) :
  run_session str_strip str_lower int_of_str str_repr empty_min_message inp
  = (app, Raise e, rest) →
  (e = EOFError ∧ rest = []) ∨ e = OverflowError ∨ e = int_str_error.
Proof.
  intros Hrun. by apply run_session_outcome in Hrun.
Qed.

Lemma run_session_completes_witness :
  let out := run_session ascii_strip ascii_lower decimal_int quote_repr "empty"
               two_game_session in
  out.1.2 = Ok (Some ([("A", 10); ("B", -10)], [mkTransfer "B" "A" 10]))
  ∧ ∃ player_configs,
      app_player_configs out.1.1 = Some player_configs
      ∧ (2 ≤ length player_configs)%nat.
Proof.
  intros out.
  assert (Hr : out.1.2
               = Ok (Some ([("A", 10); ("B", -10)], [mkTransfer "B" "A" 10])))
    by (vm_compute; reflexivity).
  split; [exact Hr|].
  assert (Hrun : out = (out.1.1, out.1.2, out.2)) by (by destruct out as [[? ?] ?]).
  rewrite Hr in Hrun.
  destruct (run_session_completes _ _ _ _ _ _ _ _ _ Hrun)
    as (configs & Hc & Hlen & _).
  exists configs. split; [exact Hc | exact Hlen].
Defined.

Lemma run_session_settles_witness :
  foldl apply_payment (net_of [("A", 10); ("B", -10)])
    [mkTransfer "B" "A" 10] "A" = 0.
Proof.
  set (out := run_session ascii_strip ascii_lower decimal_int quote_repr "empty"
                two_game_session).
  assert (Hr : out.1.2
               = Ok (Some ([("A", 10); ("B", -10)], [mkTransfer "B" "A" 10])))
    by (vm_compute; reflexivity).
  assert (Hcache : app_player_configs out.1.1 = Some [("A", 100); ("B", 100)])
    by (vm_compute; reflexivity).
  assert (Hrun : out = (out.1.1, out.1.2, out.2)) by (by destruct out as [[? ?] ?]).
  rewrite Hr in Hrun.
  destruct (run_session_settles _ _ _ _ _ _ _ _ _ _ Hrun Hcache)
    as (nt & ts & Heq & _ & Hzero & _).
  { apply (bool_decide_unpack _). vm_compute. exact I. }
  injection Heq as <- <-. apply Hzero.
Defined.

Lemma run_session_failures_witness :
  let out := run_session ascii_strip ascii_lower decimal_int quote_repr "empty"
               ["2"; "A"; "100"; "B"; "100"; "A"; "B"; "A"; "fold"] in
  out.1.2 = Raise EOFError ∧ out.2 = [].
Proof.
  intros out.
  assert (Hr : out.1.2 = Raise EOFError) by (vm_compute; reflexivity).
  split; [exact Hr|].
  assert (Hrun : out = (out.1.1, out.1.2, out.2)) by (by destruct out as [[? ?] ?]).
  rewrite Hr in Hrun.
  destruct (run_session_failures _ _ _ _ _ _ _ _ _ Hrun)
    as [[_ Hrest]|[Habs|Habs]];
    [exact Hrest | discriminate | unfold int_str_error in Habs; discriminate].
Defined.

(** ** The serialized game *)

Lemma round_counts_completed (str_strip str_lower : string → string)
    (int_of_str : string → option Z) (str_repr : string → string)
    (g : Game) (ops : list operation) :
  round (run_operations str_strip str_lower int_of_str str_repr g ops)
  = round g + completed_rounds str_strip str_lower int_of_str str_repr g ops.
Proof.
  revert g. induction ops as [|op ops IH]; intros g; [simpl; lia|].
  cbn [run_operations foldl completed_rounds].
  fold (run_operations str_strip str_lower int_of_str str_repr
          (run_operation str_strip str_lower int_of_str str_repr g op) ops).
  rewrite IH. destruct op as [inp|w]; simpl.
  - destruct (record_round str_strip str_lower int_of_str g inp)
      as [[g1 [[]|e]] rest] eqn:Hr; simpl.
    + apply record_round_returns in Hr as (-> & _). lia.
    + apply record_round_raises in Hr as (_ & -> & _). lia.
  - destruct (set_winner_frame str_repr w g) as (_ & _ & _ & -> & _). lia.
Qed.

(** X28: the dict that [Game.to_dict] builds for a game set up from a
    configuration and taken through any operations is consistent:
    [rounds_played] is the number of rounds recorded to the end; [pot] is
    the sum of the [total_bet] of the player dicts and the sum of the
    history amounts; the player dicts come in the configured order with the
    configured names and starting stacks, and in each of them
    [ending_stack = starting_stack - total_bet], [total_bet] being the sum
    of the amounts in [bets]. *)
Theorem to_dict_consistent (str_strip str_lower : string → string)
    (int_of_str : string → option Z) (str_repr : string → string)
    (player_configs : list (string * Z)) (dealer0 big_blind0 small_blind0 : string)
    (base_unit0 : Z) (chip_denoms0 : list Z) (ops : list operation) :
  let g0 := Game_init (fresh_players player_configs) dealer0 big_blind0
              small_blind0 base_unit0 chip_denoms0 in
  let d := Game_to_dict
             (run_operations str_strip str_lower int_of_str str_repr g0 ops) in
  d_rounds_played d
  = completed_rounds str_strip str_lower int_of_str str_repr g0 ops
  ∧ d_pot d = sum (map d_total_bet (d_players d))
  ∧ d_pot d = sum (map entry_amount (d_history d))
  ∧ map (λ pd, (d_name pd, d_starting_stack pd)) (d_players d) = player_configs
  ∧ Forall (λ pd, d_ending_stack pd = d_starting_stack pd - d_total_bet pd
                  ∧ d_total_bet pd = sum (map snd (d_bets pd)))
      (d_players d).
Proof.
  cbv zeta.
  set (g0 := Game_init (fresh_players player_configs) dealer0 big_blind0
               small_blind0 base_unit0 chip_denoms0).
  set (g := run_operations str_strip str_lower int_of_str str_repr g0 ops).
  assert (Hinv : pot g = sum (map entry_amount (history g))
                 ∧ map (λ p, (name p, starting_stack p)) (players g)
                   = player_configs
                 ∧ ∀ p, p ∈ players g → stack p = starting_stack p - total_bet p).
  { apply (run_operations_inv str_strip str_lower int_of_str str_repr
             (λ g, pot g = sum (map entry_amount (history g))
                   ∧ map (λ p, (name p, starting_stack p)) (players g)
                     = player_configs
                   ∧ ∀ p, p ∈ players g →
                       stack p = starting_stack p - total_bet p)).
    - intros round_no k g1 g2 (Hpot & Hcfg & Hok) Hturn.
      destruct (turn_commits_cases _ _ _ _ Hturn)
        as [[_ ->]|(p & p' & action & amount & Hk & Hc & _)]; [done|].
      destruct Hc as (Hpl & Hh & Hp & _ & _ & _ & _ & _ & _ & _ & _
                      & Hn & Hs & Hb & Ha & Hst).
      rewrite Hpl, Hh, Hp. split; [|split].
      + rewrite map_app, sum_app. simpl. lia.
      + rewrite (map_insert_same _ _ _ p) by (done || congruence). done.
      + intros q Hq. apply list_elem_of_lookup in Hq as [i Hi].
        destruct (decide (i = k)) as [->|Hne].
        * rewrite list_lookup_insert_eq in Hi by (by eapply lookup_lt_Some).
          injection Hi as <-.
          pose proof (Hok p (list_elem_of_lookup_2 _ _ _ Hk)) as Hst0.
          rewrite Hst, Hs, Hst0. unfold total_bet. rewrite Hb, map_app, sum_app.
          simpl. lia.
        * rewrite list_lookup_insert_ne in Hi by done.
          apply Hok. by eapply list_elem_of_lookup_2.
    - intros g1 H. exact H.
    - intros w g1 H.
      destruct (set_winner_frame str_repr w g1) as (-> & -> & -> & _). exact H.
    - simpl. split; [done|]. split.
      + unfold fresh_players. rewrite map_map. simpl.
        clear. induction player_configs as [|[n s] cs IH]; [done|].
        simpl. by rewrite IH.
      + intros p Hp. unfold fresh_players in Hp.
        apply list_elem_of_In, in_map_iff in Hp as ([n s] & <- & _).
        unfold total_bet. simpl. lia. }
  destruct Hinv as (Hpot & Hcfg & Hok).
  destruct (fresh_game_invariant str_strip str_lower int_of_str str_repr
              player_configs dealer0 big_blind0 small_blind0 base_unit0
              chip_denoms0 ops) as [Hbets _].
  cbv zeta in Hbets. fold g0 g in Hbets. unfold pot_is_bets_sum in Hbets.
  pose proof (round_counts_completed str_strip str_lower int_of_str str_repr
                g0 ops) as Hround.
  fold g in Hround. change (round g0) with 1 in Hround.
  clearbody g. simpl. rewrite !map_map. simpl.
  split; [rewrite Hround; lia|]. split; [exact Hbets|].
  split; [exact Hpot|]. split; [exact Hcfg|].
  rewrite Forall_fmap. apply Forall_forall. intros p Hp. simpl.
  split; [by apply Hok | done].
Qed.

(** ** The value of the chips *)

(** X29: for a smallest stack below [2^53], from 400 on the base unit is
    [floor(min_stack / 400)], so the 100-unit chip is worth at most a
    quarter of the smallest stack and misses the quarter by less than 100;
    below 400 the fallback gives a base unit of 1, 2 or 3, namely
    [floor(min_stack / 100)] but at least 1, so the smallest stack is less
    than [100 × (base_unit + 1)] and, from 100 on, at least
    [100 × base_unit]. *)
Theorem chip_values (min_stack unit0 : Z) (denoms : list Z) :
  0 < min_stack < 2 ^ 53 →
  chip_mapping min_stack = Ok (unit0, denoms) →
  (400 ≤ min_stack →
     unit0 = min_stack / 400
     ∧ 100 * unit0 ≤ min_stack / 4 < 100 * unit0 + 100)
  ∧ (min_stack < 400 →
     unit0 = Z.max 1 (min_stack / 100)
     ∧ 1 ≤ unit0 ≤ 3
     ∧ min_stack < 100 * (unit0 + 1)
     ∧ (100 ≤ min_stack → 100 * unit0 ≤ min_stack)).
Proof.
  intros Hrange. unfold chip_mapping.
  rewrite float_of_int_exact by lia.
  rewrite Z.quot_div_nonneg by lia. cbv zeta.
  assert (Hdiv : min_stack / 4 / 100 = min_stack / 400)
    by (rewrite Z.div_div by lia; reflexivity).
  rewrite Hdiv.
  pose proof (Z.div_mod min_stack 400 ltac:(lia)) as H400.
  pose proof (Z.mod_pos_bound min_stack 400 ltac:(lia)) as B400.
  pose proof (Z.div_mod min_stack 100 ltac:(lia)) as H100.
  pose proof (Z.mod_pos_bound min_stack 100 ltac:(lia)) as B100.
  pose proof (Z.div_mod min_stack 4 ltac:(lia)) as H4.
  pose proof (Z.mod_pos_bound min_stack 4 ltac:(lia)) as B4.
  destruct (Z.ltb_spec (min_stack / 400) 1) as [Hlt|Hge]; intros [= <- <-].
  - assert (Hsmall : min_stack < 400) by nia.
    split; [lia|]. intros _. split; [done|]. lia.
  - assert (Hbig : 400 ≤ min_stack) by nia.
    split; [|lia]. intros _. split; [done|]. lia.
Qed.

Lemma chip_values_witness :
  chip_mapping 1000 = Ok (2, [1; 5; 25; 100])
  ∧ 100 * 2 ≤ 1000 / 4.
Proof.
  assert (Hc : chip_mapping 1000 = Ok (2, [1; 5; 25; 100]))
    by (vm_compute; reflexivity).
  split; [exact Hc|].
  destruct (chip_values 1000 2 [1; 5; 25; 100]) as [Hbig _];
    [vm_compute; split; reflexivity | exact Hc |].
  destruct Hbig as [_ [Hle _]]; [vm_compute; discriminate | exact Hle].
Defined.

(** ** Further examples *)

Lemma no_transfer_iff_one_sided_witness :
  calculate_settlements [("A", 0); ("B", 5); ("C", 7)] = [].
Proof.
  apply (no_transfer_iff_one_sided [("A", 0); ("B", 5); ("C", 7)]).
  left. repeat constructor; vm_compute; discriminate.
Defined.

Lemma aggregate_keys_and_sum_witness :
  "B" ∈ (aggregate_net_totals [first_game; second_game]).*1.
Proof.
  destruct (aggregate_keys_and_sum [first_game; second_game]) as (_ & Hkeys & _).
  apply Hkeys. exists second_game. split.
  - right. left.
  - apply (bool_decide_unpack _). vm_compute. exact I.
Defined.

Lemma history_pot_after_running_witness :
  ∃ e, history (run_operations ascii_strip ascii_lower decimal_int quote_repr
                  two_player_game
                  [RecordRound ["bet"; "20"; "0"; "0"; "0";
                                "call"; "20"; "0"; "0"; "0"]]) !! 1%nat = Some e
       ∧ entry_pot_after e = 40.
Proof.
  destruct (history_pot_after_running ascii_strip ascii_lower decimal_int
              quote_repr (fresh_players [("A", 100); ("B", 100)]) "A" "B" "A" 1
              [1; 5; 25; 100]
              [RecordRound ["bet"; "20"; "0"; "0"; "0"; "call"; "20"; "0"; "0"; "0"]])
    as [Hrun _].
  eexists. split; [vm_compute; reflexivity|].
  refine (eq_trans (Hrun 1%nat _ _) _); vm_compute; reflexivity.
Defined.

Lemma players_keep_their_ledger_witness :
  Forall (λ p, stack p = starting_stack p - total_bet p)
    (players (run_operations ascii_strip ascii_lower decimal_int quote_repr
                two_player_game
                [RecordRound ["bet"; "20"; "0"; "0"; "0"; "fold"]])).
Proof.
  apply Forall_forall. intros p Hp.
  destruct (players_keep_their_ledger ascii_strip ascii_lower decimal_int
              quote_repr [("A", 100); ("B", 100)] "A" "B" "A" 1 [1; 5; 25; 100]
              [RecordRound ["bet"; "20"; "0"; "0"; "0"; "fold"]])
    as [_ Hok].
  by apply Hok.
Defined.

Lemma history_in_round_order_witness :
  Forall (λ e, 1 ≤ entry_round e ≤ 3)
    (history (run_operations ascii_strip ascii_lower decimal_int quote_repr
                two_player_game
                [RecordRound ["fold"; "fold"]; RecordRound ["check"; "check"]])).
Proof.
  apply Forall_forall. intros e He.
  destruct (history_in_round_order ascii_strip ascii_lower decimal_int
              quote_repr (fresh_players [("A", 100); ("B", 100)]) "A" "B" "A" 1
              [1; 5; 25; 100]
              [RecordRound ["fold"; "fold"]; RecordRound ["check"; "check"]])
    as (_ & Hb & _).
  apply (Hb e He).
Defined.

(** ** Printing the session summary *)

Lemma int_str_raises_false (n : Z) :
  int_str_raises n = false ↔ Z.abs n < int_str_limit.
Proof. unfold int_str_raises. apply Z.leb_gt. Qed.

(** The literal that holds the limit is the power it stands for. *)
Lemma int_str_limit_eq : int_str_limit = 10 ^ max_str_digits.
Proof. vm_compute. reflexivity. Qed.

(** A transfer never moves more than the largest debt. *)
Lemma sweep_bounded (fuel : nat) (ds cs : list (string * Z)) (bound : Z) :
  positive_entries ds → positive_entries cs →
  Forall (λ x : string * Z, x.2 ≤ bound) ds →
  Forall (λ t, 0 < tr_amount t ≤ bound) (sweep fuel ds cs).
Proof.
  revert ds cs. induction fuel as [|fuel IH]; intros ds cs Hds Hcs Hb;
    [constructor|].
  destruct ds as [|[dn da] ds]; [constructor|].
  destruct cs as [|[cn ca] cs]; [constructor|].
  inversion Hds as [|? ? Hda Hds']; subst. inversion Hcs as [|? ? Hca Hcs']; subst.
  inversion Hb as [|? ? Hba Hb']; subst.
  simpl in Hda, Hca, Hba. simpl. constructor; [simpl; lia|].
  apply IH.
  - apply reduce_head_positive; [lia | done].
  - apply reduce_head_positive; [lia | done].
  - unfold reduce_head. destruct (_ =? 0); [done|].
    constructor; [simpl; lia | done].
Qed.

(** X30: the lines of [run] that print the settlements never raise: every
    settlement amount is positive and at most the largest debt, so it can
    be printed whenever the net totals could.  Printing the session summary
    therefore raises exactly when a net total is too long to print. *)
Theorem settlement_lines_print (net_totals : list (string * Z)) :
  print_summary (net_totals, calculate_settlements net_totals)
  = format_ints (map snd net_totals).
Proof.
  unfold print_summary. simpl.
  destruct (format_ints (map snd net_totals)) as [[]|e] eqn:Hnets; [|done].
  apply format_ints_ok. apply format_ints_ok in Hnets.
  rewrite calculate_settlements_sweep.
  assert (Hb : Forall (λ x : string * Z, x.2 ≤ int_str_limit - 1)
                 (debtors_of net_totals)).
  { unfold debtors_of. rewrite Forall_fmap. apply list.Forall_forall.
    intros [n v] [Hv Hin]%list_elem_of_filter. simpl in *.
    rewrite list.Forall_forall in Hnets.
    assert (Hp : int_str_raises v = false).
    { apply Hnets. apply list_elem_of_fmap. by exists (n, v). }
    apply int_str_raises_false in Hp. lia. }
  pose proof (sweep_bounded
                (length (debtors_of net_totals) + length (creditors_of net_totals))
                _ _ _ (debtors_of_positive net_totals)
                (creditors_of_positive net_totals) Hb) as Hts.
  clear Hb Hnets. induction Hts as [|t ts [Hpos Hle] _ IH]; simpl; constructor;
    [|done].
  apply int_str_raises_false. lia.
Qed.
